(** * Mercury function shipper and wireup responder: a shallow embedding

    Two C translation units are embedded here.

    - [src/function_shipper_handler.c]: the server side of the function
      shipper (module initialisation, the function registry, the per-call
      handle and the receive / get-input / complete path).  It lives in
      [Module Handler].
    - [replies.c]: the wireup responder and the loop that serves the
      adaptive receive pool.  It lives in [Module Replies].

    C statements are state transformers in a small monad whose results
    distinguish a normal return, undefined behaviour, process exit and a
    wait that the transport never ends.  Memory that the code allocates and
    frees is an explicit heap; calls into collaborators (transport, codec,
    user routines) are recorded on a chronological trace. *)

From stdpp Require Import gmap strings list fin_maps.
From Stdlib Require Import ZArith Lia.

Local Open Scope Z_scope.

(** ** Outcomes of a C call *)

Inductive outcome (St A : Type) : Type :=
| Ret (a : A) (s : St)      (* the call returns [a] *)
| Undef                     (* undefined behaviour: no guarantee at all *)
| Exit (s : St)             (* the process exits ([err], [errx]) *)
| Hang (s : St).            (* the call waits for the transport forever *)

Arguments Ret {St A} a s.
Arguments Undef {St A}.
Arguments Exit {St A} s.
Arguments Hang {St A} s.

Definition M (St A : Type) : Type := St → outcome St A.

Definition ret {St A} (a : A) : M St A := λ s, Ret a s.

Definition bind {St A B} (m : M St A) (k : A → M St B) : M St B :=
  λ s, match m s with
       | Ret a s' => k a s'
       | Undef => Undef
       | Exit s' => Exit s'
       | Hang s' => Hang s'
       end.

Definition undef {St A} : M St A := λ _, Undef.
Definition get {St} : M St St := λ s, Ret s s.
Definition gets {St A} (f : St → A) : M St A := λ s, Ret (f s) s.
Definition modify {St} (f : St → St) : M St unit := λ s, Ret tt (f s).

Declare Scope c_scope.
Delimit Scope c_scope with C.
Notation "x <- m ; k" := (bind m (λ x, k))
  (at level 100, m at next level, right associativity) : c_scope.
Notation "m ;; k" := (bind m (λ _, k))
  (at level 100, right associativity) : c_scope.

(** [size_t] is taken to be 64 bits wide; unsigned arithmetic wraps. *)
Definition SIZE_MAX : Z := 2 ^ 64 - 1.
Definition wrap_size (z : Z) : Z := z mod 2 ^ 64.

Definition ptr : Type := Z.
Definition NULL : ptr := 0.

(** A pointer different from every live object and from [NULL]. *)
Definition fresh_ptr (live : gset Z) : ptr := fresh ({[NULL]} ∪ live).

(** ** The function shipper handler ([src/function_shipper_handler.c]) *)

Module Handler.

(** [S_SUCCESS] and [S_FAIL] of [shipper_error.h]. *)
Inductive ret_code : Type := S_SUCCESS | S_FAIL.

(** [FS_ENCODE] and [FS_DECODE], the two modes of a proc. *)
Inductive fs_op : Type := FS_ENCODE | FS_DECODE.

(** [fs_proc_info_t]: the three routines registered for one operation,
    each a function pointer. *)
Record fs_proc_info : Type := {
  fs_routine : ptr;
  dec_routine : ptr;
  enc_routine : ptr
}.

(** [fs_priv_handle_t]. *)
Record fs_priv_handle : Type := {
  id : Z;
  addr : ptr;
  tag : Z;
  dec_proc : ptr;
  recv_buf : ptr;
  in_struct : ptr
}.

(** What [fs_proc_create] builds: a cursor over [proc_len] bytes that start
    [proc_off] bytes into the block at [proc_base]. *)
Record fs_proc : Type := {
  proc_base : ptr;
  proc_off : Z;
  proc_len : Z;
  proc_op : fs_op
}.

(** Objects on the C heap. *)
Inductive object : Type :=
| OHandle (h : fs_priv_handle)
| OProc (p : fs_proc)
| OBuf (size : Z) (data : list Z).

(** A message the transport delivers to [na_recv_unexpected]. *)
Record na_message : Type := {
  msg_data : list Z;    (* payload bytes *)
  msg_src : ptr;        (* the address object the transport creates *)
  msg_tag : Z
}.

Inductive event : Type :=
| EvError (msg : string)
| EvMalloc (size : Z) (p : ptr)
| EvFree (p : ptr)
| EvNaFinalize (nc : ptr)
| EvRecvUnexpected (nc buf : ptr) (len : Z) (src : ptr) (tg : Z)
| EvCompatDecId (buf : ptr) (len : Z)
| EvCompatEncStatus (buf : ptr) (len : Z)
| EvProcCreate (base : ptr) (off len : Z) (op : fs_op) (p : ptr)
| EvProcFree (p : ptr)
| EvDecode (routine proc dst : ptr)
| EvExecute (routine handle : ptr)
| EvEncode (routine proc src : ptr)
| EvSend (nc buf : ptr) (len : Z) (dst : ptr) (tg : Z)
| EvWait (nc : ptr)
| EvAddrFree (nc a : ptr).

(** The two statics of the file, the heap, and the environment. *)
Record state : Type := {
  handler_network_class : ptr;
  handler_func_map : option (gmap Z fs_proc_info);
  heap : gmap Z object;
  na_addrs : gset Z;            (* live transport address objects *)
  malloc_oracle : list bool;    (* outcomes of the next [malloc] calls *)
  inbox : list na_message;      (* unexpected messages still to arrive *)
  trace : list event
}.

Definition set_network_class (nc : ptr) (s : state) : state :=
  {| handler_network_class := nc; handler_func_map := handler_func_map s;
     heap := heap s; na_addrs := na_addrs s; malloc_oracle := malloc_oracle s;
     inbox := inbox s; trace := trace s |}.
Definition set_func_map (fm : option (gmap Z fs_proc_info)) (s : state) : state :=
  {| handler_network_class := handler_network_class s; handler_func_map := fm;
     heap := heap s; na_addrs := na_addrs s; malloc_oracle := malloc_oracle s;
     inbox := inbox s; trace := trace s |}.
Definition set_heap (h : gmap Z object) (s : state) : state :=
  {| handler_network_class := handler_network_class s;
     handler_func_map := handler_func_map s;
     heap := h; na_addrs := na_addrs s; malloc_oracle := malloc_oracle s;
     inbox := inbox s; trace := trace s |}.
Definition set_na_addrs (a : gset Z) (s : state) : state :=
  {| handler_network_class := handler_network_class s;
     handler_func_map := handler_func_map s;
     heap := heap s; na_addrs := a; malloc_oracle := malloc_oracle s;
     inbox := inbox s; trace := trace s |}.
Definition set_malloc_oracle (o : list bool) (s : state) : state :=
  {| handler_network_class := handler_network_class s;
     handler_func_map := handler_func_map s;
     heap := heap s; na_addrs := na_addrs s; malloc_oracle := o;
     inbox := inbox s; trace := trace s |}.
Definition set_inbox (i : list na_message) (s : state) : state :=
  {| handler_network_class := handler_network_class s;
     handler_func_map := handler_func_map s;
     heap := heap s; na_addrs := na_addrs s; malloc_oracle := malloc_oracle s;
     inbox := i; trace := trace s |}.
Definition set_trace (t : list event) (s : state) : state :=
  {| handler_network_class := handler_network_class s;
     handler_func_map := handler_func_map s;
     heap := heap s; na_addrs := na_addrs s; malloc_oracle := malloc_oracle s;
     inbox := inbox s; trace := t |}.

Local Open Scope c_scope.

(** *** Primitives *)

Definition emit (e : event) : M state unit :=
  modify (λ s, set_trace (trace s ++ [e]) s).

(** [S_ERROR_DEFAULT]. *)
Definition S_ERROR_DEFAULT (msg : string) : M state unit := emit (EvError msg).

(** Every pointer that is in use: the heap's objects and the transport's
    address objects. *)
Definition live (s : state) : gset Z := dom (heap s) ∪ na_addrs s.

(** [malloc]: the oracle says whether the call succeeds (an empty oracle
    means it does); on failure the result is [NULL]. *)
Definition malloc (size : Z) : M state ptr := λ s,
  let ok := match malloc_oracle s with b :: _ => b | [] => true end in
  let s1 := set_malloc_oracle (tail (malloc_oracle s)) s in
  if ok then
    let p := fresh_ptr (live s) in
    Ret p (set_trace (trace s ++ [EvMalloc size p])
             (set_heap (<[p := OBuf size []]> (heap s)) s1))
  else Ret NULL (set_trace (trace s ++ [EvMalloc size NULL]) s1).

(** [free]: nothing for [NULL]; undefined for a pointer that is not live. *)
Definition free (p : ptr) : M state unit := λ s,
  if decide (p = NULL) then Ret tt s
  else match heap s !! p with
       | Some _ => Ret tt (set_trace (trace s ++ [EvFree p])
                             (set_heap (delete p (heap s)) s))
       | None => Undef
       end.

(** Reading and writing the struct behind a [fs_priv_handle_t *]. *)
Definition load_handle (h : ptr) : M state fs_priv_handle := λ s,
  if decide (h = NULL) then Undef
  else match heap s !! h with
       | Some (OHandle v) => Ret v s
       | _ => Undef
       end.

Definition store_handle (h : ptr) (v : fs_priv_handle) : M state unit := λ s,
  if decide (h = NULL) then Undef
  else match heap s !! h with
       | Some (OHandle _) => Ret tt (set_heap (<[h := OHandle v]> (heap s)) s)
       | _ => Undef
       end.

Definition set_id (x : Z) (v : fs_priv_handle) : fs_priv_handle :=
  {| id := x; addr := addr v; tag := tag v; dec_proc := dec_proc v;
     recv_buf := recv_buf v; in_struct := in_struct v |}.
Definition set_addr (x : ptr) (v : fs_priv_handle) : fs_priv_handle :=
  {| id := id v; addr := x; tag := tag v; dec_proc := dec_proc v;
     recv_buf := recv_buf v; in_struct := in_struct v |}.
Definition set_tag (x : Z) (v : fs_priv_handle) : fs_priv_handle :=
  {| id := id v; addr := addr v; tag := x; dec_proc := dec_proc v;
     recv_buf := recv_buf v; in_struct := in_struct v |}.
Definition set_dec_proc (x : ptr) (v : fs_priv_handle) : fs_priv_handle :=
  {| id := id v; addr := addr v; tag := tag v; dec_proc := x;
     recv_buf := recv_buf v; in_struct := in_struct v |}.
Definition set_recv_buf (x : ptr) (v : fs_priv_handle) : fs_priv_handle :=
  {| id := id v; addr := addr v; tag := tag v; dec_proc := dec_proc v;
     recv_buf := x; in_struct := in_struct v |}.
Definition set_in_struct (x : ptr) (v : fs_priv_handle) : fs_priv_handle :=
  {| id := id v; addr := addr v; tag := tag v; dec_proc := dec_proc v;
     recv_buf := recv_buf v; in_struct := x |}.

(** [h->field = x;] *)
Definition update_handle (h : ptr) (f : fs_priv_handle → fs_priv_handle)
  : M state unit :=
  v <- load_handle h; store_handle h (f v).

(** The function map behind the static pointer; using it while the pointer
    is [NULL] is undefined. *)
Definition func_map : M state (gmap Z fs_proc_info) := λ s,
  match handler_func_map s with
  | Some fm => Ret fm s
  | None => Undef
  end.

(** [func_map_lookup]: the entry stored under the key, or [NULL]. *)
Definition func_map_lookup (key : Z) : M state (option fs_proc_info) :=
  fm <- func_map; ret (fm !! key).

(** Modelled from the spec: [func_map_insert] of [function_map.h], whose
    code is not part of the sources.  The spec (data model, OperationId)
    records that a second registration under an id that is already a key
    silently overwrites the stored entry. *)
Definition func_map_insert (key : Z) (v : fs_proc_info) : M state unit :=
  fm <- func_map; modify (set_func_map (Some (<[key := v]> fm))).

(** [fs_proc_create]: a new proc over the given bytes. *)
Definition fs_proc_create (base : ptr) (off len : Z) (op : fs_op)
  : M state ptr := λ s,
  let p := fresh_ptr (live s) in
  let pr := {| proc_base := base; proc_off := off; proc_len := len;
               proc_op := op |} in
  Ret p (set_trace (trace s ++ [EvProcCreate base off len op p])
           (set_heap (<[p := OProc pr]> (heap s)) s)).

(** [fs_proc_free]. *)
Definition fs_proc_free (p : ptr) : M state unit := λ s,
  match heap s !! p with
  | Some (OProc _) => Ret tt (set_trace (trace s ++ [EvProcFree p])
                                (set_heap (delete p (heap s)) s))
  | _ => Undef
  end.

(** [na_addr_free]. *)
Definition na_addr_free (a : ptr) : M state unit := λ s,
  Ret tt (set_trace (trace s ++ [EvAddrFree (handler_network_class s) a])
            (set_na_addrs (na_addrs s ∖ {[a]}) s)).

(** [na_finalize]. *)
Definition na_finalize (nc : ptr) : M state unit := emit (EvNaFinalize nc).

(** [func_map_new] and [func_map_free]. *)
Definition func_map_new : gmap Z fs_proc_info := ∅.
Definition func_map_free : M state unit := fm <- func_map; ret tt.

(** [na_recv_unexpected]: blocks until a message arrives, copies at most
    [len] bytes of it into [buf], and hands back the delivered length, a
    new address object for the sender and the sender's tag. *)
Definition na_recv_unexpected (buf : ptr) (len : Z)
  : M state (Z * ptr * Z) := λ s,
  match inbox s with
  | [] => Hang s
  | m :: rest =>
    if decide (buf = NULL) then Undef else
    match heap s !! buf with
    | Some (OBuf size _) =>
      let data := take (Z.to_nat len) (msg_data m) in
      let n := Z.of_nat (length data) in
      Ret (n, msg_src m, msg_tag m)
        (set_trace (trace s ++ [EvRecvUnexpected (handler_network_class s)
                                  buf n (msg_src m) (msg_tag m)])
           (set_inbox rest
              (set_na_addrs ({[msg_src m]} ∪ na_addrs s)
                 (set_heap (<[buf := OBuf size data]> (heap s)) s))))
    | _ => Undef
    end
  end.

(** The bytes a proc has in front of it. *)
Definition proc_bytes (p : ptr) : M state (list Z) := λ s,
  match heap s !! p with
  | Some (OProc pr) =>
    match heap s !! proc_base pr with
    | Some (OBuf _ data) => Ret (drop (Z.to_nat (proc_off pr)) data) s
    | _ => Undef
    end
  | _ => Undef
  end.

Section Functions.

(** What the headers that are not part of the sources provide. *)
Variable na_get_unexpected_size : ptr → Z.
Variable iofsl_compat_get_size_id : Z.
Variable iofsl_compat_get_size_status : Z.
Variable fs_proc_string_hash : string → Z.
Variable decode_uint32 : list Z → Z.        (* the codec of [fs_proc_uint32_t] *)
Variable sizeof_fs_id : Z.
Variable sizeof_fs_proc_info : Z.
Variable sizeof_fs_priv_handle : Z.

(** [fs_proc_uint32_t] in decode mode: the first four bytes in front of the
    proc, decoded.  The call does not look at how many bytes were
    delivered: when fewer than four lie in front of the proc, it reads on
    into bytes of the buffer that nobody wrote (or past its end); their
    value is indeterminate, and the call has no defined result. *)
Definition fs_proc_uint32_t (p : ptr) : M state Z :=
  bs <- proc_bytes p;
  if decide (4 ≤ length bs)%nat then ret (decode_uint32 (take 4 bs))
  else undef.

(** [fs_handler_init] *)
Definition fs_handler_init (network_class : ptr) : M state ret_code :=
  nc <- gets handler_network_class;
  if decide (nc ≠ NULL) then
    S_ERROR_DEFAULT "Already initialized";;
    ret S_FAIL
  else
    modify (set_network_class network_class);;
    modify (set_func_map (Some func_map_new));;
    ret S_SUCCESS.

(** [fs_handler_finalize] *)
Definition fs_handler_finalize : M state ret_code :=
  nc <- gets handler_network_class;
  if decide (nc = NULL) then
    S_ERROR_DEFAULT "Already finalized";;
    ret S_FAIL
  else
    na_finalize nc;;
    func_map_free;;
    modify (set_func_map None);;
    modify (set_network_class NULL);;
    ret S_SUCCESS.

(** Writing through a pointer that [malloc] returned. *)
Definition check_not_null (p : ptr) : M state unit :=
  if decide (p = NULL) then undef else ret tt.

(** [fs_handler_register] *)
Definition fs_handler_register (func_name : string)
    (fs_routine dec_routine enc_routine : ptr) : M state unit :=
  id <- malloc sizeof_fs_id;
  check_not_null id;;
  let key := fs_proc_string_hash func_name in
  proc_info <- malloc sizeof_fs_proc_info;
  check_not_null proc_info;;
  func_map_insert key
    {| Handler.fs_routine := fs_routine; Handler.dec_routine := dec_routine;
       Handler.enc_routine := enc_routine |}.

(** [fs_handler_get_input] *)
Definition fs_handler_get_input (handle in_struct : ptr) : M state ret_code :=
  priv_handle <- load_handle handle;
  if decide (recv_buf priv_handle ≠ NULL ∧ dec_proc priv_handle ≠ NULL) then
    proc_info <- func_map_lookup (id priv_handle);
    match proc_info with
    | None =>
      S_ERROR_DEFAULT "func_map_lookup failed";;
      ret S_FAIL
    | Some proc_info =>
      emit (EvDecode (dec_routine proc_info) (dec_proc priv_handle) in_struct);;
      fs_proc_free (dec_proc priv_handle);;
      update_handle handle (set_dec_proc NULL);;
      free (recv_buf priv_handle);;
      update_handle handle (set_recv_buf NULL);;
      ret S_SUCCESS
    end
  else ret S_SUCCESS.

(** [fs_handler_get_addr] *)
Definition fs_handler_get_addr (handle : ptr) : M state ptr :=
  if decide (handle ≠ NULL) then
    priv_handle <- load_handle handle; ret (addr priv_handle)
  else ret NULL.

(** The six field initialisations that follow the handle's [malloc]. *)
Definition init_handle (h : ptr) : M state unit := λ s,
  if decide (h = NULL) then Undef
  else match heap s !! h with
       | Some (OBuf _ _) =>
         Ret tt (set_heap (<[h := OHandle {| id := 0; addr := NULL; tag := 0;
                                             dec_proc := NULL; recv_buf := NULL;
                                             in_struct := NULL |}]> (heap s)) s)
       | _ => Undef
       end.

Section Receive.

(** Calling a registered executor: user code that gets the handle. *)
Variable call_fs_routine : ptr → ptr → M state unit.

(** [fs_handler_receive] *)
Definition fs_handler_receive : M state ret_code :=
  priv_handle <- malloc sizeof_fs_priv_handle;
  init_handle priv_handle;;
  nc <- gets handler_network_class;
  let recv_buf_len := na_get_unexpected_size nc in
  buf <- malloc recv_buf_len;
  update_handle priv_handle (set_recv_buf buf);;
  msg <- na_recv_unexpected buf recv_buf_len;
  let '(recv_buf_len, src, tg) := msg in
  update_handle priv_handle (set_addr src);;
  update_handle priv_handle (set_tag tg);;
  emit (EvCompatDecId buf recv_buf_len);;
  let dec_buf_off := iofsl_compat_get_size_id in
  let dec_buf_len := wrap_size (recv_buf_len - iofsl_compat_get_size_id) in
  dec_proc <- fs_proc_create buf dec_buf_off dec_buf_len FS_DECODE;
  update_handle priv_handle (set_dec_proc dec_proc);;
  op_id <- fs_proc_uint32_t dec_proc;
  update_handle priv_handle (set_id op_id);;
  proc_info <- func_map_lookup op_id;
  match proc_info with
  | None =>
    S_ERROR_DEFAULT "func_map_lookup failed";;
    ret S_FAIL
  | Some proc_info =>
    emit (EvExecute (fs_routine proc_info) priv_handle);;
    call_fs_routine (fs_routine proc_info) priv_handle;;
    ret S_SUCCESS
  end.

End Receive.

(** [fs_handler_complete] *)
Definition fs_handler_complete (handle out_struct : ptr) : M state ret_code :=
  nc <- gets handler_network_class;
  let send_buf_len := na_get_unexpected_size nc in
  priv_handle <- load_handle handle;
  proc_info <- func_map_lookup (id priv_handle);
  match proc_info with
  | None =>
    S_ERROR_DEFAULT "func_map_lookup failed";;
    ret S_FAIL
  | Some proc_info =>
    send_buf <- malloc send_buf_len;
    if decide (send_buf = NULL) then
      S_ERROR_DEFAULT "send buffer allocation failed.";;
      ret S_FAIL
    else
      emit (EvCompatEncStatus send_buf send_buf_len);;
      let enc_buf_off := iofsl_compat_get_size_status in
      let enc_buf_len := wrap_size (send_buf_len - iofsl_compat_get_size_status) in
      enc_proc <- fs_proc_create send_buf enc_buf_off enc_buf_len FS_ENCODE;
      emit (EvEncode (enc_routine proc_info) enc_proc out_struct);;
      emit (EvSend nc send_buf send_buf_len (addr priv_handle) (tag priv_handle));;
      emit (EvWait nc);;
      fs_proc_free enc_proc;;
      free send_buf;;
      na_addr_free (addr priv_handle);;
      update_handle handle (set_addr NULL);;
      free (in_struct priv_handle);;
      update_handle handle (set_in_struct NULL);;
      free handle;;
      ret S_SUCCESS
  end.

(** The events of a successful completion, in order. *)
Definition complete_events (nc : ptr) (v : fs_priv_handle) (info : fs_proc_info)
    (h out p q : ptr) : list event :=
  let n := na_get_unexpected_size nc in
  [EvMalloc n p; EvCompatEncStatus p n;
   EvProcCreate p iofsl_compat_get_size_status
     (wrap_size (n - iofsl_compat_get_size_status)) FS_ENCODE q;
   EvEncode (enc_routine info) q out;
   EvSend nc p n (addr v) (tag v); EvWait nc;
   EvProcFree q; EvFree p; EvAddrFree nc (addr v)]
  ++ (if decide (in_struct v = NULL) then [] else [EvFree (in_struct v)])
  ++ [EvFree h].

End Functions.

(** The module counts as initialised while the static network class is
    set: this is the test [fs_handler_init] and [fs_handler_finalize] make. *)
Definition initialized (s : state) : Prop := handler_network_class s ≠ NULL.

(** The handle at [h] still owns a receive buffer and a decode context. *)
Definition owns_input (v : fs_priv_handle) : Prop :=
  recv_buf v ≠ NULL ∧ dec_proc v ≠ NULL.

(** The sends, the allocation sizes and the releases recorded on a trace. *)
Definition is_send (e : event) : bool :=
  match e with EvSend _ _ _ _ _ => true | _ => false end.

Definition is_release (e : event) : bool :=
  match e with
  | EvFree _ | EvProcFree _ | EvAddrFree _ _ => true
  | _ => false
  end.

Definition sends (t : list event) : list event := List.filter is_send t.

Definition releases (t : list event) : list event := List.filter is_release t.

Definition allocations (t : list event) : list Z :=
  omap (λ e, match e with EvMalloc n _ => Some n | _ => None end) t.

(** The two-phase contract for the send buffer as the spec words it, for a
    response whose encoding needs [required] bytes: when that and the
    [overhead] of the legacy header fit [limit], the bytes of a single
    buffer, a successful call has allocated exactly that much ([alloc]);
    when they do not fit, the call fails. *)
Definition spec_two_phase (required overhead limit alloc : Z) (r : ret_code)
  : Prop :=
  if decide (required + overhead ≤ limit)
  then r = S_SUCCESS → alloc = required + overhead
  else r = S_FAIL.

(** *** A concrete server, used to run the code on explicit inputs *)

Definition ex_unexpected_size (nc : ptr) : Z := 4096.
Definition ex_size_id : Z := 4.
Definition ex_size_status : Z := 4.
Definition ex_hash (name : string) : Z := Z.of_nat (String.length name) + 40.
Definition ex_decode_uint32 (bs : list Z) : Z :=
  foldl (λ acc b, acc * 256 + b) 0 bs.

(** State after the call, whatever its outcome. *)
Definition after {A} (m : M state A) (s : state) : state :=
  match m s with
  | Ret _ s' | Exit s' | Hang s' => s'
  | Undef => s
  end.

(** Nothing initialised; one request for operation 43 on its way. *)
Definition ex_boot : state :=
  {| handler_network_class := NULL; handler_func_map := None; heap := ∅;
     na_addrs := ∅; malloc_oracle := [];
     inbox := [ {| msg_data := [0; 0; 0; 1; 0; 0; 0; 43; 11; 22];
                   msg_src := 77; msg_tag := 5 |} ];
     trace := [] |}.

(** Initialised on network class [9]; the registry is empty. *)
Definition ex_init : state := after (fs_handler_init 9) ex_boot.

(** ["foo"] (id 43) registered with executor 11, decoder 12, encoder 13. *)
Definition ex_foo : state :=
  after (fs_handler_register ex_hash 4 24 "foo" 11 12 13) ex_init.

(** An executor that gets its input and completes the call at once. *)
Definition ex_executor (routine handle : ptr) : M state unit :=
  (fs_handler_get_input handle 500;;
   fs_handler_complete ex_unexpected_size ex_size_status handle 600;;
   ret tt)%C.

Definition ex_complete : ptr → ptr → M state ret_code :=
  fs_handler_complete ex_unexpected_size ex_size_status.

Definition ex_receive : M state ret_code :=
  fs_handler_receive ex_unexpected_size ex_size_id ex_decode_uint32 48
    ex_executor.

Definition ex_register : string → ptr → ptr → ptr → M state unit :=
  fs_handler_register ex_hash 4 24.

(** A live call: the handle at [100] for operation 43, from address [77]
    with tag [5]; input already taken. *)
Definition ex_call : state :=
  {| handler_network_class := 9;
     handler_func_map :=
       Some {[ 43 := {| fs_routine := 11; dec_routine := 12; enc_routine := 13 |} ]};
     heap := {[ 100 := OHandle {| id := 43; addr := 77; tag := 5;
                                  dec_proc := NULL; recv_buf := NULL;
                                  in_struct := NULL |} ]};
     na_addrs := {[ 77 ]}; malloc_oracle := []; inbox := []; trace := [] |}.

(** The same call before its input is taken: the receive buffer at [101]
    and the decode context at [102] are still owned by the handle. *)
Definition ex_call_fresh : state :=
  set_heap {[ 100 := OHandle {| id := 43; addr := 77; tag := 5;
                                dec_proc := 102; recv_buf := 101;
                                in_struct := NULL |};
              101 := OBuf 4096 [0; 0; 0; 1; 0; 0; 0; 43];
              102 := OProc {| proc_base := 101; proc_off := 4; proc_len := 4;
                              proc_op := FS_DECODE |} ]} ex_call.

(** The same, for an operation that nobody registered. *)
Definition ex_call_unknown : state :=
  set_func_map (Some ∅) ex_call_fresh.

End Handler.

(** ** The wireup responder and the serving loop ([replies.c]) *)

Module Replies.

(** [ucs_status_t]: the two values the file tests for, and the rest. *)
Inductive ucs_status : Type :=
| UCS_OK
| UCS_ERR_MESSAGE_TRUNCATED
| UCS_OTHER (code : Z).

Global Instance ucs_status_eq_dec : EqDecision ucs_status.
Proof. solve_decision. Defined.

(** The operation byte of a wireup message. *)
Inductive wireup_op : Type :=
| OP_REQ
| OP_ACK
| OP_OTHER (code : Z).

Global Instance wireup_op_eq_dec : EqDecision wireup_op.
Proof. solve_decision. Defined.

(** [wireup_msg_t]: the fields that the bytes of a message spell out. *)
Record wireup_msg : Type := {
  sender_id : Z;
  op : wireup_op;
  addrlen : Z;
  addr : list Z
}.

(** [rxdesc_t]: one receive slot. *)
Record rxdesc : Type := {
  status : ucs_status;
  rxlen : Z;
  sender_tag : Z;
  buf : ptr;
  buflen : Z;
  completed : bool        (* the posted receive has completed *)
}.

(** [rxpool_t]. *)
Record rxpool : Type := {
  worker : ptr;
  pool_tag : Z;
  pool_tag_mask : Z;
  descs : list rxdesc
}.

(** A block that [malloc] returned, with the message the transport wrote
    into it, if any. *)
Record block : Type := {
  blk_size : Z;
  blk_msg : option wireup_msg
}.

(** What a non-blocking UCX call hands back: [UCS_OK], an error status
    ([UCS_PTR_IS_ERR]) or a request that is still pending
    ([UCS_PTR_IS_PTR]). *)
Inductive request : Type :=
| ReqOk
| ReqErr (st : ucs_status)
| ReqPtr (r : ptr).

Inductive ep_result : Type :=
| EpOk (ep : ptr)
| EpErr (st : ucs_status).

(** One receive that a call of [ucp_worker_progress] completes. *)
Record rx_completion : Type := {
  rx_slot : nat;
  rx_status : ucs_status;
  rx_len : Z;
  rx_tag : Z;
  rx_msg : wireup_msg
}.

(** What one call of [ucp_worker_progress] brings about. *)
Record progress_step : Type := {
  rx_done : list rx_completion;
  tx_done : option ucs_status;   (* the pending send's callback fires *)
  close_done : bool              (* the pending close completes *)
}.

(** The transport, as the answers it will give. *)
Record ucx_env : Type := {
  ep_results : list ep_result;        (* [ucp_ep_create] *)
  send_results : list request;        (* [ucp_tag_send_nbx] *)
  close_results : list request;       (* [ucp_ep_close_nb] *)
  progress_script : list progress_step
}.

Inductive arg : Type :=
| AInt (z : Z)
| APtr (p : ptr)
| AStatus (st : ucs_status)
| AOp (o : wireup_op).

Inductive event : Type :=
| EvWarnx (fmt : string) (args : list arg)
| EvPrintf (fmt : string) (args : list arg)
| EvMalloc (size : Z) (p : ptr)
| EvFree (p : ptr)
| EvEpCreate (address : ptr) (r : ep_result)
| EvTagSend (ep : ptr) (msg : wireup_msg) (len : Z) (tg : Z) (r : request)
| EvEpClose (ep : ptr) (r : request)
| EvTagRecv (w buf : ptr) (len : Z) (tg mask : Z)
| EvCancel (slot : nat)
| EvProgress (w : ptr).

Record state : Type := {
  pool : rxpool;
  heap : gmap Z block;
  malloc_oracle : list bool;
  ucx : ucx_env;
  trace : list event
}.

Definition set_pool (p : rxpool) (s : state) : state :=
  {| pool := p; heap := heap s; malloc_oracle := malloc_oracle s;
     ucx := ucx s; trace := trace s |}.
Definition set_heap (h : gmap Z block) (s : state) : state :=
  {| pool := pool s; heap := h; malloc_oracle := malloc_oracle s;
     ucx := ucx s; trace := trace s |}.
Definition set_malloc_oracle (o : list bool) (s : state) : state :=
  {| pool := pool s; heap := heap s; malloc_oracle := o;
     ucx := ucx s; trace := trace s |}.
Definition set_ucx (u : ucx_env) (s : state) : state :=
  {| pool := pool s; heap := heap s; malloc_oracle := malloc_oracle s;
     ucx := u; trace := trace s |}.
Definition set_trace (t : list event) (s : state) : state :=
  {| pool := pool s; heap := heap s; malloc_oracle := malloc_oracle s;
     ucx := ucx s; trace := t |}.

Definition set_descs (d : list rxdesc) (p : rxpool) : rxpool :=
  {| worker := worker p; pool_tag := pool_tag p;
     pool_tag_mask := pool_tag_mask p; descs := d |}.

Local Open Scope c_scope.

(** *** Primitives *)

Definition emit (e : event) : M state unit :=
  modify (λ s, set_trace (trace s ++ [e]) s).

Definition warnx (fmt : string) (args : list arg) : M state unit :=
  emit (EvWarnx fmt args).
Definition printf (fmt : string) (args : list arg) : M state unit :=
  emit (EvPrintf fmt args).

(** [err(EXIT_FAILURE, ...)]: the message, then the process exits. *)
Definition err {A} (fmt : string) : M state A := λ s,
  Exit (set_trace (trace s ++ [EvWarnx fmt []]) s).

Definition malloc (size : Z) : M state ptr := λ s,
  let ok := match malloc_oracle s with b :: _ => b | [] => true end in
  let s1 := set_malloc_oracle (tail (malloc_oracle s)) s in
  if ok then
    let p := fresh_ptr (dom (heap s)) in
    Ret p (set_trace (trace s ++ [EvMalloc size p])
             (set_heap (<[p := {| blk_size := size; blk_msg := None |}]> (heap s))
                s1))
  else Ret NULL (set_trace (trace s ++ [EvMalloc size NULL]) s1).

Definition free (p : ptr) : M state unit := λ s,
  if decide (p = NULL) then Ret tt s
  else match heap s !! p with
       | Some _ => Ret tt (set_trace (trace s ++ [EvFree p])
                             (set_heap (delete p (heap s)) s))
       | None => Undef
       end.

(** Reading the header fields of the message in a buffer. *)
Definition load_msg (p : ptr) : M state wireup_msg := λ s,
  match heap s !! p with
  | Some {| blk_msg := Some m |} => Ret m s
  | _ => Undef
  end.

(** Reading and writing a slot of the pool. *)
Definition load_desc (i : nat) : M state rxdesc := λ s,
  match descs (pool s) !! i with
  | Some d => Ret d s
  | None => Undef
  end.

Definition store_desc (i : nat) (d : rxdesc) : M state unit :=
  modify (λ s, set_pool (set_descs (<[i := d]> (descs (pool s))) (pool s)) s).

(** *** The transport *)

Definition pop {A} (dflt : A) (l : list A) : A * list A :=
  match l with
  | [] => (dflt, [])
  | x :: r => (x, r)
  end.

Definition set_ep_results (l : list ep_result) (u : ucx_env) : ucx_env :=
  {| ep_results := l; send_results := send_results u;
     close_results := close_results u; progress_script := progress_script u |}.
Definition set_send_results (l : list request) (u : ucx_env) : ucx_env :=
  {| ep_results := ep_results u; send_results := l;
     close_results := close_results u; progress_script := progress_script u |}.
Definition set_close_results (l : list request) (u : ucx_env) : ucx_env :=
  {| ep_results := ep_results u; send_results := send_results u;
     close_results := l; progress_script := progress_script u |}.
Definition set_progress_script (l : list progress_step) (u : ucx_env) : ucx_env :=
  {| ep_results := ep_results u; send_results := send_results u;
     close_results := close_results u; progress_script := l |}.

(** [ucp_ep_create] on the address stored in the message at [address]. *)
Definition ucp_ep_create (address : ptr) : M state ep_result := λ s,
  let '(r, rest) := pop (EpOk 1) (ep_results (ucx s)) in
  Ret r (set_trace (trace s ++ [EvEpCreate address r])
           (set_ucx (set_ep_results rest (ucx s)) s)).

(** [ucp_tag_send_nbx]. *)
Definition ucp_tag_send_nbx (ep : ptr) (msg : wireup_msg) (len tg : Z)
  : M state request := λ s,
  let '(r, rest) := pop ReqOk (send_results (ucx s)) in
  Ret r (set_trace (trace s ++ [EvTagSend ep msg len tg r])
           (set_ucx (set_send_results rest (ucx s)) s)).

(** [ucp_ep_close_nb] in flush mode. *)
Definition ucp_ep_close_nb (ep : ptr) : M state request := λ s,
  let '(r, rest) := pop ReqOk (close_results (ucx s)) in
  Ret r (set_trace (trace s ++ [EvEpClose ep r])
           (set_ucx (set_close_results rest (ucx s)) s)).

(** A receive that completes: the slot, if it is posted, gets the status,
    the delivered length and the sender's tag, and its buffer the message. *)
Definition complete_rx (s : state) (c : rx_completion) : state :=
  match descs (pool s) !! rx_slot c with
  | Some d =>
    if completed d then s
    else
      let d' := {| status := rx_status c; rxlen := rx_len c;
                   sender_tag := rx_tag c; buf := buf d; buflen := buflen d;
                   completed := true |} in
      set_heap (alter (λ b, {| blk_size := blk_size b;
                               blk_msg := Some (rx_msg c) |}) (buf d) (heap s))
        (set_pool (set_descs (<[rx_slot c := d']> (descs (pool s))) (pool s)) s)
  | None => s
  end.

Definition idle_step : progress_step :=
  {| rx_done := []; tx_done := None; close_done := false |}.

(** [ucp_worker_progress]: one step of the transport. *)
Definition ucp_worker_progress : M state progress_step := λ s,
  let '(step, rest) := pop idle_step (progress_script (ucx s)) in
  let s1 := set_ucx (set_progress_script rest (ucx s)) s in
  let s2 := foldl complete_rx s1 (rx_done step) in
  Ret step (set_trace (trace s2 ++ [EvProgress (worker (pool s))]) s2).

(** [while (!desc.completed) ucp_worker_progress(worker);] -- the send
    callback stores the status and sets the flag.  A transport that never
    completes the send keeps the loop running forever. *)
Fixpoint send_wait (script : list progress_step) : M state ucs_status :=
  match script with
  | [] => λ s, Hang s
  | _ :: rest =>
    step <- ucp_worker_progress;
    match tx_done step with
    | Some st => ret st
    | None => send_wait rest
    end
  end.

(** [while (!ucp_request_is_completed(request)) ucp_worker_progress(worker);] *)
Fixpoint close_wait (script : list progress_step) : M state unit :=
  match script with
  | [] => λ s, Hang s
  | _ :: rest =>
    step <- ucp_worker_progress;
    if close_done step then ret tt else close_wait rest
  end.

(** *** The pool *)

(** A slot that is posted on the buffer [b] of [len] bytes. *)
Definition posted (b : ptr) (len : Z) (d : rxdesc) : rxdesc :=
  {| status := status d; rxlen := rxlen d; sender_tag := sender_tag d;
     buf := b; buflen := len; completed := false |}.

(** Modelled from the spec: [rxdesc_setup] of [rxpool.h], whose code is not
    part of the sources.  Spec, Adaptive Receive Pool: it re-arms a slot
    with a (possibly new) buffer and re-posts the receive; all slots share
    the pool's exact-match tag. *)
Definition rxdesc_setup (b : ptr) (len : Z) (i : nat) : M state unit :=
  d <- load_desc i;
  store_desc i (posted b len d);;
  p <- gets pool;
  emit (EvTagRecv (worker p) b len (pool_tag p) (pool_tag_mask p)).

(** Modelled from the spec: [rxpool_next] of [rxpool.h].  Spec: a
    non-blocking poll that returns the first slot whose posted receive has
    completed, or none; it never drives the transport. *)
Definition rxpool_next : M state (option nat) :=
  ds <- gets (λ s, descs (pool s));
  ret (fst <$> list_find (λ d, completed d = true) ds).

(** Modelled from the spec: [twice_or_max] of [util.h].  Spec: doubling,
    saturating at the platform's maximum size rather than overflowing. *)
Definition twice_or_max (x : Z) : Z :=
  if decide (x ≤ SIZE_MAX / 2) then 2 * x else SIZE_MAX.

Definition blank_desc : rxdesc :=
  {| status := UCS_OK; rxlen := 0; sender_tag := 0; buf := NULL; buflen := 0;
     completed := false |}.

(** Modelled from the spec: [rxpool_init] of [rxpool.h].  Spec: it
    allocates [nelts] buffers of [len] bytes and posts each as an
    exact-match tagged receive; an allocation failure ends the process. *)
Fixpoint rxpool_post (nelts : nat) (len : Z) : M state unit :=
  match nelts with
  | O => ret tt
  | S k =>
    b <- malloc len;
    if decide (b = NULL) then err "rxpool_init: malloc"
    else
      i <- gets (λ s, length (descs (pool s)));
      modify (λ s, set_pool (set_descs (descs (pool s) ++ [blank_desc]) (pool s)) s);;
      rxdesc_setup b len i;;
      rxpool_post k len
  end.

Definition rxpool_init (w : ptr) (tg mask len : Z) (nelts : nat) : M state unit :=
  modify (set_pool {| worker := w; pool_tag := tg; pool_tag_mask := mask;
                      descs := [] |});;
  rxpool_post nelts len.

(** Modelled from the spec: [rxpool_destroy] of [rxpool.h].  Spec: it
    cancels all outstanding posted receives and frees all slot buffers. *)
Fixpoint rxpool_release (i : nat) (ds : list rxdesc) : M state unit :=
  match ds with
  | [] => ret tt
  | d :: r =>
    (if completed d then ret tt else emit (EvCancel i));;
    free (buf d);;
    rxpool_release (S i) r
  end.

Definition rxpool_destroy : M state unit :=
  ds <- gets (λ s, descs (pool s));
  rxpool_release 0 ds;;
  modify (λ s, set_pool (set_descs [] (pool s)) s).

Definition START_WIREUP_TAG : Z := 17.
Definition UINT64_MAX : Z := 2 ^ 64 - 1.

Section Functions.

(** [offsetof(wireup_msg_t, addr[0])] and [sizeof(wireup_msg_t)]: the type
    is declared in [wireup.h], which is not part of the sources. *)
Variable hdrlen : Z.
Variable sizeof_wireup_msg : Z.

(** [ep_close] *)
Definition ep_close (ep : ptr) : M state unit :=
  request <- ucp_ep_close_nb ep;
  match request with
  | ReqOk => ret tt
  | ReqErr st => warnx "ep_close: ucp_ep_close_nb: %s" [AStatus st]
  | ReqPtr _ => script <- gets (λ s, progress_script (ucx s)); close_wait script
  end.

(** [process_rx_msg] *)
Definition process_rx_msg (tg : Z) (b : ptr) (len : Z) : M state unit :=
  let reply := {| sender_id := 0; op := OP_ACK; addrlen := 0; addr := [] |} in
  if decide (len < hdrlen) then
    warnx "process_rx_msg: dropping %zu-byte message, shorter than header"
      [AInt len]
  else
    msg <- load_msg b;
    if decide (op msg ≠ OP_REQ) then
      warnx "process_rx_msg: received unexpected %s-type op" [AOp (op msg)]
    else
      (if decide (len < wrap_size (hdrlen + addrlen msg)) then
         warnx "process_rx_msg: dropping %zu-byte message, address truncated"
           [AInt len]
       else ret tt);;
      r <- ucp_ep_create b;
      reply_ep <- match r with
                  | EpOk ep => ret ep
                  | EpErr _ =>
                    (* [reply_ep] stays uninitialised and is used below *)
                    warnx "process_rx_msg: ucp_ep_create failed" [];; undef
                  end;
      request <- ucp_tag_send_nbx reply_ep reply sizeof_wireup_msg tg;
      match request with
      | ReqErr st =>
        warnx "process_rx_msg: ucp_tag_send_nbx: %s" [AStatus st]
      | ReqPtr _ =>
        script <- gets (λ s, progress_script (ucx s));
        st <- send_wait script;
        (if decide (st ≠ UCS_OK) then
           printf "send error, %s, exiting." [AStatus st]
         else ret tt);;
        printf "send succeeded, exiting." []
      | ReqOk => printf "send succeeded immediately, exiting." []
      end;;
      ep_close reply_ep.

(** The local [nbuflen] of [run_server_once]: twice the message length is
    twice the header length plus twice the payload length, so one header
    length is subtracted. *)
Definition nbuflen (buflen : Z) : Z :=
  wrap_size (twice_or_max buflen - hdrlen).

(** [run_server_once] *)
Definition run_server_once : M state bool :=
  next <- rxpool_next;
  match next with
  | None => ret true
  | Some i =>
    rdesc <- load_desc i;
    rearm <-
      match status rdesc with
      | UCS_OK =>
        printf "received %zu-byte message tagged %lu, processing..."
          [AInt (rxlen rdesc); AInt (sender_tag rdesc)];;
        process_rx_msg (sender_tag rdesc) (buf rdesc) (rxlen rdesc);;
        ret true
      | UCS_ERR_MESSAGE_TRUNCATED =>
        printf "run_server_once: truncated desc %p buf %p buflen %zu"
          [AInt (Z.of_nat i); APtr (buf rdesc); AInt (buflen rdesc)];;
        let nbuflen := nbuflen (buflen rdesc) in
        printf "increasing buffer length %zu -> %zu bytes."
          [AInt (buflen rdesc); AInt nbuflen];;
        nbuf <- malloc nbuflen;
        if decide (nbuf = NULL) then err "run_server_once: malloc"
        else
          store_desc i {| status := status rdesc; rxlen := rxlen rdesc;
                          sender_tag := sender_tag rdesc; buf := nbuf;
                          buflen := nbuflen; completed := completed rdesc |};;
          free (buf rdesc);;
          ret true
      | UCS_OTHER _ =>
        printf "receive error, %s, exiting." [AStatus (status rdesc)];;
        ret false
      end;
    if rearm : bool then
      rdesc <- load_desc i;
      rxdesc_setup (buf rdesc) (buflen rdesc) i;;
      ret true
    else ret false
  end.

(** The loop of [run_server]:
    [while (run_server_once(&rxpool)) ucp_worker_progress(worker);]
    with [None] when the fuel runs out before the loop ends. *)
Fixpoint serve (fuel : nat) (s : state) : option (outcome state unit) :=
  match fuel with
  | O => None
  | S k =>
    match run_server_once s with
    | Ret true s1 =>
      match ucp_worker_progress s1 with
      | Ret _ s2 => serve k s2
      | Undef => Some Undef
      | Exit s2 => Some (Exit s2)
      | Hang s2 => Some (Hang s2)
      end
    | Ret false s1 => Some (Ret tt s1)
    | Undef => Some Undef
    | Exit s1 => Some (Exit s1)
    | Hang s1 => Some (Hang s1)
    end
  end.

(** [run_server] *)
Definition run_server (fuel : nat) (w : ptr) (request_size : Z) (s : state)
  : option (outcome state unit) :=
  match rxpool_init w START_WIREUP_TAG UINT64_MAX (sizeof_wireup_msg + 93) 3 s
  with
  | Ret _ s1 =>
    match serve fuel s1 with
    | Some (Ret _ s2) => Some (rxpool_destroy s2)
    | r => r
    end
  | Undef => Some Undef
  | Exit s1 => Some (Exit s1)
  | Hang s1 => Some (Hang s1)
  end.

End Functions.

(** The capacity rule as the spec words it: the regrown capacity is at
    least twice the previous one, or the maximum size. *)
Definition spec_regrow (old new : Z) : Prop :=
  2 * old ≤ new ∨ new = SIZE_MAX.

(** A computation that, when it returns, has kept the number of slots. *)
Definition keeps_slots {A} (m : M state A) : Prop :=
  ∀ s a s', m s = Ret a s' →
            length (descs (pool s')) = length (descs (pool s)).

(** The replies recorded on a trace. *)
Definition is_reply (e : event) : bool :=
  match e with EvTagSend _ _ _ _ _ => true | _ => false end.

Definition replies (t : list event) : list event := List.filter is_reply t.

(** *** A concrete server, used to run the code on explicit inputs *)

(** An LP64 layout of [wireup_msg_t]: 24 bytes before [addr]. *)
Definition ex_hdrlen : Z := 24.
Definition ex_sizeof_wireup_msg : Z := 24.

Definition after {A} (m : M state A) (s : state) : state :=
  match m s with
  | Ret _ s' | Exit s' | Hang s' => s'
  | Undef => s
  end.

Definition ex_req (n : Z) : wireup_msg :=
  {| sender_id := 0; op := OP_REQ; addrlen := n; addr := [] |}.

(** The transport's answers: slot 1 is truncated; then slot 0 gets a request
    of exactly one header that announces an address of 8 bytes; later slot
    2 fails. *)
Definition ex_ucx : ucx_env :=
  {| ep_results := []; send_results := []; close_results := [];
     progress_script :=
       [ {| rx_done := [ {| rx_slot := 1; rx_status := UCS_ERR_MESSAGE_TRUNCATED;
                            rx_len := 117; rx_tag := 17; rx_msg := ex_req 200 |} ];
            tx_done := None; close_done := false |};
         {| rx_done := [ {| rx_slot := 0; rx_status := UCS_OK;
                            rx_len := 24; rx_tag := 17; rx_msg := ex_req 8 |} ];
            tx_done := None; close_done := false |};
         {| rx_done := [ {| rx_slot := 2; rx_status := UCS_OTHER (-1);
                            rx_len := 0; rx_tag := 17; rx_msg := ex_req 0 |} ];
            tx_done := None; close_done := false |} ] |}.

Definition ex_start : state :=
  {| pool := {| worker := 50; pool_tag := 0; pool_tag_mask := 0; descs := [] |};
     heap := ∅; malloc_oracle := []; ucx := ex_ucx; trace := [] |}.

Definition ex_run_server_once : M state bool :=
  run_server_once ex_hdrlen ex_sizeof_wireup_msg.

Definition ex_process_rx_msg : Z → ptr → Z → M state unit :=
  process_rx_msg ex_hdrlen ex_sizeof_wireup_msg.

Definition ex_serve : nat → state → option (outcome state unit) :=
  serve ex_hdrlen ex_sizeof_wireup_msg.

(** The acknowledgement that [process_rx_msg] sends. *)
Definition ex_ack : wireup_msg :=
  {| sender_id := 0; op := OP_ACK; addrlen := 0; addr := [] |}.

(** The pool of [run_server]: three slots of [sizeof(wireup_msg_t) + 93]
    bytes at 1, 2 and 3. *)
Definition ex_pool : state :=
  after (rxpool_init 50 START_WIREUP_TAG UINT64_MAX (ex_sizeof_wireup_msg + 93) 3)
    ex_start.

(** Slot 1 has completed with a truncated message. *)
Definition ex_truncated : state := after ucp_worker_progress ex_pool.

(** Slot 1 is regrown and posted again; slot 0 has completed with the
    request whose address is cut off. *)
Definition ex_short_addr : state :=
  after ucp_worker_progress (after ex_run_server_once ex_truncated).

(** A server whose only slot, on the buffer at 1, has received a request of
    24 bytes -- exactly one header -- that announces an address of 8 bytes;
    the transport answers every call at once. *)
Definition ex_request : state :=
  {| pool := {| worker := 50; pool_tag := START_WIREUP_TAG;
                pool_tag_mask := UINT64_MAX;
                descs := [ {| status := UCS_OK; rxlen := 24; sender_tag := 17;
                              buf := 1; buflen := 117; completed := true |} ] |};
     heap := {[ 1 := {| blk_size := 117; blk_msg := Some (ex_req 8) |} ]};
     malloc_oracle := [];
     ucx := {| ep_results := []; send_results := []; close_results := [];
               progress_script := [] |};
     trace := [] |}.

(** Slot 0 is answered and posted again; slot 2 has failed. *)
Definition ex_fatal : state :=
  after ucp_worker_progress (after ex_run_server_once ex_short_addr).

End Replies.

(** ** Using the handler: an executor of the expected shape *)

Module HandlerUse.
Import Handler.

Local Open Scope c_scope.

Section Use.

Variable na_get_unexpected_size : ptr → Z.
Variable iofsl_compat_get_size_status : Z.

(** An executor as [fs_handler_receive] expects one: it takes the input of
    the call into [in_struct] and completes the call with [out_struct]; the
    two results are ignored, as the result of the executor itself is. *)
Definition take_and_complete (in_struct out_struct routine handle : ptr)
  : M state unit :=
  fs_handler_get_input handle in_struct;;
  fs_handler_complete na_get_unexpected_size iofsl_compat_get_size_status
    handle out_struct;;
  ret tt.

End Use.

(** The handle that [fs_handler_receive] has built when it looks the
    operation up. *)
Definition received_handle (op_id : Z) (m : na_message) (b q : ptr)
  : fs_priv_handle :=
  {| id := op_id; addr := msg_src m; tag := msg_tag m; dec_proc := q;
     recv_buf := b; in_struct := NULL |}.

(** What is delivered of a message: what fits the receive buffer. *)
Definition delivered (limit : Z) (m : na_message) : list Z :=
  take (Z.to_nat limit) (msg_data m).

(** The operation id in a delivered message: the four bytes behind the
    legacy id.  A message that was delivered with fewer than four bytes
    behind the legacy id carries none. *)
Definition message_op_id (decode_uint32 : list Z → Z) (limit size_id : Z)
    (m : na_message) : option Z :=
  let bs := drop (Z.to_nat size_id) (delivered limit m) in
  if decide (4 ≤ length bs)%nat then Some (decode_uint32 (take 4 bs))
  else None.

(** The server of the examples, out of memory. *)
Definition ex_no_memory : state := set_malloc_oracle [false] ex_foo.

Definition ex_receive_and_complete : M state ret_code :=
  fs_handler_receive ex_unexpected_size ex_size_id ex_decode_uint32 48
    (take_and_complete ex_unexpected_size ex_size_status 500 600).

End HandlerUse.

(** ** Observing the responder: what goes over the wire, what the pool holds *)

Module RepliesUse.
Import Replies.

(** The calls that create an endpoint, send to it and close it. *)
Definition is_wire (e : event) : bool :=
  match e with
  | EvEpCreate _ _ | EvTagSend _ _ _ _ _ | EvEpClose _ _ => true
  | _ => false
  end.

Definition wire (t : list event) : list event := List.filter is_wire t.

(** A computation that, when it returns, has made none of these calls. *)
Definition quiet {A} (m : M state A) : Prop :=
  ∀ s a s', m s = Ret a s' → wire (trace s') = wire (trace s).

(** The buffer and the capacity of every slot. *)
Definition bufs (s : state) : list (ptr * Z) :=
  (λ d, (buf d, buflen d)) <$> descs (pool s).

(** A computation that, when it returns, has left every slot on its buffer
    and has neither allocated nor freed. *)
Definition steady {A} (m : M state A) : Prop :=
  ∀ s a s', m s = Ret a s' →
            bufs s' = bufs s ∧ dom (heap s') = dom (heap s).

(** Every capacity is at least one header and at most the maximum size. *)
Definition caps_in_range (hdrlen : Z) (s : state) : Prop :=
  Forall (λ c, hdrlen ≤ c.2 ≤ SIZE_MAX) (bufs s).

(** A computation that never ends the process. *)
Definition never_exits {A} (m : M state A) : Prop := ∀ s s', m s ≠ Exit s'.

(** The script never completes the pending send, resp. the pending close. *)
Definition never_sent (script : list progress_step) : Prop :=
  Forall (λ st, tx_done st = None) script.

Definition never_closed (script : list progress_step) : Prop :=
  Forall (λ st, close_done st = false) script.

(** *** Transports that fail, stall or answer late *)

(** The request of [ex_request], with a transport that refuses to create
    the endpoint. *)
Definition ex_no_endpoint : state :=
  set_ucx {| ep_results := [EpErr (UCS_OTHER (-6))]; send_results := [];
             close_results := []; progress_script := [] |} ex_request.

(** The same request, with a transport that leaves the send pending and
    never completes it. *)
Definition ex_stalled_send : state :=
  set_ucx {| ep_results := [EpOk 7]; send_results := [ReqPtr 9];
             close_results := [];
             progress_script := [idle_step; idle_step] |} ex_request.

(** The same request, with a transport that completes the send in the
    second step and the close in the third. *)
Definition ex_late : state :=
  set_ucx {| ep_results := [EpOk 7]; send_results := [ReqPtr 9];
             close_results := [ReqPtr 10];
             progress_script :=
               [ idle_step;
                 {| rx_done := []; tx_done := Some UCS_OK; close_done := false |};
                 {| rx_done := []; tx_done := None; close_done := true |} ] |}
    ex_request.

(** A transport that leaves the close pending: one that completes it in
    the second step, and one that never does. *)
Definition ex_closing : state :=
  set_ucx {| ep_results := []; send_results := []; close_results := [ReqPtr 10];
             progress_script :=
               [ idle_step;
                 {| rx_done := []; tx_done := None; close_done := true |} ] |}
    ex_pool.

Definition ex_never_closing : state :=
  set_ucx {| ep_results := []; send_results := []; close_results := [ReqPtr 10];
             progress_script := [idle_step] |} ex_pool.

(** The pool of [run_server] with the truncated message in slot 1, out of
    memory. *)
Definition ex_truncated_no_memory : state :=
  set_malloc_oracle [false] ex_truncated.

(** The rule for Ok and Truncated slots as the spec words it: whenever the
    slot that [next()] returns has one of these statuses, the round re-arms
    that slot and the loop continues serving. *)
Definition spec_rearms_and_continues (hdrlen sizeof_wireup_msg : Z)
    (s : state) : Prop :=
  ∀ i d,
    list_find (λ d, completed d = true) (descs (pool s)) = Some (i, d) →
    status d = UCS_OK ∨ status d = UCS_ERR_MESSAGE_TRUNCATED →
    ∃ s1 d1, run_server_once hdrlen sizeof_wireup_msg s = Ret true s1 ∧
             descs (pool s1) !! i = Some d1 ∧ completed d1 = false.

(** The pool of [run_server] after the serving loop has ended. *)
Definition ex_served : state :=
  match ex_serve 5 ex_pool with
  | Some (Ret _ s) => s
  | _ => ex_pool
  end.

(** The pool of [run_server] with a transport that stays silent. *)
Definition ex_idle : state :=
  set_ucx {| ep_results := []; send_results := []; close_results := [];
             progress_script := [] |} ex_pool.

End RepliesUse.

(** ** The client of [replies.c] *)

Module Client.
Import Replies.

Local Open Scope c_scope.

(** [assert(e)], compiled without [NDEBUG]: a false [e] is reported and the
    process is aborted. *)
Definition c_assert (b : bool) (e : string) : M state unit :=
  if b then ret tt else err ("Assertion failed: " ++ e).

(** Writing the fields of a message into the block at [p]; [need] is the
    number of bytes that the header and the address take. *)
Definition store_msg (p : ptr) (need : Z) (m : wireup_msg) : M state unit := λ s,
  match heap s !! p with
  | Some b =>
    if decide (need ≤ blk_size b) then
      Ret tt (set_heap (<[p := {| blk_size := blk_size b; blk_msg := Some m |}]>
                          (heap s)) s)
    else Undef
  | None => Undef
  end.

(** [while ((rdesc = rxpool_next(&rxpool)) == NULL) ucp_worker_progress(worker);]
    A transport that never completes a receive keeps the loop running
    forever. *)
Fixpoint reply_wait (script : list progress_step) : M state nat :=
  next <- rxpool_next;
  match next with
  | Some i => ret i
  | None =>
    match script with
    | [] => λ s, Hang s
    | _ :: rest => ucp_worker_progress;; reply_wait rest
    end
  end.

Section Functions.

(** [offsetof(wireup_msg_t, addr[0])] and [sizeof(wireup_msg_t)], as for
    the server. *)
Variable hdrlen : Z.
Variable sizeof_wireup_msg : Z.

(** [run_client]; the local address is the list of its bytes, the remote
    one the pointer that [ucp_ep_create] is given. *)
Definition run_client (w : ptr) (request_size : Z) (local_addr : list Z)
    (remote_addr : ptr) : M state unit :=
  let local_addr_len := Z.of_nat (length local_addr) in
  let reqlen := wrap_size (sizeof_wireup_msg + local_addr_len) in
  req <- malloc reqlen;                      (* [calloc(1, reqlen)] *)
  if decide (req = NULL) then err "run_client: malloc"
  else
    r <- ucp_ep_create remote_addr;
    match r with
    | EpErr _ => err "client run_client: ucp_ep_create"
    | EpOk remote_ep =>
      rxpool_init w START_WIREUP_TAG UINT64_MAX sizeof_wireup_msg 3;;
      let msg := {| sender_id := 0; op := OP_REQ; addrlen := local_addr_len;
                    addr := local_addr |} in
      store_msg req (hdrlen + local_addr_len) msg;;
      request <- ucp_tag_send_nbx remote_ep msg reqlen START_WIREUP_TAG;
      match request with
      | ReqErr st =>
        warnx "run_client: ucp_tag_send_nbx: %s" [AStatus st]
      | ReqPtr _ =>
        script <- gets (λ s, progress_script (ucx s));
        st <- send_wait script;
        (if decide (st ≠ UCS_OK) then
           printf "send error, %s, exiting." [AStatus st]
         else ret tt);;
        printf "send succeeded, exiting." []
      | ReqOk => printf "send succeeded immediately, exiting." []
      end;;
      free req;;
      script <- gets (λ s, progress_script (ucx s));
      i <- reply_wait script;
      rdesc <- load_desc i;
      reply <- load_msg (buf rdesc);
      c_assert (bool_decide (op reply = OP_ACK)) "reply->op == OP_ACK";;
      rxpool_destroy;;
      ep_close remote_ep
    end.

End Functions.

(** The calls that reach the transport: endpoints, sends, posted receives
    and their cancellation. *)
Definition is_net (e : event) : bool :=
  match e with
  | EvEpCreate _ _ | EvTagSend _ _ _ _ _ | EvEpClose _ _
  | EvTagRecv _ _ _ _ _ | EvCancel _ => true
  | _ => false
  end.

Definition net (t : list event) : list event := List.filter is_net t.

Definition is_cancel (e : event) : bool :=
  match e with EvCancel _ => true | _ => false end.

(** A computation that, when it returns, has made none of these calls, has
    left every slot on its buffer and has neither allocated nor freed. *)
Definition inert {A} (m : M state A) : Prop :=
  ∀ s a s', m s = Ret a s' →
            net (trace s') = net (trace s) ∧
            RepliesUse.bufs s' = RepliesUse.bufs s ∧
            dom (heap s') = dom (heap s).

(** The request that a client with the address [local_addr] sends. *)
Definition request_of (local_addr : list Z) : wireup_msg :=
  {| sender_id := 0; op := OP_REQ; addrlen := Z.of_nat (length local_addr);
     addr := local_addr |}.

(** *** A concrete client *)

(** A client whose transport delivers, in its second step, an
    acknowledgement into slot 1. *)
Definition ex_client_ucx (st : ucs_status) (m : wireup_msg) : ucx_env :=
  {| ep_results := [EpOk 7]; send_results := [ReqPtr 9];
     close_results := [];
     progress_script :=
       [ {| rx_done := []; tx_done := Some UCS_OK; close_done := false |};
         {| rx_done := [ {| rx_slot := 1; rx_status := st; rx_len := 24;
                            rx_tag := 17; rx_msg := m |} ];
            tx_done := None; close_done := false |} ] |}.

Definition ex_client (st : ucs_status) (m : wireup_msg) : state :=
  {| pool := {| worker := 0; pool_tag := 0; pool_tag_mask := 0; descs := [] |};
     heap := {[ 40 := {| blk_size := 4; blk_msg := None |} ]};
     malloc_oracle := []; ucx := ex_client_ucx st m; trace := [] |}.

Definition ex_run_client : M state unit :=
  run_client ex_hdrlen ex_sizeof_wireup_msg 50 64 [192; 168; 0; 1] 40.

(** The client that is acknowledged, and one whose transport refuses the
    endpoint. *)
Definition ex_answered : state := ex_client UCS_OK ex_ack.

Definition ex_refused : state :=
  set_ucx {| ep_results := [EpErr (UCS_OTHER (-6))]; send_results := [];
             close_results := []; progress_script := [] |} ex_answered.

End Client.

(** ** [main] of [replies.c] *)

Module Main.
Import Replies Client.

Local Open Scope c_scope.

Definition EXIT_SUCCESS : Z := 0.
Definition EXIT_FAILURE : Z := 1.

Inductive marg : Type :=
| MInt (z : Z)
| MStr (str : string).

(** What [main] itself calls and writes, in order. *)
Inductive call : Type :=
| CUsage                                  (* [usage]: the usage line *)
| CErrx (fmt : string) (args : list marg)
| CWarnx (fmt : string)
| CPrintf (fmt : string) (args : list marg)
| CConfigRead (st : ucs_status)
| CInit (st : ucs_status)
| CConfigRelease
| CContextQuery (st : ucs_status)
| CWorkerCreate (st : ucs_status)
| CWorkerGetAddress (st : ucs_status)
| CWorkerReleaseAddress
| CWorkerDestroy
| CCleanup.

(** What the command line parser and the transport library answer.
    [colon_separated_octets_to_bytes] is declared in [util.h], which is not
    part of the sources: only its outcome is used here, the length of the
    parsed address or a failure. *)
Record environment : Type := {
  parsed : option Z;
  config_read : ucs_status;
  init : ucs_status;
  context_query : ucs_status;
  has_request_size : bool;    (* [field_mask & UCP_ATTR_FIELD_REQUEST_SIZE] *)
  request_size : Z;
  worker_create : ucs_status;
  the_worker : ptr;
  get_address : ucs_status;
  local_address : list Z
}.

(** How the process ends: [main] returns, the process exits in [main]
    itself, it ends inside [run_client] or [run_server] ([err], [errx] or a
    failed assertion), it does something undefined, it waits forever, or
    the fuel of the serving loop runs out. *)
Inductive ending : Type :=
| Returned (status : Z)
| Exited (status : Z)
| Ended
| Undefined
| Hung
| Unfinished.

Record result : Type := {
  how : ending;
  calls : list call;
  final : state
}.

(** The loop that prints the local address, octet by octet. *)
Fixpoint print_octets (delim : string) (octets : list Z) : list call :=
  match octets with
  | [] => []
  | o :: rest => CPrintf "%s%02x" [MStr delim; MInt o] :: print_octets ":" rest
  end.

Section Functions.

Variable hdrlen : Z.
Variable sizeof_wireup_msg : Z.

(** [main], with [argv1] for [argv[1]]. *)
Definition main (argc : Z) (argv1 : string) (env : environment) (fuel : nat)
    (s : state) : result :=
  if decide (argc > 2) then
    {| how := Exited EXIT_FAILURE; calls := [CUsage]; final := s |}
  else
    let '(remote, c0, s0) :=
      if decide (argc = 2) then
        match parsed env with
        | None =>
          (None,
           [CErrx "could not parse remote address `%s`" [MStr argv1]], s)
        | Some len =>
          let p := fresh_ptr (dom (heap s)) in
          (Some p, [CPrintf "parsed %zu-byte remote address" [MInt len]],
           set_heap (<[p := {| blk_size := len; blk_msg := None |}]> (heap s)) s)
        end
      else (Some NULL, [], s) in
    match remote with
    | None => {| how := Exited EXIT_FAILURE; calls := c0; final := s0 |}
    | Some remote_addr =>
      let c1 := c0 ++ [CConfigRead (config_read env)] in
      if decide (config_read env ≠ UCS_OK) then
        {| how := Exited EXIT_FAILURE;
           calls := c1 ++ [CErrx "main: ucp_config_read" []]; final := s0 |}
      else
        let c2 := c1 ++ [CInit (init env); CConfigRelease] in
        if decide (init env ≠ UCS_OK) then
          {| how := Exited EXIT_FAILURE;
             calls := c2 ++ [CErrx "main: ucp_init" []]; final := s0 |}
        else
          let c3 := c2 ++ [CContextQuery (context_query env)] in
          if decide (context_query env ≠ UCS_OK) then
            {| how := Exited EXIT_FAILURE;
               calls := c3 ++ [CErrx "main: ucp_context_query" []];
               final := s0 |}
          else if negb (has_request_size env) then
            {| how := Exited EXIT_FAILURE;
               calls := c3 ++ [CErrx "context attributes contain no request size" []];
               final := s0 |}
          else
            let c4 := c3 ++ [CWorkerCreate (worker_create env)] in
            if decide (worker_create env ≠ UCS_OK) then
              (* [goto cleanup_context] *)
              {| how := Returned EXIT_SUCCESS;
                 calls := c4 ++ [CWarnx "main: ucp_worker_create"; CCleanup];
                 final := s0 |}
            else
              let c5 := c4 ++ [CWorkerGetAddress (get_address env)] in
              if decide (get_address env ≠ UCS_OK) then
                (* [goto cleanup_worker] *)
                {| how := Returned EXIT_SUCCESS;
                   calls := c5 ++ [CWarnx "main: ucp_worker_get_address";
                                   CWorkerDestroy; CCleanup];
                   final := s0 |}
              else
                let c6 :=
                  c5 ++
                  [CPrintf "%zu-byte local address "
                     [MInt (Z.of_nat (length (local_address env)))]] ++
                  print_octets "" (local_address env) ++
                  [CPrintf (String (Ascii.ascii_of_nat 10) EmptyString) []] in
                let run :=
                  if decide (remote_addr ≠ NULL) then
                    Some ((run_client hdrlen sizeof_wireup_msg (the_worker env)
                             (request_size env) (local_address env) remote_addr;;
                           free remote_addr) s0)
                  else
                    run_server hdrlen sizeof_wireup_msg fuel (the_worker env)
                      (request_size env) s0 in
                match run with
                | Some (Ret _ s1) =>
                  {| how := Returned EXIT_SUCCESS;
                     calls := c6 ++ [CWorkerReleaseAddress; CWorkerDestroy;
                                     CCleanup];
                     final := s1 |}
                | Some Undef => {| how := Undefined; calls := c6; final := s0 |}
                | Some (Exit s1) => {| how := Ended; calls := c6; final := s1 |}
                | Some (Hang s1) => {| how := Hung; calls := c6; final := s1 |}
                | None => {| how := Unfinished; calls := c6; final := s0 |}
                end
    end.

End Functions.

(** The calls that acquire a resource of the transport library with
    success, and the calls that give one back. *)
Definition acquired (c : call) : bool :=
  match c with
  | CInit UCS_OK | CWorkerCreate UCS_OK | CWorkerGetAddress UCS_OK => true
  | _ => false
  end.

Definition released (c : call) : bool :=
  match c with
  | CCleanup | CWorkerDestroy | CWorkerReleaseAddress => true
  | _ => false
  end.

(** The call that gives back what a call acquired. *)
Definition release_of (c : call) : call :=
  match c with
  | CInit _ => CCleanup
  | CWorkerCreate _ => CWorkerDestroy
  | CWorkerGetAddress _ => CWorkerReleaseAddress
  | c => c
  end.

(** *** A concrete command line *)

Definition ex_env (create : ucs_status) : environment :=
  {| parsed := Some 4; config_read := UCS_OK; init := UCS_OK;
     context_query := UCS_OK; has_request_size := true; request_size := 64;
     worker_create := create; the_worker := 50; get_address := UCS_OK;
     local_address := [192; 168; 0; 1] |}.

Definition ex_main (argc : Z) (env : environment) (s : state) : result :=
  main ex_hdrlen ex_sizeof_wireup_msg argc "c0:a8:00:02" env 8 s.

End Main.

(** * Properties *)

Lemma fresh_ptr_spec live : fresh_ptr live ≠ NULL ∧ fresh_ptr live ∉ live.
Proof.
  unfold fresh_ptr.
  match goal with |- context [fresh ?X] => pose proof (is_fresh X) as Hf end.
  set_solver.
Qed.

Lemma fresh_ptr_not_null live : fresh_ptr live ≠ NULL.
Proof. apply fresh_ptr_spec. Qed.

Lemma fresh_ptr_not_live live : fresh_ptr live ∉ live.
Proof. apply fresh_ptr_spec. Qed.

Section Monad.
Context {St : Type}.

Lemma bind_Ret {A B} (m : M St A) (k : A → M St B) s a s1 :
  m s = Ret a s1 → bind m k s = k a s1.
Proof. unfold bind. by intros ->. Qed.

Lemma bind_inv {A B} (m : M St A) (k : A → M St B) s b s2 :
  bind m k s = Ret b s2 → ∃ a s1, m s = Ret a s1 ∧ k a s1 = Ret b s2.
Proof. unfold bind. destruct (m s); try discriminate. eauto. Qed.

Lemma bind_Undef {A B} (m : M St A) (k : A → M St B) s :
  m s = Undef → bind m k s = Undef.
Proof. unfold bind. by intros ->. Qed.

End Monad.

(** Inverting one step of a computation that is known to return. *)
Tactic Notation "inv_bind" hyp(H) "as" ident(a) ident(s) ident(H1) :=
  apply bind_inv in H as (a & s & H1 & H).

(** Running the code on an explicit input: every conjunct by evaluation. *)
Ltac by_evaluation :=
  repeat match goal with |- _ ∧ _ => split end; by vm_compute.

(** ** The handler *)

Module HandlerProofs.
Import Handler.

Local Open Scope c_scope.

(** *** What the primitives do *)

Lemma load_handle_inv h v s s' :
  load_handle h s = Ret v s' → s' = s ∧ h ≠ NULL ∧ heap s !! h = Some (OHandle v).
Proof.
  unfold load_handle. case_decide; [done|].
  destruct (heap s !! h) as [[]|]; naive_solver.
Qed.

Lemma load_handle_Ret h v s :
  h ≠ NULL → heap s !! h = Some (OHandle v) → load_handle h s = Ret v s.
Proof. intros ? Hh. unfold load_handle. rewrite decide_False, Hh; done. Qed.

Lemma load_handle_dead h s : heap s !! h = None → load_handle h s = Undef.
Proof. intros Hh. unfold load_handle. case_decide; [done|]. by rewrite Hh. Qed.

Lemma update_handle_inv h f u s s' :
  update_handle h f s = Ret u s' →
  ∃ v, h ≠ NULL ∧ heap s !! h = Some (OHandle v) ∧
       s' = set_heap (<[h := OHandle (f v)]> (heap s)) s.
Proof.
  unfold update_handle. intros H. inv_bind H as v s0 Hstep.
  apply load_handle_inv in Hstep as (-> & ? & Hh).
  unfold store_handle in H. rewrite decide_False, Hh in H by done.
  naive_solver.
Qed.

Lemma update_handle_Ret h f v s :
  h ≠ NULL → heap s !! h = Some (OHandle v) →
  update_handle h f s = Ret tt (set_heap (<[h := OHandle (f v)]> (heap s)) s).
Proof.
  intros ? Hh. unfold update_handle.
  erewrite bind_Ret by by apply load_handle_Ret.
  unfold store_handle. by rewrite decide_False, Hh.
Qed.

Lemma func_map_lookup_inv k r s s' :
  func_map_lookup k s = Ret r s' →
  s' = s ∧ ∃ fm, handler_func_map s = Some fm ∧ r = fm !! k.
Proof.
  unfold func_map_lookup, func_map, bind, ret.
  destruct (handler_func_map s); naive_solver.
Qed.

Lemma func_map_lookup_Ret k fm s :
  handler_func_map s = Some fm → func_map_lookup k s = Ret (fm !! k) s.
Proof. intros Hfm. unfold func_map_lookup, func_map, bind, ret. by rewrite Hfm. Qed.

Lemma emit_Ret e s : emit e s = Ret tt (set_trace (trace s ++ [e]) s).
Proof. done. Qed.

Lemma fs_proc_free_inv p u s s' :
  fs_proc_free p s = Ret u s' →
  ∃ pr, heap s !! p = Some (OProc pr) ∧
        s' = set_trace (trace s ++ [EvProcFree p]) (set_heap (delete p (heap s)) s).
Proof.
  unfold fs_proc_free. destruct (heap s !! p) as [[]|]; naive_solver.
Qed.

Lemma free_inv p u s s' :
  free p s = Ret u s' →
  (p = NULL ∧ s' = s) ∨
  (p ≠ NULL ∧ is_Some (heap s !! p) ∧
   s' = set_trace (trace s ++ [EvFree p]) (set_heap (delete p (heap s)) s)).
Proof.
  unfold free. case_decide; [naive_solver|].
  destruct (heap s !! p); naive_solver.
Qed.

Lemma malloc_inv n p s s' :
  malloc n s = Ret p s' →
  (head (malloc_oracle s) ≠ Some false ∧ p = fresh_ptr (live s) ∧
   s' = set_trace (trace s ++ [EvMalloc n p])
          (set_heap (<[p := OBuf n []]> (heap s))
             (set_malloc_oracle (tail (malloc_oracle s)) s))) ∨
  (head (malloc_oracle s) = Some false ∧ p = NULL ∧
   s' = set_trace (trace s ++ [EvMalloc n NULL])
          (set_malloc_oracle (tail (malloc_oracle s)) s)).
Proof.
  unfold malloc. destruct (malloc_oracle s) as [|[] o]; cbn; naive_solver.
Qed.

Lemma malloc_Ret n s :
  head (malloc_oracle s) ≠ Some false →
  malloc n s =
  Ret (fresh_ptr (live s))
    (set_trace (trace s ++ [EvMalloc n (fresh_ptr (live s))])
       (set_heap (<[fresh_ptr (live s) := OBuf n []]> (heap s))
          (set_malloc_oracle (tail (malloc_oracle s)) s))).
Proof. unfold malloc. by destruct (malloc_oracle s) as [|[] o]. Qed.

Lemma fresh_ptr_live_lookup s : heap s !! fresh_ptr (live s) = None.
Proof.
  apply not_elem_of_dom. intros Hd.
  apply (fresh_ptr_not_live (live s)). unfold live. set_solver.
Qed.

(** *** Initialisation *)

(** C9.  The module is initialised exactly once at a time.  While it is
    initialised, [fs_handler_init] fails and leaves the stored network class
    and function map (indeed the whole state but the error log) as they
    were.  While it is not, [fs_handler_finalize] fails and touches nothing
    but the error log.  A successful [fs_handler_finalize] leaves the module
    uninitialised, and [fs_handler_init] then succeeds again, with a new
    empty function map. *)
Theorem init_finalize_once (s : state) (nc : ptr) :
  (initialized s →
     fs_handler_init nc s
     = Ret S_FAIL (set_trace (trace s ++ [EvError "Already initialized"]) s)) ∧
  (¬ initialized s →
     fs_handler_finalize s
     = Ret S_FAIL (set_trace (trace s ++ [EvError "Already finalized"]) s)) ∧
  (initialized s → is_Some (handler_func_map s) →
     ∃ s1, fs_handler_finalize s = Ret S_SUCCESS s1 ∧
           ¬ initialized s1 ∧ handler_func_map s1 = None ∧
           fs_handler_init nc s1
           = Ret S_SUCCESS (set_func_map (Some ∅) (set_network_class nc s1))).
Proof.
  unfold initialized, fs_handler_init, fs_handler_finalize.
  repeat split.
  - intros Hi. unfold bind, gets. by rewrite decide_True.
  - intros Hi. unfold bind, gets. rewrite decide_True; [done|].
    by destruct (decide (handler_network_class s = NULL)).
  - intros Hi [fm Hfm]. eexists. split.
    + unfold bind at 1, gets. rewrite decide_False by done.
      unfold na_finalize, func_map_free, func_map, bind, emit, modify, ret.
      cbn. rewrite Hfm. reflexivity.
    + cbn. split; [tauto|]. split; [done|].
      unfold bind, gets, modify, ret. cbn. by rewrite decide_False by tauto.
Qed.

Lemma init_finalize_once_witness :
  (∃ s', fs_handler_init 8 ex_init = Ret S_FAIL s' ∧
         handler_network_class s' = 9 ∧ handler_func_map s' = Some ∅) ∧
  (∃ s', fs_handler_finalize ex_boot = Ret S_FAIL s' ∧ heap s' = heap ex_boot) ∧
  (∃ s1 s2, fs_handler_finalize ex_init = Ret S_SUCCESS s1 ∧
            fs_handler_init 8 s1 = Ret S_SUCCESS s2 ∧
            handler_network_class s2 = 8).
Proof.
  destruct (init_finalize_once ex_init 8) as (H1 & _ & H3).
  destruct (init_finalize_once ex_boot 8) as (_ & H2 & _).
  split; [|split].
  - eexists. split; [apply H1; vm_compute; discriminate|]. by vm_compute.
  - eexists. split; [apply H2; vm_compute; tauto|]. by vm_compute.
  - destruct H3 as (s1 & Hf & _ & _ & Hi).
    + vm_compute; discriminate.
    + vm_compute. eauto.
    + exists s1. eexists. split; [exact Hf|]. split; [exact Hi|]. reflexivity.
Defined.

(** *** Taking the input *)

(** Once the handle has given up its buffer or its decode context,
    [fs_handler_get_input] does nothing and reports success. *)
Lemma get_input_consumed_noop s h inp v :
  h ≠ NULL → heap s !! h = Some (OHandle v) → ¬ owns_input v →
  fs_handler_get_input h inp s = Ret S_SUCCESS s.
Proof.
  intros Hn Hh Hown. unfold fs_handler_get_input.
  erewrite bind_Ret by by apply load_handle_Ret.
  by rewrite decide_False.
Qed.

(** A handle that owns a live buffer and a live decode context, for an
    operation that is registered: [fs_handler_get_input] succeeds. *)
Lemma get_input_succeeds s h inp v fm info pr size data :
  h ≠ NULL → heap s !! h = Some (OHandle v) → owns_input v →
  handler_func_map s = Some fm → fm !! id v = Some info →
  heap s !! dec_proc v = Some (OProc pr) →
  heap s !! recv_buf v = Some (OBuf size data) →
  ∃ s1, fs_handler_get_input h inp s = Ret S_SUCCESS s1.
Proof.
  intros Hn Hh [Hb Hp] Hfm Hl Hdp Hrb.
  assert (dec_proc v ≠ h) as Hne1 by (intros E; rewrite E, Hh in Hdp; done).
  assert (recv_buf v ≠ h) as Hne2 by (intros E; rewrite E, Hh in Hrb; done).
  assert (dec_proc v ≠ recv_buf v) as Hne3
    by (intros E; rewrite E, Hrb in Hdp; done).
  unfold fs_handler_get_input.
  erewrite bind_Ret by by apply load_handle_Ret.
  rewrite decide_True by done.
  erewrite bind_Ret by by apply func_map_lookup_Ret.
  rewrite Hl.
  erewrite bind_Ret by reflexivity.
  erewrite bind_Ret; last first.
  { unfold fs_proc_free. cbn. rewrite Hdp. reflexivity. }
  erewrite bind_Ret; last first.
  { apply update_handle_Ret; [done|]. cbn. rewrite lookup_delete_ne by done.
    exact Hh. }
  erewrite bind_Ret; last first.
  { unfold free. rewrite decide_False by done. cbn.
    rewrite lookup_insert_ne, lookup_delete_ne, Hrb by done. reflexivity. }
  erewrite bind_Ret; last first.
  { apply update_handle_Ret; [done|]. cbn. rewrite lookup_delete_ne by done.
    apply lookup_insert_eq. }
  eexists. reflexivity.
Qed.

(** C10.  The error path of [fs_handler_get_input] changes nothing: when
    the handle owns its buffer and decode context and the registry has no
    entry for the handle's operation id, the call returns [S_FAIL], the heap
    is what it was (the buffer and the decode context are neither freed nor
    are the handle's two references cleared), and only the error is logged. *)
Theorem get_input_lookup_failure_atomic s h inp v fm :
  h ≠ NULL → heap s !! h = Some (OHandle v) → owns_input v →
  handler_func_map s = Some fm → fm !! id v = None →
  ∃ s', fs_handler_get_input h inp s = Ret S_FAIL s' ∧
        heap s' = heap s ∧
        heap s' !! h = Some (OHandle v) ∧
        trace s' = trace s ++ [EvError "func_map_lookup failed"].
Proof.
  intros Hn Hh Hown Hfm Hl. eexists. split.
  - unfold fs_handler_get_input.
    erewrite bind_Ret by by apply load_handle_Ret.
    rewrite decide_True by done.
    erewrite bind_Ret by by apply func_map_lookup_Ret.
    rewrite Hl. reflexivity.
  - by cbn.
Qed.

Lemma get_input_lookup_failure_atomic_witness :
  ∃ s', fs_handler_get_input 100 500 ex_call_unknown = Ret S_FAIL s' ∧
        heap s' = heap ex_call_unknown ∧
        heap s' !! 100 = Some (OHandle {| id := 43; addr := 77; tag := 5;
                                          dec_proc := 102; recv_buf := 101;
                                          in_struct := NULL |}) ∧
        trace s' = trace ex_call_unknown ++ [EvError "func_map_lookup failed"].
Proof.
  apply (get_input_lookup_failure_atomic ex_call_unknown 100 500 _ ∅).
  - discriminate.
  - by vm_compute.
  - split; discriminate.
  - reflexivity.
  - reflexivity.
Defined.

(** C7.  [fs_handler_get_input] is idempotent.  Whenever a call succeeds on
    a handle that owns its buffer and decode context, the registered decoder
    was run on the caller's struct, the decode context and the buffer were
    released (each once) and both references of the handle cleared; and
    whenever a call succeeds, every further call on the handle succeeds and
    changes nothing -- no event, no second free. *)
Theorem get_input_idempotent s h in1 in2 s1 :
  fs_handler_get_input h in1 s = Ret S_SUCCESS s1 →
  (∀ v, heap s !! h = Some (OHandle v) → owns_input v →
     ∃ fm info,
       handler_func_map s = Some fm ∧ fm !! id v = Some info ∧
       trace s1 = trace s ++ [EvDecode (dec_routine info) (dec_proc v) in1;
                              EvProcFree (dec_proc v); EvFree (recv_buf v)] ∧
       heap s1 !! h = Some (OHandle (set_recv_buf NULL (set_dec_proc NULL v))) ∧
       heap s1 !! dec_proc v = None ∧ heap s1 !! recv_buf v = None) ∧
  fs_handler_get_input h in2 s1 = Ret S_SUCCESS s1.
Proof.
  unfold fs_handler_get_input at 1. intros H.
  inv_bind H as v0 s0 Hs. apply load_handle_inv in Hs as (-> & Hn & Hh).
  case_decide as Hown.
  - inv_bind H as r s0 Hs. apply func_map_lookup_inv in Hs as (-> & fm & Hfm & ->).
    destruct (fm !! id v0) as [info|] eqn:Hl.
    2:{ inv_bind H as u s0 Hs. discriminate. }
    inv_bind H as u1 s2 Hs. rewrite emit_Ret in Hs. simplify_eq.
    inv_bind H as u2 s3 Hs. apply fs_proc_free_inv in Hs as (pr & Hp & ->).
    inv_bind H as u3 s4 Hs. apply update_handle_inv in Hs as (v & _ & Hh1 & ->).
    inv_bind H as u4 s5 Hs. apply free_inv in Hs as [[? _]|(_ & Hb & ->)];
      [unfold owns_input in Hown; tauto|].
    inv_bind H as u5 s6 Hs. apply update_handle_inv in Hs as (v' & _ & Hh2 & ->).
    injection H as <-. cbn in *.
    assert (dec_proc v0 ≠ h) as Hne1 by (intros E; rewrite E, Hh in Hp; done).
    rewrite lookup_delete_ne, Hh in Hh1 by done. injection Hh1 as <-.
    assert (recv_buf v0 ≠ h) as Hne2.
    { intros E. rewrite E, lookup_delete_eq in Hh2. done. }
    rewrite lookup_delete_ne, lookup_insert_eq in Hh2 by done.
    injection Hh2 as <-.
    split.
    + intros v Hv _. rewrite Hh in Hv. injection Hv as <-. exists fm, info.
      repeat split; try done.
      * by rewrite <- !app_assoc.
      * by rewrite lookup_insert_eq.
      * rewrite lookup_insert_ne by done. rewrite lookup_delete.
        case_decide; [done|]. rewrite lookup_insert_ne by done.
        apply lookup_delete_eq.
      * rewrite lookup_insert_ne by done. apply lookup_delete_eq.
    + apply (get_input_consumed_noop _ _ _ (set_recv_buf NULL (set_dec_proc NULL v0)));
        [done| cbn; apply lookup_insert_eq | cbn; unfold owns_input; cbn; tauto].
  - injection H as <-. split.
    + intros v Hv Hov. rewrite Hh in Hv. by injection Hv as <-.
    + by apply (get_input_consumed_noop _ _ _ v0).
Qed.

Lemma get_input_idempotent_witness :
  ∃ s1, fs_handler_get_input 100 500 ex_call_fresh = Ret S_SUCCESS s1 ∧
        trace s1 = [EvDecode 12 102 500; EvProcFree 102; EvFree 101] ∧
        fs_handler_get_input 100 501 s1 = Ret S_SUCCESS s1.
Proof.
  eexists. split; [by vm_compute|].
  split; [by vm_compute|].
  eapply (get_input_idempotent ex_call_fresh 100 500 501). by vm_compute.
Defined.

(** *** Completing a call *)

Section Complete.

Variable na_get_unexpected_size : ptr → Z.
Variable iofsl_compat_get_size_status : Z.

Local Abbreviation complete :=
  (fs_handler_complete na_get_unexpected_size iofsl_compat_get_size_status).

Local Abbreviation complete_events :=
  (Handler.complete_events na_get_unexpected_size iofsl_compat_get_size_status).

(** Everything a successful [fs_handler_complete] has done. *)
Lemma complete_success_inv h out s s1 :
  complete h out s = Ret S_SUCCESS s1 →
  ∃ v fm info p q,
    h ≠ NULL ∧ heap s !! h = Some (OHandle v) ∧
    handler_func_map s = Some fm ∧ fm !! id v = Some info ∧
    p ≠ NULL ∧ heap s !! p = None ∧
    trace s1 = trace s ++ complete_events (handler_network_class s) v info h out p q ∧
    heap s1 !! h = None ∧
    handler_func_map s1 = handler_func_map s.
Proof.
  unfold fs_handler_complete. intros H.
  inv_bind H as nc s0 Hs. injection Hs as <- <-.
  inv_bind H as v s0 Hs. apply load_handle_inv in Hs as (-> & Hn & Hh).
  inv_bind H as r s0 Hs. apply func_map_lookup_inv in Hs as (-> & fm & Hfm & ->).
  destruct (fm !! id v) as [info|] eqn:Hl.
  2:{ inv_bind H as u s0 Hs. discriminate. }
  inv_bind H as p s2 Hs.
  apply malloc_inv in Hs as [(_ & Hp & ->)|(_ & -> & ->)].
  2:{ rewrite decide_True in H by done. inv_bind H as u s0 Hs. discriminate. }
  assert (p ≠ NULL) as Hpn by (rewrite Hp; apply fresh_ptr_not_null).
  assert (heap s !! p = None) as Hpf by (rewrite Hp; apply fresh_ptr_live_lookup).
  clear Hp. rewrite decide_False in H by done.
  inv_bind H as u1 s3 Hs. rewrite emit_Ret in Hs. injection Hs as <- <-.
  inv_bind H as q s4 Hs. unfold fs_proc_create in Hs. injection Hs as <- <-.
  inv_bind H as u2 s5 Hs. rewrite emit_Ret in Hs. injection Hs as <- <-.
  inv_bind H as u3 s6 Hs. rewrite emit_Ret in Hs. injection Hs as <- <-.
  inv_bind H as u4 s7 Hs. rewrite emit_Ret in Hs. injection Hs as <- <-.
  inv_bind H as u5 s8 Hs. apply fs_proc_free_inv in Hs as (pr & _ & ->).
  inv_bind H as u6 s9 Hs. apply free_inv in Hs as [[? _]|(_ & _ & ->)]; [done|].
  inv_bind H as u7 s10 Hs. unfold na_addr_free in Hs. injection Hs as <- <-.
  inv_bind H as u8 s11 Hs. apply update_handle_inv in Hs as (v1 & _ & _ & ->).
  inv_bind H as u9 s12 Hs.
  inv_bind H as u10 s13 Hs1.
  inv_bind H as u11 s14 Hs2.
  injection H as <-.
  apply free_inv in Hs2 as [[? _]|(_ & _ & ->)]; [done|].
  apply update_handle_inv in Hs1 as (v2 & _ & _ & ->).
  exists v, fm, info, p. eexists.
  split; [done|]. split; [done|]. split; [done|]. split; [done|].
  split; [done|]. split; [done|].
  split; [|split; [cbn; apply lookup_delete_eq|]].
  - unfold complete_events.
    apply free_inv in Hs as [[E ->]|(E & _ & ->)]; cbn in *.
    + rewrite decide_True by done. by rewrite <- !app_assoc.
    + rewrite decide_False by done. by rewrite <- !app_assoc.
  - by apply free_inv in Hs as [[E ->]|(E & _ & ->)].
Qed.

(** The only ways [fs_handler_complete] fails. *)
Lemma complete_failure_inv h out s s1 :
  complete h out s = Ret S_FAIL s1 →
  (∃ v fm, heap s !! h = Some (OHandle v) ∧ handler_func_map s = Some fm ∧
           fm !! id v = None ∧
           s1 = set_trace (trace s ++ [EvError "func_map_lookup failed"]) s) ∨
  (head (malloc_oracle s) = Some false ∧
   trace s1 = trace s ++
     [EvMalloc (na_get_unexpected_size (handler_network_class s)) NULL;
      EvError "send buffer allocation failed."] ∧
   heap s1 = heap s).
Proof.
  unfold fs_handler_complete. intros H.
  inv_bind H as nc s0 Hs. injection Hs as <- <-.
  inv_bind H as v s0 Hs. apply load_handle_inv in Hs as (-> & Hn & Hh).
  inv_bind H as r s0 Hs. apply func_map_lookup_inv in Hs as (-> & fm & Hfm & ->).
  destruct (fm !! id v) as [info|] eqn:Hl.
  2:{ inv_bind H as u s0 Hs. injection H as <-.
      cbv [S_ERROR_DEFAULT emit modify] in Hs.
      injection Hs as <- <-. left. by exists v, fm. }
  inv_bind H as p s2 Hs.
  apply malloc_inv in Hs as [(_ & Hp & ->)|(Ho & -> & ->)].
  - rewrite decide_False in H by (rewrite Hp; apply fresh_ptr_not_null).
    repeat (let u := fresh "u" in let s' := fresh "s" in let Hs := fresh "Hs" in
            inv_bind H as u s' Hs).
    discriminate.
  - rewrite decide_True in H by done.
    inv_bind H as u s0 Hs. injection H as <-.
    cbv [S_ERROR_DEFAULT emit modify] in Hs.
    injection Hs as <- <-. right. cbn. by rewrite <- !app_assoc.
Qed.

Lemma sends_complete_events nc v info h out p q :
  sends (complete_events nc v info h out p q)
  = [EvSend nc p (na_get_unexpected_size nc) (addr v) (tag v)].
Proof. unfold complete_events. by case_decide. Qed.

Lemma allocations_complete_events nc v info h out p q :
  allocations (complete_events nc v info h out p q)
  = [na_get_unexpected_size nc].
Proof. unfold complete_events. by case_decide. Qed.

Lemma sends_app t1 t2 : sends (t1 ++ t2) = sends t1 ++ sends t2.
Proof. apply List.filter_app. Qed.

Lemma allocations_app t1 t2 :
  allocations (t1 ++ t2) = allocations t1 ++ allocations t2.
Proof. apply omap_app. Qed.

(** C4, as the code has it.  A successful [fs_handler_complete] sends
    exactly one response and releases the handle itself.  The handle carries
    no consumed flag and the function checks nothing: a second call on the
    same handle is not rejected, it reads the freed handle, which is
    undefined behaviour. *)
Theorem complete_consumes_handle h out out' s s1 :
  complete h out s = Ret S_SUCCESS s1 →
  length (sends (trace s1)) = S (length (sends (trace s))) ∧
  heap s1 !! h = None ∧
  complete h out' s1 = Undef.
Proof.
  intros H.
  apply complete_success_inv in H
    as (v & fm & info & p & q & _ & _ & _ & _ & _ & _ & Ht & Hh & _).
  split; [|split; [done|]].
  - rewrite Ht, sends_app, sends_complete_events, length_app. cbn. lia.
  - unfold fs_handler_complete.
    erewrite bind_Ret by reflexivity.
    apply bind_Undef. by apply load_handle_dead.
Qed.

(** C6, as the code has it.  [fs_handler_complete] never asks the encoder
    for a size.  A call that succeeds has allocated one send buffer of the
    transport's unexpected-message size, written the status prefix, run the
    encoder that the registry holds for the handle's operation id, once, on
    the rest of that buffer, and sent the whole buffer; a call fails only
    when the registry lookup fails or when the allocation fails, in both
    cases before the encoder is run. *)
Theorem complete_buffer_is_unexpected_size h out s r s1 :
  complete h out s = Ret r s1 →
  match r with
  | S_SUCCESS =>
    ∃ v fm info p q,
      heap s !! h = Some (OHandle v) ∧
      handler_func_map s = Some fm ∧ fm !! id v = Some info ∧
      trace s1 = trace s ++
                 complete_events (handler_network_class s) v info h out p q ∧
      allocations (trace s1) =
        allocations (trace s) ++
        [na_get_unexpected_size (handler_network_class s)]
  | S_FAIL =>
    (∃ v fm, heap s !! h = Some (OHandle v) ∧
             handler_func_map s = Some fm ∧ fm !! id v = None ∧
             trace s1 = trace s ++ [EvError "func_map_lookup failed"]) ∨
    (head (malloc_oracle s) = Some false ∧
     trace s1 = trace s ++
       [EvMalloc (na_get_unexpected_size (handler_network_class s)) NULL;
        EvError "send buffer allocation failed."])
  end.
Proof.
  intros H. destruct r.
  - apply complete_success_inv in H
      as (v & fm & info & p & q & _ & Hh & Hfm & Hl & _ & _ & Ht & _ & _).
    exists v, fm, info, p, q.
    split; [done|]. split; [done|]. split; [done|]. split; [done|].
    by rewrite Ht, allocations_app, allocations_complete_events.
  - apply complete_failure_inv in H as [(v & fm & ? & ? & ? & ->)|(? & ? & _)].
    + left. by exists v, fm.
    + by right.
Qed.

End Complete.

(** C4 on the code: the second call on a completed handle is not rejected. *)
Lemma complete_twice_not_rejected :
  ∃ s1, ex_complete 100 600 ex_call = Ret S_SUCCESS s1 ∧
        length (sends (trace s1)) = 1%nat ∧
        ex_complete 100 600 s1 = Undef ∧
        ¬ ∃ s2, ex_complete 100 600 s1 = Ret S_FAIL s2.
Proof.
  eexists. split; [by vm_compute|]. split; [by vm_compute|].
  split; [by vm_compute|]. intros [s2 H]. vm_compute in H. discriminate.
Qed.

Lemma complete_consumes_handle_witness :
  ∃ s1, ex_complete 100 600 ex_call = Ret S_SUCCESS s1 ∧
        length (sends (trace s1)) = 1%nat ∧
        heap s1 !! 100 = None ∧
        ex_complete 100 601 s1 = Undef.
Proof.
  eexists. split; [by vm_compute|].
  apply (complete_consumes_handle ex_unexpected_size ex_size_status
           100 600 601 ex_call).
  by vm_compute.
Defined.

(** C6 on the code: whether the response needs 10 bytes or 10000, the send
    buffer has the 4096 bytes of an unexpected message and the call
    succeeds. *)
Lemma complete_not_sized_by_encoder :
  ∃ s1, ex_complete 100 600 ex_call = Ret S_SUCCESS s1 ∧
        allocations (trace s1) = [4096] ∧
        ¬ spec_two_phase 10 ex_size_status 4096 4096 S_SUCCESS ∧
        ¬ spec_two_phase 10000 ex_size_status 4096 4096 S_SUCCESS.
Proof.
  eexists. split; [by vm_compute|]. split; [by vm_compute|].
  split; vm_compute; intros H; [specialize (H eq_refl)|]; discriminate.
Qed.

Lemma complete_buffer_is_unexpected_size_witness :
  ∃ s1, ex_complete 100 600 ex_call = Ret S_SUCCESS s1 ∧
        ∃ v fm info p q,
          heap ex_call !! 100 = Some (OHandle v) ∧
          handler_func_map ex_call = Some fm ∧ fm !! id v = Some info ∧
          trace s1 = trace ex_call ++
                     Handler.complete_events ex_unexpected_size ex_size_status
                       (handler_network_class ex_call) v info 100 600 p q ∧
          allocations (trace s1) = allocations (trace ex_call) ++ [4096].
Proof.
  eexists. split; [by vm_compute|].
  apply (complete_buffer_is_unexpected_size ex_unexpected_size ex_size_status
           100 600 ex_call S_SUCCESS).
  by vm_compute.
Defined.

(** *** Registering *)

Section Register.

Variable fs_proc_string_hash : string → Z.
Variables sizeof_fs_id sizeof_fs_proc_info : Z.

(** C5, as the code has it.  [fs_handler_register] returns nothing and
    checks nothing: once its two allocations succeed it stores the triple
    under the hashed id, replacing whatever the registry held under that id
    and leaving every other id alone. *)
Theorem register_replaces_entry name f d e s fm :
  handler_func_map s = Some fm →
  malloc_oracle s !! 0%nat ≠ Some false →
  malloc_oracle s !! 1%nat ≠ Some false →
  ∃ s', fs_handler_register fs_proc_string_hash sizeof_fs_id
          sizeof_fs_proc_info name f d e s = Ret tt s' ∧
        handler_func_map s' =
          Some (<[fs_proc_string_hash name :=
                    {| fs_routine := f; dec_routine := d; enc_routine := e |}]> fm).
Proof.
  intros Hfm Ho0 Ho1. unfold fs_handler_register.
  erewrite bind_Ret; last first.
  { apply malloc_Ret. by destruct (malloc_oracle s). }
  unfold check_not_null at 1.
  erewrite bind_Ret; last first.
  { rewrite decide_False by apply fresh_ptr_not_null. reflexivity. }
  erewrite bind_Ret; last first.
  { apply malloc_Ret. cbn. by destruct (malloc_oracle s) as [|? []]. }
  unfold check_not_null at 1.
  erewrite bind_Ret; last first.
  { rewrite decide_False by apply fresh_ptr_not_null. reflexivity. }
  unfold func_map_insert, func_map, bind, modify. cbn. rewrite Hfm.
  eexists. split; reflexivity.
Qed.

End Register.

Lemma register_replaces_entry_witness :
  ∃ s', ex_register "bar" 21 22 23 ex_foo = Ret tt s' ∧
        handler_func_map s' =
          Some (<[ex_hash "bar" := {| fs_routine := 21; dec_routine := 22;
                                     enc_routine := 23 |}]>
                  {[ 43 := {| fs_routine := 11; dec_routine := 12;
                              enc_routine := 13 |} ]}).
Proof.
  apply (register_replaces_entry ex_hash 4 24 "bar" 21 22 23 ex_foo).
  - by vm_compute.
  - by vm_compute.
  - by vm_compute.
Defined.

(** C5 on the code: ["bar"] hashes to the id of ["foo"]; registering it
    does not fail and the entry of ["foo"] is gone. *)
Lemma register_collision_overwrites :
  ex_hash "bar" = ex_hash "foo" ∧
  (∃ fm, handler_func_map ex_foo = Some fm ∧
         fm !! ex_hash "foo" = Some {| fs_routine := 11; dec_routine := 12;
                                       enc_routine := 13 |}) ∧
  ∃ s' fm', ex_register "bar" 21 22 23 ex_foo = Ret tt s' ∧
            handler_func_map s' = Some fm' ∧
            fm' !! ex_hash "foo" = Some {| fs_routine := 21; dec_routine := 22;
                                           enc_routine := 23 |}.
Proof.
  split; [reflexivity|]. split.
  - eexists. split; by vm_compute.
  - do 2 eexists. split; [by vm_compute|]. split; by vm_compute.
Qed.

(** *** Receiving a call *)

Lemma init_handle_inv h u s s' :
  init_handle h s = Ret u s' →
  h ≠ NULL ∧
  s' = set_heap (<[h := OHandle {| id := 0; addr := NULL; tag := 0;
                                   dec_proc := NULL; recv_buf := NULL;
                                   in_struct := NULL |}]> (heap s)) s.
Proof.
  unfold init_handle. case_decide; [done|].
  destruct (heap s !! h) as [[]|]; naive_solver.
Qed.

Lemma na_recv_unexpected_inv b len r s s' :
  na_recv_unexpected b len s = Ret r s' →
  ∃ m rest size old,
    inbox s = m :: rest ∧ b ≠ NULL ∧ heap s !! b = Some (OBuf size old) ∧
    r = (Z.of_nat (length (take (Z.to_nat len) (msg_data m))), msg_src m, msg_tag m) ∧
    heap s' = <[b := OBuf size (take (Z.to_nat len) (msg_data m))]> (heap s) ∧
    na_addrs s' = {[msg_src m]} ∪ na_addrs s ∧
    handler_func_map s' = handler_func_map s ∧
    trace s' = trace s ++ [EvRecvUnexpected (handler_network_class s) b
                             (Z.of_nat (length (take (Z.to_nat len) (msg_data m))))
                             (msg_src m) (msg_tag m)].
Proof.
  unfold na_recv_unexpected. destruct (inbox s) as [|m rest]; [done|].
  case_decide; [done|].
  destruct (heap s !! b) as [[| |size old]|]; try done.
  intros Hr. injection Hr as <- <-. by exists m, rest, size, old.
Qed.

Lemma fs_proc_uint32_t_inv dec p r s s' :
  fs_proc_uint32_t dec p s = Ret r s' → s' = s.
Proof.
  unfold fs_proc_uint32_t, proc_bytes, bind, ret.
  destruct (heap s !! p) as [[|pr|]|]; try done.
  destruct (heap s !! proc_base pr) as [[]|]; try done.
  case_decide; [naive_solver|done].
Qed.

Section Receive.

Variable na_get_unexpected_size : ptr → Z.
Variable iofsl_compat_get_size_id : Z.
Variable decode_uint32 : list Z → Z.
Variable sizeof_fs_priv_handle : Z.
Variable call_fs_routine : ptr → ptr → M state unit.

Local Abbreviation receive :=
  (fs_handler_receive na_get_unexpected_size iofsl_compat_get_size_id
     decode_uint32 sizeof_fs_priv_handle call_fs_routine).

(** Whenever [fs_handler_receive] returns [S_FAIL], the operation id it
    decoded is not registered, and the handle, the receive buffer and the
    decode context that this call allocated are all still allocated when
    it returns; nothing has been released. *)
Lemma receive_failure_inv s s1 :
  receive s = Ret S_FAIL s1 →
  ∃ h v fm size data pr,
    heap s !! h = None ∧ heap s1 !! h = Some (OHandle v) ∧
    handler_func_map s = Some fm ∧ fm !! id v = None ∧
    recv_buf v ≠ NULL ∧ heap s !! recv_buf v = None ∧
    heap s1 !! recv_buf v = Some (OBuf size data) ∧
    dec_proc v ≠ NULL ∧ heap s !! dec_proc v = None ∧
    heap s1 !! dec_proc v = Some (OProc pr) ∧
    addr v ∈ na_addrs s1 ∧
    releases (trace s1) = releases (trace s).
Proof.
  unfold fs_handler_receive. intros H.
  inv_bind H as h s2 Hs.
  apply malloc_inv in Hs as [(_ & Hh & ->)|(_ & -> & ->)].
  2:{ inv_bind H as u s0 Hs. by apply init_handle_inv in Hs as [? _]. }
  assert (heap s !! h = None) as Hhf by (rewrite Hh; apply fresh_ptr_live_lookup).
  clear Hh.
  inv_bind H as u1 s3 Hs. apply init_handle_inv in Hs as (Hhn & ->).
  inv_bind H as nc s4 Hs. injection Hs as <- <-.
  inv_bind H as b s5 Hs. cbn in Hs.
  apply malloc_inv in Hs as [(_ & Hb & ->)|(_ & -> & ->)].
  2:{ inv_bind H as u s0 Hs. inv_bind H as r s6 Hs'.
      apply update_handle_inv in Hs as (? & _ & _ & ->).
      by apply na_recv_unexpected_inv in Hs' as (? & ? & ? & ? & _ & ? & _). }
  match type of Hb with _ = fresh_ptr (live ?s') =>
    pose proof (fresh_ptr_live_lookup s') as Hbf; rewrite <- Hb in Hbf end.
  clear Hb. cbn in Hbf.
  assert (b ≠ h) as Hbh by (intros ->; by rewrite lookup_insert_eq in Hbf).
  rewrite !lookup_insert_ne in Hbf by done.
  inv_bind H as u2 s6 Hs. apply update_handle_inv in Hs as (v1 & _ & Hv1 & ->).
  cbn in Hv1. rewrite lookup_insert_ne, lookup_insert_eq in Hv1 by done.
  injection Hv1 as <-.
  inv_bind H as r s7 Hs.
  apply na_recv_unexpected_inv in Hs
    as (m & rest & size & old & _ & Hbn & _ & -> & Hheap7 & Haddr7 & Hfm7 & Htr7).
  cbn in Hheap7, Haddr7, Hfm7, Htr7.
  inv_bind H as u3 s8 Hs. apply update_handle_inv in Hs as (v2 & _ & Hv2 & ->).
  rewrite Hheap7, lookup_insert_ne, lookup_insert_eq in Hv2 by done.
  injection Hv2 as <-.
  inv_bind H as u4 s9 Hs. apply update_handle_inv in Hs as (v3 & _ & Hv3 & ->).
  cbn in Hv3. rewrite lookup_insert_eq in Hv3. injection Hv3 as <-.
  inv_bind H as u5 s10 Hs. rewrite emit_Ret in Hs. injection Hs as <- <-.
  inv_bind H as q0 s11 Hs. unfold fs_proc_create in Hs. cbv zeta in Hs.
  match type of Hs with Ret (fresh_ptr (live ?s')) _ = _ =>
    pose proof (fresh_ptr_live_lookup s') as Hqf;
    pose proof (fresh_ptr_not_null (live s')) as Hqn;
    set (q := fresh_ptr (live s')) in *
  end.
  clearbody q. injection Hs as <- <-. cbn in Hqf.
  assert (q ≠ h) as Hqh by (intros ->; by rewrite lookup_insert_eq in Hqf).
  rewrite !lookup_insert_ne, Hheap7 in Hqf by done.
  assert (q ≠ b) as Hqb by (intros ->; by rewrite lookup_insert_eq in Hqf).
  rewrite !lookup_insert_ne in Hqf by done.
  inv_bind H as u6 s12 Hs. apply update_handle_inv in Hs as (v4 & _ & Hv4 & ->).
  cbn in Hv4. rewrite lookup_insert_ne, lookup_insert_eq in Hv4 by done.
  injection Hv4 as <-.
  inv_bind H as op_id s13 Hs. apply fs_proc_uint32_t_inv in Hs as ->.
  inv_bind H as u7 s14 Hs. apply update_handle_inv in Hs as (v5 & _ & Hv5 & ->).
  cbn in Hv5. rewrite lookup_insert_eq in Hv5. injection Hv5 as <-.
  inv_bind H as r s15 Hs. apply func_map_lookup_inv in Hs as (-> & fm & Hfm & ->).
  cbn in Hfm. rewrite Hfm7 in Hfm. cbn in Hfm.
  destruct (fm !! op_id) as [info|] eqn:Hl.
  { inv_bind H as u s0 Hs. inv_bind H as u' s0' Hs'. discriminate. }
  inv_bind H as u8 s16 Hs. injection H as <-.
  cbv [S_ERROR_DEFAULT emit modify] in Hs. injection Hs as <- <-.
  eexists h, _, fm, size, _, _. cbn.
  split; [done|]. split; [apply lookup_insert_eq|]. cbn.
  split; [done|]. split; [done|]. split; [done|]. split; [done|].
  split.
  { rewrite !lookup_insert_ne by done. rewrite Hheap7. apply lookup_insert_eq. }
  split; [done|]. split; [done|].
  split.
  { rewrite lookup_insert_ne by done. rewrite lookup_insert_ne by done.
    apply lookup_insert_eq. }
  split; [rewrite Haddr7; apply elem_of_union_l, elem_of_singleton; done|].
  rewrite Htr7. unfold releases. rewrite !List.filter_app. cbn.
  by rewrite !app_nil_r.
Qed.

End Receive.

(** On the path where the operation is registered, the executor's calls of
    [fs_handler_get_input] and [fs_handler_complete] release the decode
    context, the receive buffer, the peer address and the handle. *)
Lemma receive_known_operation_releases :
  ∃ s1, ex_receive ex_foo = Ret S_SUCCESS s1 ∧
        heap s1 = heap ex_foo ∧ na_addrs s1 = ∅ ∧
        releases (trace s1) =
          [EvProcFree 78; EvFree 4; EvProcFree 79; EvFree 78;
           EvAddrFree 9 77; EvFree 3].
Proof. eexists. by_evaluation. Qed.

(** C1 on the code.  A request for operation 43 arrives while nothing is
    registered.  [fs_handler_receive] logs the failed lookup and returns
    [S_FAIL]; it has released nothing: the handle (at 1), the receive buffer
    (at 2), the decode context (at 78) and the peer address (77) are all
    still allocated, and no pointer to the handle is left anywhere. *)
Theorem receive_unknown_operation_leaks :
  ∃ s1, ex_receive ex_init = Ret S_FAIL s1 ∧
        trace s1 = [EvMalloc 48 1; EvMalloc 4096 2;
                    EvRecvUnexpected 9 2 10 77 5; EvCompatDecId 2 10;
                    EvProcCreate 2 4 6 FS_DECODE 78;
                    EvError "func_map_lookup failed"] ∧
        releases (trace s1) = [] ∧
        heap s1 !! 1 = Some (OHandle {| id := 43; addr := 77; tag := 5;
                                        dec_proc := 78; recv_buf := 2;
                                        in_struct := NULL |}) ∧
        heap s1 !! 2 = Some (OBuf 4096 [0; 0; 0; 1; 0; 0; 0; 43; 11; 22]) ∧
        heap s1 !! 78 = Some (OProc {| proc_base := 2; proc_off := 4;
                                       proc_len := 6; proc_op := FS_DECODE |}) ∧
        na_addrs s1 = {[ 77 ]}.
Proof. eexists. by_evaluation. Qed.

End HandlerProofs.

(** ** The responder and the serving loop *)

Module RepliesProofs.
Import Replies.

Local Open Scope c_scope.

(** *** Arithmetic of the regrown capacity *)

Lemma SIZE_MAX_eq : SIZE_MAX = 18446744073709551615.
Proof. reflexivity. Qed.

Lemma twice_or_max_min x : twice_or_max x = Z.min (2 * x) SIZE_MAX.
Proof.
  unfold twice_or_max. rewrite SIZE_MAX_eq.
  change (18446744073709551615 / 2) with 9223372036854775807.
  case_decide; lia.
Qed.

Lemma nbuflen_no_wrap hdrlen b :
  0 ≤ hdrlen → hdrlen ≤ b → b ≤ SIZE_MAX →
  nbuflen hdrlen b = Z.min (2 * b) SIZE_MAX - hdrlen ∧
  0 ≤ nbuflen hdrlen b ≤ SIZE_MAX.
Proof.
  intros H0 H1 H2. unfold nbuflen, wrap_size. rewrite twice_or_max_min.
  rewrite SIZE_MAX_eq in *.
  change (2 ^ 64) with 18446744073709551616.
  rewrite Z.mod_small by lia. lia.
Qed.

Lemma nbuflen_payload_doubled hdrlen b :
  0 ≤ hdrlen → hdrlen ≤ b → b ≤ SIZE_MAX / 2 →
  nbuflen hdrlen b = hdrlen + 2 * (b - hdrlen) ∧ b ≤ nbuflen hdrlen b.
Proof.
  intros H0 H1 H2.
  assert (b ≤ 9223372036854775807) as H3 by exact H2.
  assert (b ≤ SIZE_MAX) as H4 by (rewrite SIZE_MAX_eq; lia).
  destruct (nbuflen_no_wrap hdrlen b H0 H1 H4) as [-> _].
  rewrite SIZE_MAX_eq. lia.
Qed.

Lemma nbuflen_less_than_twice hdrlen b :
  0 < hdrlen → hdrlen ≤ b → b ≤ SIZE_MAX →
  nbuflen hdrlen b < 2 * b ∧ nbuflen hdrlen b ≠ SIZE_MAX.
Proof.
  intros H0 H1 H2.
  destruct (nbuflen_no_wrap hdrlen b) as [-> _]; [lia|done|done|].
  rewrite SIZE_MAX_eq in *. lia.
Qed.

(** *** What the primitives do *)

Lemma rxpool_next_Ret s :
  rxpool_next s
  = Ret (fst <$> list_find (λ d, completed d = true) (descs (pool s))) s.
Proof. reflexivity. Qed.

Lemma load_desc_Ret i d s :
  descs (pool s) !! i = Some d → load_desc i s = Ret d s.
Proof. intros H. unfold load_desc. by rewrite H. Qed.

Lemma load_desc_inv i d s s' :
  load_desc i s = Ret d s' → s' = s ∧ descs (pool s) !! i = Some d.
Proof. unfold load_desc. destruct (descs (pool s) !! i); naive_solver. Qed.

Lemma rxdesc_setup_Ret b len i d s :
  descs (pool s) !! i = Some d →
  rxdesc_setup b len i s
  = Ret tt (set_trace (trace s ++ [EvTagRecv (worker (pool s)) b len
                                     (pool_tag (pool s)) (pool_tag_mask (pool s))])
              (set_pool (set_descs (<[i := posted b len d]> (descs (pool s)))
                           (pool s)) s)).
Proof.
  intros H. unfold rxdesc_setup.
  erewrite bind_Ret by by apply load_desc_Ret.
  reflexivity.
Qed.

Lemma rxdesc_setup_inv b len i u s s' :
  rxdesc_setup b len i s = Ret u s' →
  ∃ d, descs (pool s) !! i = Some d ∧
       s' = set_trace (trace s ++ [EvTagRecv (worker (pool s)) b len
                                     (pool_tag (pool s)) (pool_tag_mask (pool s))])
              (set_pool (set_descs (<[i := posted b len d]> (descs (pool s)))
                           (pool s)) s).
Proof.
  intros H. unfold rxdesc_setup in H. inv_bind H as d s0 Hs.
  apply load_desc_inv in Hs as (-> & Hd). exists d. split; [done|].
  cbv [bind store_desc modify gets emit] in H. by injection H as <-.
Qed.

Lemma rx_malloc_Ret n s :
  head (malloc_oracle s) ≠ Some false →
  malloc n s =
  Ret (fresh_ptr (dom (heap s)))
    (set_trace (trace s ++ [EvMalloc n (fresh_ptr (dom (heap s)))])
       (set_heap (<[fresh_ptr (dom (heap s)) :=
                      {| blk_size := n; blk_msg := None |}]> (heap s))
          (set_malloc_oracle (tail (malloc_oracle s)) s))).
Proof. unfold malloc. by destruct (malloc_oracle s) as [|[] o]. Qed.

Lemma rx_malloc_inv n p s s' :
  malloc n s = Ret p s' →
  (p ≠ NULL ∧ heap s !! p = None ∧
   s' = set_trace (trace s ++ [EvMalloc n p])
          (set_heap (<[p := {| blk_size := n; blk_msg := None |}]> (heap s))
             (set_malloc_oracle (tail (malloc_oracle s)) s))) ∨
  (p = NULL ∧ head (malloc_oracle s) = Some false).
Proof.
  unfold malloc. destruct (malloc_oracle s) as [|[] o]; cbn; intros H;
    injection H as <- <-; (by right) || left;
    (split; [apply fresh_ptr_not_null|]);
    (split; [apply not_elem_of_dom, fresh_ptr_not_live|done]).
Qed.

Lemma rx_free_Ret p blk s :
  p ≠ NULL → heap s !! p = Some blk →
  free p s = Ret tt (set_trace (trace s ++ [EvFree p])
                       (set_heap (delete p (heap s)) s)).
Proof. intros Hn Hl. unfold free. by rewrite decide_False, Hl. Qed.

Lemma rx_free_inv p u s s' :
  free p s = Ret u s' → descs (pool s') = descs (pool s).
Proof.
  unfold free. case_decide; [by intros [= _ <-]|].
  destruct (heap s !! p); [by intros [= _ <-]|done].
Qed.

(** *** The number of slots is kept *)

Lemma keeps_bind {A B} (m : M state A) (k : A → M state B) :
  keeps_slots m → (∀ a, keeps_slots (k a)) → keeps_slots (bind m k).
Proof.
  intros Hm Hk s b s2 H. inv_bind H as a s1 Hs.
  rewrite (Hk _ _ _ _ H). by apply (Hm _ _ _ Hs).
Qed.

Lemma keeps_ret {A} (a : A) : keeps_slots (ret a).
Proof. intros s b s' H. by injection H as _ <-. Qed.

Lemma keeps_undef {A} : keeps_slots (@undef state A).
Proof. intros s b s' H. discriminate. Qed.

Lemma keeps_gets {A} (f : state → A) : keeps_slots (gets f).
Proof. intros s b s' H. by injection H as _ <-. Qed.

Lemma keeps_emit e : keeps_slots (emit e).
Proof. intros s b s' H. by injection H as _ <-. Qed.

Lemma keeps_load_msg b : keeps_slots (load_msg b).
Proof.
  intros s m s' H. unfold load_msg in H.
  destruct (heap s !! b) as [[? [?|]]|]; naive_solver.
Qed.

Lemma keeps_ucp_ep_create b : keeps_slots (ucp_ep_create b).
Proof.
  intros s r s' H. unfold ucp_ep_create in H.
  destruct (pop _ _). by injection H as _ <-.
Qed.

Lemma keeps_ucp_tag_send_nbx ep m len tg :
  keeps_slots (ucp_tag_send_nbx ep m len tg).
Proof.
  intros s r s' H. unfold ucp_tag_send_nbx in H.
  destruct (pop _ _). by injection H as _ <-.
Qed.

Lemma keeps_ucp_ep_close_nb ep : keeps_slots (ucp_ep_close_nb ep).
Proof.
  intros s r s' H. unfold ucp_ep_close_nb in H.
  destruct (pop _ _). by injection H as _ <-.
Qed.

Lemma complete_rx_length s c :
  length (descs (pool (complete_rx s c))) = length (descs (pool s)).
Proof.
  unfold complete_rx. destruct (descs (pool s) !! rx_slot c) as [d|]; [|done].
  destruct (completed d); [done|]. cbn. apply length_insert.
Qed.

Lemma foldl_complete_rx_length cs s :
  length (descs (pool (foldl complete_rx s cs))) = length (descs (pool s)).
Proof.
  revert s. induction cs as [|c cs IH]; intros s; [done|].
  cbn. by rewrite IH, complete_rx_length.
Qed.

Lemma keeps_ucp_worker_progress : keeps_slots ucp_worker_progress.
Proof.
  intros s r s' H. unfold ucp_worker_progress in H.
  destruct (pop _ _) as [step rest]. injection H as _ <-.
  cbn. by rewrite foldl_complete_rx_length.
Qed.

Lemma keeps_send_wait script : keeps_slots (send_wait script).
Proof.
  induction script as [|x script IH]; [intros s r s' H; discriminate|].
  cbn. apply keeps_bind; [apply keeps_ucp_worker_progress|].
  intros step. destruct (tx_done step); [apply keeps_ret|apply IH].
Qed.

Lemma keeps_close_wait script : keeps_slots (close_wait script).
Proof.
  induction script as [|x script IH]; [intros s r s' H; discriminate|].
  cbn. apply keeps_bind; [apply keeps_ucp_worker_progress|].
  intros step. destruct (close_done step); [apply keeps_ret|apply IH].
Qed.

Lemma keeps_ep_close ep : keeps_slots (ep_close ep).
Proof.
  unfold ep_close. apply keeps_bind; [apply keeps_ucp_ep_close_nb|].
  intros [| |]; [apply keeps_ret|apply keeps_emit|].
  apply keeps_bind; [apply keeps_gets|]. apply keeps_close_wait.
Qed.

Section Responder.

Variable hdrlen : Z.
Variable sizeof_wireup_msg : Z.

Lemma keeps_process_rx_msg tg b len :
  keeps_slots (process_rx_msg hdrlen sizeof_wireup_msg tg b len).
Proof.
  unfold process_rx_msg. case_decide; [apply keeps_emit|].
  apply keeps_bind; [apply keeps_load_msg|]. intros msg.
  case_decide; [apply keeps_emit|].
  apply keeps_bind; [case_decide; [apply keeps_emit|apply keeps_ret]|].
  intros _. apply keeps_bind; [apply keeps_ucp_ep_create|]. intros r.
  apply keeps_bind.
  { destruct r; [apply keeps_ret|].
    apply keeps_bind; [apply keeps_emit|]. intros _. apply keeps_undef. }
  intros ep. apply keeps_bind; [apply keeps_ucp_tag_send_nbx|]. intros req.
  apply keeps_bind; [|intros _; apply keeps_ep_close].
  destruct req; [apply keeps_emit|apply keeps_emit|].
  apply keeps_bind; [apply keeps_gets|]. intros script.
  apply keeps_bind; [apply keeps_send_wait|]. intros st.
  apply keeps_bind; [case_decide; [apply keeps_emit|apply keeps_ret]|].
  intros _. apply keeps_emit.
Qed.

Local Abbreviation once := (run_server_once hdrlen sizeof_wireup_msg).
Local Abbreviation process := (process_rx_msg hdrlen sizeof_wireup_msg).

(** *** One round of the server *)

Lemma next_slot s i d :
  list_find (λ d, completed d = true) (descs (pool s)) = Some (i, d) →
  rxpool_next s = Ret (Some i) s ∧ load_desc i s = Ret d s.
Proof.
  intros Hf. rewrite rxpool_next_Ret, Hf. split; [done|].
  apply load_desc_Ret. by apply list_find_Some in Hf as [? _].
Qed.

(** The last step of [run_server_once]: the slot is posted again on the
    buffer it holds, and the caller is told to go on. *)
Lemma rearm_inv i r s2 s1 :
  (rdesc <- load_desc i;
   rxdesc_setup (buf rdesc) (buflen rdesc) i;; ret true) s2 = Ret r s1 →
  r = true ∧
  ∃ d2, descs (pool s2) !! i = Some d2 ∧
        s1 = set_trace (trace s2 ++ [EvTagRecv (worker (pool s2)) (buf d2)
                                       (buflen d2) (pool_tag (pool s2))
                                       (pool_tag_mask (pool s2))])
               (set_pool (set_descs (<[i := posted (buf d2) (buflen d2) d2]>
                                       (descs (pool s2))) (pool s2)) s2).
Proof.
  intros H. inv_bind H as d2 s0 Hs. apply load_desc_inv in Hs as (-> & Hd).
  inv_bind H as u s3 Hs. apply rxdesc_setup_inv in Hs as (d3 & Hd3 & ->).
  injection H as <- <-. rewrite Hd in Hd3. injection Hd3 as <-.
  split; [done|]. by exists d2.
Qed.

(** A fatal status: the status is printed and the caller is told to stop. *)
Lemma run_server_once_fatal s i d code :
  list_find (λ d, completed d = true) (descs (pool s)) = Some (i, d) →
  status d = UCS_OTHER code →
  once s = Ret false
             (set_trace (trace s ++ [EvPrintf "receive error, %s, exiting."
                                       [AStatus (UCS_OTHER code)]]) s).
Proof.
  intros Hf Hst. apply next_slot in Hf as [Hn Hd].
  unfold run_server_once.
  erewrite bind_Ret by exact Hn. cbn beta iota.
  erewrite bind_Ret by exact Hd.
  rewrite Hst. reflexivity.
Qed.

(** A truncated receive: a buffer of [nbuflen] bytes replaces the old one,
    which is freed, and the slot is posted again on the pool's tag. *)
Lemma run_server_once_truncated s i d :
  list_find (λ d, completed d = true) (descs (pool s)) = Some (i, d) →
  status d = UCS_ERR_MESSAGE_TRUNCATED →
  head (malloc_oracle s) ≠ Some false →
  buf d ≠ NULL → is_Some (heap s !! buf d) →
  let n := nbuflen hdrlen (buflen d) in
  let p := fresh_ptr (dom (heap s)) in
  ∃ s1, once s = Ret true s1 ∧
        pool s1 = set_descs (<[i := posted p n d]> (descs (pool s))) (pool s) ∧
        heap s1 = delete (buf d)
                    (<[p := {| blk_size := n; blk_msg := None |}]> (heap s)) ∧
        ucx s1 = ucx s ∧
        trace s1 = trace s ++
          [EvPrintf "run_server_once: truncated desc %p buf %p buflen %zu"
             [AInt (Z.of_nat i); APtr (buf d); AInt (buflen d)];
           EvPrintf "increasing buffer length %zu -> %zu bytes."
             [AInt (buflen d); AInt n];
           EvMalloc n p; EvFree (buf d);
           EvTagRecv (worker (pool s)) p n (pool_tag (pool s))
             (pool_tag_mask (pool s))].
Proof.
  intros Hf Hst Ho Hb [blk Hl] n p.
  pose proof Hf as Hf'. apply next_slot in Hf' as [Hn Hd].
  apply list_find_Some in Hf as (Hi & _ & _).
  assert (p ≠ NULL) as Hpn by apply fresh_ptr_not_null.
  assert (p ≠ buf d) as Hpb.
  { intros E. apply (fresh_ptr_not_live (dom (heap s))). fold p. rewrite E.
    apply elem_of_dom. eauto. }
  unfold run_server_once.
  erewrite bind_Ret by exact Hn. cbn beta iota.
  erewrite bind_Ret by exact Hd.
  rewrite Hst. fold n.
  erewrite bind_Ret; last first.
  { erewrite bind_Ret by reflexivity.
    erewrite bind_Ret by reflexivity.
    erewrite bind_Ret by (by apply rx_malloc_Ret).
    cbn [heap set_trace set_heap set_malloc_oracle trace]. fold p.
    rewrite decide_False by done.
    erewrite bind_Ret by reflexivity.
    erewrite bind_Ret; last first.
    { eapply rx_free_Ret; [done|]. cbn. rewrite lookup_insert_ne by done. exact Hl. }
    reflexivity. }
  cbn beta iota.
  erewrite bind_Ret; last first.
  { apply load_desc_Ret. cbn. apply list_lookup_insert_eq.
    by eapply lookup_lt_Some. }
  erewrite bind_Ret; last first.
  { eapply rxdesc_setup_Ret. cbn. apply list_lookup_insert_eq.
    by eapply lookup_lt_Some. }
  eexists. split; [reflexivity|]. cbn.
  rewrite list_insert_insert_eq. unfold posted, set_descs. cbn.
  rewrite Hst. split; [done|]. split; [done|]. split; [done|].
  by rewrite <- !app_assoc.
Qed.

(** C2, as the code has it.  When a slot completes with a truncated
    message (and the allocation succeeds), the new capacity is
    [twice_or_max] of the old one minus one header length: the header plus
    twice the old payload room, which is less than twice the old capacity.
    With a capacity of at least one header it does not wrap, and below half
    the maximum size it does not shrink.  A buffer of that capacity is
    allocated, the old buffer is freed, and the slot is posted again on the
    new buffer with the pool's tag. *)
Theorem regrow_capacity s i d :
  list_find (λ d, completed d = true) (descs (pool s)) = Some (i, d) →
  status d = UCS_ERR_MESSAGE_TRUNCATED →
  head (malloc_oracle s) ≠ Some false →
  buf d ≠ NULL → is_Some (heap s !! buf d) →
  0 < hdrlen → hdrlen ≤ buflen d → buflen d ≤ SIZE_MAX →
  let n := Z.min (2 * buflen d) SIZE_MAX - hdrlen in
  let p := fresh_ptr (dom (heap s)) in
  ∃ s1, once s = Ret true s1 ∧
        0 ≤ n ≤ SIZE_MAX ∧ n < 2 * buflen d ∧
        (buflen d ≤ SIZE_MAX / 2 →
           n = hdrlen + 2 * (buflen d - hdrlen) ∧ buflen d ≤ n) ∧
        descs (pool s1) !! i = Some (posted p n d) ∧
        pool_tag (pool s1) = pool_tag (pool s) ∧
        heap s1 !! p = Some {| blk_size := n; blk_msg := None |} ∧
        heap s1 !! buf d = None ∧
        trace s1 = trace s ++
          [EvPrintf "run_server_once: truncated desc %p buf %p buflen %zu"
             [AInt (Z.of_nat i); APtr (buf d); AInt (buflen d)];
           EvPrintf "increasing buffer length %zu -> %zu bytes."
             [AInt (buflen d); AInt n];
           EvMalloc n p; EvFree (buf d);
           EvTagRecv (worker (pool s)) p n (pool_tag (pool s))
             (pool_tag_mask (pool s))].
Proof.
  intros Hf Hst Ho Hb Hl H0 H1 H2 n p.
  destruct (nbuflen_no_wrap hdrlen (buflen d)) as [Hn Hr]; [lia|done|done|].
  fold n in Hn.
  destruct (run_server_once_truncated s i d Hf Hst Ho Hb Hl)
    as (s1 & Hrun & Hpool & Hheap & _ & Htr).
  cbv zeta in Hpool, Hheap, Htr.
  rewrite Hn in Hpool, Hheap, Htr. fold p in Hpool, Hheap, Htr.
  apply list_find_Some in Hf as (Hi & _ & _).
  assert (p ≠ buf d) as Hpb.
  { intros E. apply (fresh_ptr_not_live (dom (heap s))). fold p. rewrite E.
    by apply elem_of_dom. }
  exists s1. split; [done|]. split; [lia|].
  split; [rewrite <- Hn; by apply nbuflen_less_than_twice|].
  split; [intros Hh; rewrite <- Hn; apply nbuflen_payload_doubled; lia|].
  split.
  { rewrite Hpool. cbn. apply list_lookup_insert_eq. by eapply lookup_lt_Some. }
  split; [by rewrite Hpool|].
  split; [rewrite Hheap, lookup_delete_ne by done; apply lookup_insert_eq|].
  split; [rewrite Hheap; apply lookup_delete_eq|done].
Qed.

(** *** The serving loop *)

Lemma ucp_worker_progress_total s :
  ucp_worker_progress s = Ret (fst (pop idle_step (progress_script (ucx s))))
                            (after ucp_worker_progress s).
Proof.
  unfold after, ucp_worker_progress. by destruct (pop _ _).
Qed.


End Responder.



Lemma regrow_capacity_witness :
  ∃ s1, ex_run_server_once ex_truncated = Ret true s1 ∧
        descs (pool s1) !! 1%nat =
          Some {| status := UCS_ERR_MESSAGE_TRUNCATED; rxlen := 117;
                  sender_tag := 17; buf := 4; buflen := 210;
                  completed := false |} ∧
        heap s1 !! 4 = Some {| blk_size := 210; blk_msg := None |} ∧
        heap s1 !! 2 = None.
Proof.
  edestruct (regrow_capacity ex_hdrlen ex_sizeof_wireup_msg ex_truncated)
    as (s1 & Hrun & _ & _ & _ & Hd & _ & Hp & Hb & _).
  - by vm_compute.
  - reflexivity.
  - by vm_compute.
  - by vm_compute.
  - vm_compute. eauto.
  - by vm_compute.
  - by vm_compute.
  - by vm_compute.
  - exists s1. split; [exact Hrun|]. split; [exact Hd|]. split; [exact Hp|exact Hb].
Defined.

(** C2 on the code: a truncated slot of 117 bytes is regrown to 210 bytes,
    which is neither twice 117 nor the maximum size. *)
Lemma regrow_not_doubled :
  ∃ s1 d1, (buflen <$> descs (pool ex_truncated) !! 1%nat) = Some 117 ∧
           ex_run_server_once ex_truncated = Ret true s1 ∧
           descs (pool s1) !! 1%nat = Some d1 ∧ buflen d1 = 210 ∧
           ¬ spec_regrow 117 210.
Proof.
  do 2 eexists. split; [by vm_compute|]. split; [by vm_compute|].
  split; [by vm_compute|]. split; [by vm_compute|].
  unfold spec_regrow. rewrite SIZE_MAX_eq. lia.
Qed.


(** *** The responder *)

Section Malformed.

Variable hdrlen : Z.
Variable sizeof_wireup_msg : Z.

(** A message shorter than the header is dropped with a warning: nothing
    is sent. *)
Lemma process_rx_msg_short_header tg b len s :
  len < hdrlen →
  process_rx_msg hdrlen sizeof_wireup_msg tg b len s
  = Ret tt (set_trace
              (trace s ++
               [EvWarnx "process_rx_msg: dropping %zu-byte message, shorter than header"
                  [AInt len]]) s).
Proof. intros H. unfold process_rx_msg. by rewrite decide_True. Qed.

(** A message whose operation is not a request is dropped with a warning:
    nothing is sent. *)
Lemma process_rx_msg_unexpected_op tg b len s size m :
  hdrlen ≤ len →
  heap s !! b = Some {| blk_size := size; blk_msg := Some m |} →
  op m ≠ OP_REQ →
  process_rx_msg hdrlen sizeof_wireup_msg tg b len s
  = Ret tt (set_trace
              (trace s ++
               [EvWarnx "process_rx_msg: received unexpected %s-type op"
                  [AOp (op m)]]) s).
Proof.
  intros H Hb Hop. unfold process_rx_msg. rewrite decide_False by lia.
  erewrite bind_Ret; last first.
  { unfold load_msg. rewrite Hb. reflexivity. }
  by rewrite decide_True.
Qed.

(** A request whose announced address is longer than what was delivered:
    the warning is printed, and then the endpoint is created and the
    acknowledgement sent as for a well-formed request.  (Here for a
    transport that answers every call at once.) *)
Lemma process_rx_msg_address_truncated tg b len s size m :
  hdrlen ≤ len →
  heap s !! b = Some {| blk_size := size; blk_msg := Some m |} →
  op m = OP_REQ →
  len < wrap_size (hdrlen + addrlen m) →
  ep_results (ucx s) = [] → send_results (ucx s) = [] →
  close_results (ucx s) = [] →
  ∃ s1, process_rx_msg hdrlen sizeof_wireup_msg tg b len s = Ret tt s1 ∧
        trace s1 = trace s ++
          [EvWarnx "process_rx_msg: dropping %zu-byte message, address truncated"
             [AInt len];
           EvEpCreate b (EpOk 1);
           EvTagSend 1 ex_ack sizeof_wireup_msg tg ReqOk;
           EvPrintf "send succeeded immediately, exiting." [];
           EvEpClose 1 ReqOk].
Proof.
  intros H Hb Hop Hlen He Hs Hc. unfold process_rx_msg.
  rewrite decide_False by lia.
  erewrite bind_Ret; last first.
  { unfold load_msg. rewrite Hb. reflexivity. }
  rewrite decide_False by (rewrite Hop; tauto).
  rewrite decide_True by done.
  erewrite bind_Ret by reflexivity.
  erewrite bind_Ret; last first.
  { unfold ucp_ep_create. cbn. rewrite He. reflexivity. }
  erewrite bind_Ret by reflexivity.
  erewrite bind_Ret; last first.
  { unfold ucp_tag_send_nbx. cbn. rewrite Hs. reflexivity. }
  erewrite bind_Ret by reflexivity.
  unfold ep_close.
  erewrite bind_Ret; last first.
  { unfold ucp_ep_close_nb. cbn. rewrite Hc. reflexivity. }
  eexists. split; [reflexivity|]. cbn. by rewrite <- !app_assoc.
Qed.

End Malformed.

(** C3 on the code.  The buffer holds a request of 24 bytes, exactly one
    header, that announces an address of 8 bytes: the address is cut off.
    [process_rx_msg] prints that it is dropping the message, and then
    answers it all the same: the endpoint is created from the cut-off
    address and the acknowledgement is sent. *)
Theorem truncated_address_is_answered :
  heap ex_request !! 1 = Some {| blk_size := 117; blk_msg := Some (ex_req 8) |} ∧
  24 < ex_hdrlen + addrlen (ex_req 8) ∧
  ∃ s1, ex_process_rx_msg 17 1 24 ex_request = Ret tt s1 ∧
        trace s1 =
          [EvWarnx "process_rx_msg: dropping %zu-byte message, address truncated"
             [AInt 24];
           EvEpCreate 1 (EpOk 1);
           EvTagSend 1 ex_ack 24 17 ReqOk;
           EvPrintf "send succeeded immediately, exiting." [];
           EvEpClose 1 ReqOk] ∧
        replies (trace s1) = [EvTagSend 1 ex_ack 24 17 ReqOk].
Proof.
  split; [by vm_compute|]. split; [by vm_compute|].
  eexists. by_evaluation.
Qed.


End RepliesProofs.

Module HandlerExtras.
Import Handler HandlerProofs.
Local Open Scope c_scope.

Lemma get_input_inv h inp s r s1 :
  fs_handler_get_input h inp s = Ret r s1 →
  ∃ v, h ≠ NULL ∧ heap s !! h = Some (OHandle v) ∧
    ((¬ owns_input v ∧ r = S_SUCCESS ∧ s1 = s) ∨
     (owns_input v ∧ ∃ fm, handler_func_map s = Some fm ∧
        match fm !! id v with
        | None =>
          r = S_FAIL ∧
          s1 = set_trace (trace s ++ [EvError "func_map_lookup failed"]) s
        | Some info =>
          r = S_SUCCESS ∧
          heap s1 = <[h := OHandle (set_recv_buf NULL (set_dec_proc NULL v))]>
                      (delete (recv_buf v) (delete (dec_proc v) (heap s))) ∧
          trace s1 = trace s ++ [EvDecode (dec_routine info) (dec_proc v) inp;
                                 EvProcFree (dec_proc v); EvFree (recv_buf v)] ∧
          na_addrs s1 = na_addrs s ∧
          handler_func_map s1 = handler_func_map s ∧
          handler_network_class s1 = handler_network_class s ∧
          inbox s1 = inbox s ∧ malloc_oracle s1 = malloc_oracle s ∧
          dec_proc v ≠ h ∧ recv_buf v ≠ h ∧
          (∃ pr, heap s !! dec_proc v = Some (OProc pr)) ∧
          is_Some (heap s !! recv_buf v)
        end)).
Proof.
  unfold fs_handler_get_input at 1. intros H.
  inv_bind H as v s0 Hs. apply load_handle_inv in Hs as (-> & Hn & Hh).
  exists v. split; [done|]. split; [done|].
  case_decide as Hown.
  2:{ left. by injection H as <- <-. }
  right. split; [done|].
  inv_bind H as r0 s0 Hs. apply func_map_lookup_inv in Hs as (-> & fm & Hfm & ->).
  exists fm. split; [done|].
  destruct (fm !! id v) as [info|] eqn:Hl.
  2:{ inv_bind H as u s0 Hs. injection H as <- <-.
      by cbv [S_ERROR_DEFAULT emit modify] in Hs; injection Hs as <-. }
  inv_bind H as u1 s2 Hs. rewrite emit_Ret in Hs. injection Hs as <- <-.
  inv_bind H as u2 s3 Hs. apply fs_proc_free_inv in Hs as (pr & Hp & ->).
  inv_bind H as u3 s4 Hs. apply update_handle_inv in Hs as (v1 & _ & Hh1 & ->).
  inv_bind H as u4 s5 Hs. apply free_inv in Hs as [[? _]|(_ & Hb & ->)];
    [unfold owns_input in Hown; tauto|].
  inv_bind H as u5 s6 Hs. apply update_handle_inv in Hs as (v2 & _ & Hh2 & ->).
  injection H as <- <-. cbn in *.
  assert (dec_proc v ≠ h) as Hne1 by (intros E; rewrite E, Hh in Hp; done).
  rewrite lookup_delete_ne, Hh in Hh1 by done. injection Hh1 as <-.
  assert (recv_buf v ≠ h) as Hne2.
  { intros E. rewrite E, lookup_delete_eq in Hh2. done. }
  rewrite lookup_delete_ne, lookup_insert_eq in Hh2 by done.
  injection Hh2 as <-.
  rewrite lookup_insert_ne, lookup_delete in Hb by done.
  case_decide as Hne3; [by destruct Hb|].
  split; [done|]. split.
  { rewrite delete_insert_ne by done. by rewrite insert_insert_eq. }
  split; [by rewrite <- !app_assoc|].
  repeat (split; [done|]). split; [eauto|done].
Qed.

(** X4.  A successful [fs_handler_get_input] on a handle that owns its
    input releases the decode context and the receive buffer and nothing
    else: the heap afterwards is the heap before without these two, with
    the two references of the handle cleared and its id, address, tag and
    [in_struct] as they were; peer addresses and registry are untouched. *)
Theorem get_input_releases_only_the_input h inp s s1 v :
  fs_handler_get_input h inp s = Ret S_SUCCESS s1 →
  heap s !! h = Some (OHandle v) → owns_input v →
  heap s1 = <[h := OHandle {| id := id v; addr := addr v; tag := tag v;
                              dec_proc := NULL; recv_buf := NULL;
                              in_struct := in_struct v |}]>
              (delete (recv_buf v) (delete (dec_proc v) (heap s))) ∧
  na_addrs s1 = na_addrs s ∧
  handler_func_map s1 = handler_func_map s.
Proof.
  intros H Hh Hown.
  apply get_input_inv in H as (v' & _ & Hh' & [(Hno & _)|(_ & fm & Hfm & H)]).
  - rewrite Hh in Hh'. by injection Hh' as <-.
  - rewrite Hh in Hh'. injection Hh' as <-.
    destruct (fm !! id v); [|by destruct H].
    by destruct H as (_ & Hheap & _ & Ha & Hf & _).
Qed.


Lemma malloc_fail n s :
  head (malloc_oracle s) = Some false →
  malloc n s = Ret NULL (set_trace (trace s ++ [EvMalloc n NULL])
                           (set_malloc_oracle (tail (malloc_oracle s)) s)).
Proof. unfold malloc. by destruct (malloc_oracle s) as [|[] o]. Qed.

Section Complete.
Variable na_get_unexpected_size : ptr → Z.
Variable iofsl_compat_get_size_status : Z.
Local Abbreviation complete :=
  (fs_handler_complete na_get_unexpected_size iofsl_compat_get_size_status).

Lemma complete_success_frame h out s s1 :
  complete h out s = Ret S_SUCCESS s1 →
  ∃ v, heap s !! h = Some (OHandle v) ∧
       in_struct v ≠ h ∧
       heap s1 = delete h (if decide (in_struct v = NULL) then heap s
                           else delete (in_struct v) (heap s)) ∧
       na_addrs s1 = na_addrs s ∖ {[addr v]} ∧
       handler_func_map s1 = handler_func_map s ∧
       handler_network_class s1 = handler_network_class s ∧
       inbox s1 = inbox s ∧
       malloc_oracle s1 = tail (malloc_oracle s).
Proof.
  unfold fs_handler_complete. intros H.
  inv_bind H as nc s0 Hs. injection Hs as <- <-.
  inv_bind H as v s0 Hs. apply load_handle_inv in Hs as (-> & Hn & Hh).
  inv_bind H as r s0 Hs. apply func_map_lookup_inv in Hs as (-> & fm & Hfm & ->).
  destruct (fm !! id v) as [info|] eqn:Hl.
  2:{ inv_bind H as u s0 Hs. discriminate. }
  inv_bind H as p s2 Hs.
  apply malloc_inv in Hs as [(_ & Hp & ->)|(_ & -> & ->)].
  2:{ rewrite decide_True in H by done. inv_bind H as u s0 Hs. discriminate. }
  assert (p ≠ NULL) as Hpn by (rewrite Hp; apply fresh_ptr_not_null).
  assert (heap s !! p = None) as Hpf by (rewrite Hp; apply fresh_ptr_live_lookup).
  clear Hp. rewrite decide_False in H by done.
  inv_bind H as u1 s3 Hs. rewrite emit_Ret in Hs. injection Hs as <- <-.
  inv_bind H as q0 s4 Hs. unfold fs_proc_create in Hs. cbv zeta in Hs.
  match type of Hs with Ret (fresh_ptr (live ?s')) _ = _ =>
    pose proof (fresh_ptr_live_lookup s') as Hqf;
    set (q := fresh_ptr (live s')) in *
  end.
  clearbody q. injection Hs as <- <-. cbn in Hqf.
  inv_bind H as u2 s5 Hs. rewrite emit_Ret in Hs. injection Hs as <- <-.
  inv_bind H as u3 s6 Hs. rewrite emit_Ret in Hs. injection Hs as <- <-.
  inv_bind H as u4 s7 Hs. rewrite emit_Ret in Hs. injection Hs as <- <-.
  inv_bind H as u5 s8 Hs. apply fs_proc_free_inv in Hs as (pr & _ & ->).
  inv_bind H as u6 s9 Hs. apply free_inv in Hs as [[? _]|(_ & _ & ->)]; [done|].
  inv_bind H as u7 s10 Hs. unfold na_addr_free in Hs. injection Hs as <- <-.
  inv_bind H as u8 s11 Hs. apply update_handle_inv in Hs as (v1 & _ & Hv1 & ->).
  inv_bind H as u9 s12 Hs.
  inv_bind H as u10 s13 Hs1.
  inv_bind H as u11 s14 Hs2.
  injection H as <-.
  apply free_inv in Hs2 as [[? _]|(_ & _ & ->)]; [done|].
  apply update_handle_inv in Hs1 as (v2 & _ & Hv2 & ->).
  rename q into q0.
  assert (delete p (delete q0 (<[q0:=OProc
            {| proc_base := p; proc_off := iofsl_compat_get_size_status;
               proc_len := wrap_size (na_get_unexpected_size (handler_network_class s)
                                      - iofsl_compat_get_size_status);
               proc_op := FS_ENCODE |}]>
            (<[p:=OBuf (na_get_unexpected_size (handler_network_class s)) []]>
               (heap s)))) = heap s) as Htmp.
  { rewrite delete_insert_id by done. by rewrite delete_insert_id. }
  cbn in Hv1, Hs. rewrite Htmp in Hv1, Hs.
  rewrite Hh in Hv1. injection Hv1 as <-.
  exists v. split; [done|].
  apply free_inv in Hs as [[E ->]|(E & Hi & ->)]; cbn in Hv2 |- *.
  - rewrite decide_True by done.
    split; [rewrite E; done|].
    split; [by rewrite !delete_insert_eq|done].
  - rewrite decide_False by done.
    assert (in_struct v ≠ h) as Hih.
    { intros Eh. by rewrite Eh, lookup_delete_eq in Hv2. }
    split; [done|]. split; [|done].
    rewrite delete_insert_eq, (delete_insert_ne _ (in_struct v)) by done.
    by rewrite delete_insert_eq.
Qed.

(** X1.  [fs_handler_complete] changes nothing when it fails: if the
    operation of the handle is not registered, or if the send buffer cannot
    be allocated, the call returns [S_FAIL] with the heap, the peer
    addresses and the registry as they were; the handle is still valid,
    nothing was sent and nothing released. *)
Theorem complete_failure_is_atomic h out s v fm :
  h ≠ NULL → heap s !! h = Some (OHandle v) →
  handler_func_map s = Some fm →
  fm !! id v = None ∨ head (malloc_oracle s) = Some false →
  ∃ s1, complete h out s = Ret S_FAIL s1 ∧
        heap s1 = heap s ∧ na_addrs s1 = na_addrs s ∧
        handler_func_map s1 = handler_func_map s ∧
        sends (trace s1) = sends (trace s) ∧
        releases (trace s1) = releases (trace s).
Proof.
  intros Hn Hh Hfm Hwhy. unfold fs_handler_complete.
  erewrite bind_Ret by reflexivity.
  erewrite bind_Ret by by apply load_handle_Ret.
  erewrite bind_Ret by by apply func_map_lookup_Ret.
  destruct (fm !! id v) as [info|] eqn:Hl.
  - destruct Hwhy as [?|Ho]; [done|].
    erewrite bind_Ret by by apply malloc_fail.
    rewrite decide_True by done.
    eexists. split; [reflexivity|]. cbn.
    unfold sends, releases. rewrite !List.filter_app. cbn.
    by rewrite !app_nil_r.
  - eexists. split; [reflexivity|]. cbn.
    unfold sends, releases. rewrite !List.filter_app. cbn.
    by rewrite !app_nil_r.
Qed.

(** X2.  A successful [fs_handler_complete] leaves no temporary behind: the
    send buffer and the encoding proc it allocated are freed again, and the
    heap afterwards is the heap before without the handle (and without the
    handle's [in_struct], when it has one); the peer address of the handle
    is released and the registry is untouched. *)
Theorem complete_releases_what_it_allocates h out s s1 v :
  complete h out s = Ret S_SUCCESS s1 →
  heap s !! h = Some (OHandle v) →
  heap s1 = delete h (if decide (in_struct v = NULL) then heap s
                      else delete (in_struct v) (heap s)) ∧
  na_addrs s1 = na_addrs s ∖ {[addr v]} ∧
  handler_func_map s1 = handler_func_map s.
Proof.
  intros H Hh.
  apply complete_success_frame in H as (v' & Hh' & _ & Hheap & Ha & Hf & _).
  rewrite Hh in Hh'. injection Hh' as <-. done.
Qed.

(** X3.  [fs_handler_complete] never releases the receive buffer or the
    decode context: completing a handle whose input was not taken frees the
    handle and leaves both allocated, with no reference to them left. *)
Theorem complete_leaves_untaken_input h out s s1 v size data pr :
  complete h out s = Ret S_SUCCESS s1 →
  heap s !! h = Some (OHandle v) →
  heap s !! recv_buf v = Some (OBuf size data) →
  heap s !! dec_proc v = Some (OProc pr) →
  in_struct v = NULL →
  heap s1 !! h = None ∧
  heap s1 !! recv_buf v = Some (OBuf size data) ∧
  heap s1 !! dec_proc v = Some (OProc pr).
Proof.
  intros H Hh Hb Hp Hi.
  apply complete_success_frame in H as (v' & Hh' & _ & Hheap & _).
  rewrite Hh in Hh'. injection Hh' as <-.
  rewrite decide_True in Hheap by done. rewrite Hheap.
  assert (recv_buf v ≠ h) by (intros E; rewrite E, Hh in Hb; done).
  assert (dec_proc v ≠ h) by (intros E; rewrite E, Hh in Hp; done).
  split; [apply lookup_delete_eq|].
  by rewrite !lookup_delete_ne.
Qed.

End Complete.

Lemma na_recv_unexpected_state b len r s s' :
  na_recv_unexpected b len s = Ret r s' →
  ∃ m rest size old,
    inbox s = m :: rest ∧ b ≠ NULL ∧ heap s !! b = Some (OBuf size old) ∧
    r = (Z.of_nat (length (take (Z.to_nat len) (msg_data m))),
         msg_src m, msg_tag m) ∧
    s' = set_trace (trace s ++
                    [EvRecvUnexpected (handler_network_class s) b
                       (Z.of_nat (length (take (Z.to_nat len) (msg_data m))))
                       (msg_src m) (msg_tag m)])
           (set_inbox rest
              (set_na_addrs ({[msg_src m]} ∪ na_addrs s)
                 (set_heap (<[b := OBuf size (take (Z.to_nat len) (msg_data m))]>
                              (heap s)) s))).
Proof.
  unfold na_recv_unexpected. destruct (inbox s) as [|m rest]; [done|].
  case_decide as Hb; [done|].
  destruct (heap s !! b) as [[| |size old]|]; try done.
  intros Hr. injection Hr as <- <-. by exists m, rest, size, old.
Qed.

Section Receive.

Variable na_get_unexpected_size : ptr → Z.
Variable iofsl_compat_get_size_id : Z.
Variable decode_uint32 : list Z → Z.
Variable sizeof_fs_priv_handle : Z.
Variable call_fs_routine : ptr → ptr → M state unit.

Local Abbreviation receive :=
  (fs_handler_receive na_get_unexpected_size iofsl_compat_get_size_id
     decode_uint32 sizeof_fs_priv_handle call_fs_routine).

Lemma receive_inv s r s1 :
  receive s = Ret r s1 →
  ∃ h b q m rest fm s_mid,
    inbox s = m :: rest ∧ handler_func_map s = Some fm ∧
    h ≠ NULL ∧ b ≠ NULL ∧ q ≠ NULL ∧
    heap s !! h = None ∧ heap s !! b = None ∧ heap s !! q = None ∧
    b ≠ h ∧ q ≠ h ∧ q ≠ b ∧
    let nc := handler_network_class s in
    let data := take (Z.to_nat (na_get_unexpected_size nc)) (msg_data m) in
    let len := Z.of_nat (length data) in
    let op_id :=
      decode_uint32 (take 4 (drop (Z.to_nat iofsl_compat_get_size_id) data)) in
    let v := {| id := op_id; addr := msg_src m; tag := msg_tag m;
                dec_proc := q; recv_buf := b; in_struct := NULL |} in
    let pr := {| proc_base := b; proc_off := iofsl_compat_get_size_id;
                 proc_len := wrap_size (len - iofsl_compat_get_size_id);
                 proc_op := FS_DECODE |} in
    heap s_mid = <[h := OHandle v]>
                   (<[q := OProc pr]>
                      (<[b := OBuf (na_get_unexpected_size nc) data]> (heap s))) ∧
    na_addrs s_mid = {[msg_src m]} ∪ na_addrs s ∧
    inbox s_mid = rest ∧ handler_func_map s_mid = Some fm ∧
    handler_network_class s_mid = nc ∧
    malloc_oracle s_mid = tail (tail (malloc_oracle s)) ∧
    trace s_mid = trace s ++
      [EvMalloc sizeof_fs_priv_handle h; EvMalloc (na_get_unexpected_size nc) b;
       EvRecvUnexpected nc b len (msg_src m) (msg_tag m);
       EvCompatDecId b len;
       EvProcCreate b iofsl_compat_get_size_id
         (wrap_size (len - iofsl_compat_get_size_id)) FS_DECODE q] ∧
    match fm !! op_id with
    | None =>
      r = S_FAIL ∧
      s1 = set_trace (trace s_mid ++ [EvError "func_map_lookup failed"]) s_mid
    | Some info =>
      r = S_SUCCESS ∧
      call_fs_routine (fs_routine info) h
        (set_trace (trace s_mid ++ [EvExecute (fs_routine info) h]) s_mid)
      = Ret tt s1
    end.
Proof.
  unfold fs_handler_receive. intros H.
  inv_bind H as h s2 Hs.
  apply malloc_inv in Hs as [(_ & Hh & ->)|(_ & -> & ->)].
  2:{ inv_bind H as u s0 Hs. by apply init_handle_inv in Hs as [? _]. }
  assert (heap s !! h = None) as Hhf by (rewrite Hh; apply fresh_ptr_live_lookup).
  clear Hh.
  inv_bind H as u1 s3 Hs. apply init_handle_inv in Hs as (Hhn & ->).
  inv_bind H as nc s4 Hs. injection Hs as <- <-.
  inv_bind H as b s5 Hs. cbn in Hs.
  apply malloc_inv in Hs as [(_ & Hb & ->)|(_ & -> & ->)].
  2:{ inv_bind H as u s0 Hs. inv_bind H as r0 s6 Hs'.
      apply update_handle_inv in Hs as (? & _ & _ & ->).
      by apply na_recv_unexpected_inv in Hs' as (? & ? & ? & ? & _ & ? & _). }
  match type of Hb with _ = fresh_ptr (live ?s') =>
    pose proof (fresh_ptr_live_lookup s') as Hbf; rewrite <- Hb in Hbf end.
  clear Hb. cbn in Hbf.
  assert (b ≠ h) as Hbh by (intros ->; by rewrite lookup_insert_eq in Hbf).
  rewrite !lookup_insert_ne in Hbf by done.
  inv_bind H as u2 s6 Hs. apply update_handle_inv in Hs as (v1 & _ & Hv1 & ->).
  cbn in Hv1. rewrite lookup_insert_ne, lookup_insert_eq in Hv1 by done.
  injection Hv1 as <-.
  inv_bind H as r0 s7 Hs.
  apply na_recv_unexpected_state in Hs
    as (m & rest & size & old & Hin & Hbn & Hbl & -> & ->).
  cbn in Hin, Hbl. rewrite lookup_insert_ne, lookup_insert_eq in Hbl by done.
  injection Hbl as <- <-.
  inv_bind H as u3 s8 Hs. apply update_handle_inv in Hs as (v2 & _ & Hv2 & ->).
  cbn in Hv2. rewrite lookup_insert_ne, lookup_insert_eq in Hv2 by done.
  injection Hv2 as <-.
  inv_bind H as u4 s9 Hs. apply update_handle_inv in Hs as (v3 & _ & Hv3 & ->).
  cbn in Hv3. rewrite lookup_insert_eq in Hv3. injection Hv3 as <-.
  inv_bind H as u5 s10 Hs. rewrite emit_Ret in Hs. injection Hs as <- <-.
  inv_bind H as q0 s11 Hs. unfold fs_proc_create in Hs. cbv zeta in Hs.
  match type of Hs with Ret (fresh_ptr (live ?s')) _ = _ =>
    pose proof (fresh_ptr_live_lookup s') as Hqf;
    pose proof (fresh_ptr_not_null (live s')) as Hqn;
    set (q := fresh_ptr (live s')) in *
  end.
  clearbody q. injection Hs as <- <-. cbn in Hqf.
  assert (q ≠ h) as Hqh by (intros ->; by rewrite lookup_insert_eq in Hqf).
  rewrite !lookup_insert_ne in Hqf by done.
  assert (q ≠ b) as Hqb by (intros ->; by rewrite lookup_insert_eq in Hqf).
  rewrite !lookup_insert_ne in Hqf by done.
  inv_bind H as u6 s12 Hs. apply update_handle_inv in Hs as (v4 & _ & Hv4 & ->).
  cbn in Hv4. rewrite lookup_insert_ne, lookup_insert_eq in Hv4 by done.
  injection Hv4 as <-.
  inv_bind H as op_id s13 Hs.
  unfold fs_proc_uint32_t, proc_bytes, bind, ret in Hs. cbn in Hs.
  rewrite lookup_insert_ne, lookup_insert_eq in Hs by done. cbn in Hs.
  rewrite !lookup_insert_ne, lookup_insert_eq in Hs by done.
  case_decide as Hfour; [|discriminate].
  injection Hs as <- <-.
  inv_bind H as u7 s14 Hs. apply update_handle_inv in Hs as (v5 & _ & Hv5 & ->).
  cbn in Hv5. rewrite lookup_insert_eq in Hv5. injection Hv5 as <-.
  inv_bind H as r1 s15 Hs. apply func_map_lookup_inv in Hs as (-> & fm & Hfm & ->).
  cbn in Hfm.
  exists h, b, q, m, rest, fm.
  match type of H with _ ?S = Ret _ _ => exists S end.
  repeat (split; [done|]). cbn zeta.
  split; [|split; [|split; [|split; [|split; [|split; [|split]]]]]]; last first.
  - destruct (fm !! _) as [info|] eqn:Hl.
    + inv_bind H as u8 s16 Hs. rewrite emit_Ret in Hs. injection Hs as <- <-.
      inv_bind H as u9 s17 Hs. injection H as <- <-. destruct u9.
      split; [done|]. exact Hs.
    + inv_bind H as u8 s16 Hs.
      cbv [S_ERROR_DEFAULT emit modify] in Hs. injection Hs as <- <-.
      injection H as <- <-. split; reflexivity.
  - cbn. by rewrite <- !app_assoc.
  - cbn. done.
  - done.
  - done.
  - done.
  - done.
  - cbn. apply map_eq. intros k. rewrite !lookup_insert.
    repeat case_decide; simplify_eq; done.
Qed.

Import HandlerUse.

(** X5.  [fs_handler_receive] dispatches on the registry.  For a message
    that is delivered with at least four bytes behind the legacy id, so
    that it carries an operation id: the call fails exactly when that id is
    not registered, and otherwise it calls the registered executor, once,
    on a handle that carries the operation id, the sender's address and
    tag, the receive buffer with the delivered bytes and a decode context
    placed behind the legacy id; [fs_handler_get_addr] on that handle gives
    the sender's address; the result of the executor is ignored. *)
Theorem receive_dispatches_on_registry s r s1 m rest fm op_id :
  receive s = Ret r s1 → inbox s = m :: rest → handler_func_map s = Some fm →
  let limit := na_get_unexpected_size (handler_network_class s) in
  message_op_id decode_uint32 limit iofsl_compat_get_size_id m = Some op_id →
  match fm !! op_id with
  | None => r = S_FAIL
  | Some info =>
    r = S_SUCCESS ∧
    ∃ h b q s2,
      heap s2 !! h = Some (OHandle (received_handle op_id m b q)) ∧
      heap s2 !! b = Some (OBuf limit (delivered limit m)) ∧
      heap s2 !! q =
        Some (OProc {| proc_base := b; proc_off := iofsl_compat_get_size_id;
                       proc_len := wrap_size (Z.of_nat (length (delivered limit m))
                                              - iofsl_compat_get_size_id);
                       proc_op := FS_DECODE |}) ∧
      last (trace s2) = Some (EvExecute (fs_routine info) h) ∧
      fs_handler_get_addr h s2 = Ret (msg_src m) s2 ∧
      call_fs_routine (fs_routine info) h s2 = Ret tt s1
  end.
Proof.
  intros H Hin Hfm limit Hop.
  unfold message_op_id, delivered in Hop. case_decide; [|done].
  injection Hop as Hop.
  apply receive_inv in H
    as (h & b & q & m' & rest' & fm' & s_mid & Hin' & Hfm' & Hhn & Hbn & Hqn &
        _ & _ & _ & Hbh & Hqh & Hqb & H).
  rewrite Hin in Hin'. injection Hin' as <- <-.
  rewrite Hfm in Hfm'. injection Hfm' as <-.
  cbv zeta in H. destruct H as (Hheap & _ & _ & _ & _ & _ & _ & H).
  fold limit in Hheap, H. fold limit in Hop.
  rewrite Hop in Hheap, H.
  destruct (fm !! op_id) as [info|]; [|by destruct H].
  destruct H as [-> Hcall]. split; [done|].
  eexists h, b, q, _. split; [|split; [|split; [|split; [|split; [|exact Hcall]]]]].
  - cbn. rewrite Hheap. apply lookup_insert_eq.
  - cbn. rewrite Hheap, !lookup_insert_ne by done. apply lookup_insert_eq.
  - cbn. rewrite Hheap, lookup_insert_ne by done. apply lookup_insert_eq.
  - cbn. by rewrite last_snoc.
  - unfold fs_handler_get_addr. rewrite decide_True by done.
    erewrite bind_Ret; last first.
    { apply load_handle_Ret; [done|]. cbn. rewrite Hheap. apply lookup_insert_eq. }
    reflexivity.
Qed.

Variable fs_proc_string_hash : string → Z.
Variables sizeof_fs_id sizeof_fs_proc_info : Z.

Local Abbreviation register :=
  (fs_handler_register fs_proc_string_hash sizeof_fs_id sizeof_fs_proc_info).

(** X6.  Neither [fs_handler_receive] nor [fs_handler_register] checks
    what [malloc] returns: when the first allocation of either fails, the
    call writes through [NULL], which is undefined behaviour. *)
Theorem unchecked_allocation_is_undefined s :
  head (malloc_oracle s) = Some false →
  fs_handler_receive na_get_unexpected_size iofsl_compat_get_size_id
    decode_uint32 sizeof_fs_priv_handle call_fs_routine s = Undef ∧
  ∀ name f d e,
    fs_handler_register fs_proc_string_hash sizeof_fs_id sizeof_fs_proc_info
      name f d e s = Undef.
Proof.
  intros Ho. split.
  - unfold fs_handler_receive.
    erewrite bind_Ret by by apply malloc_fail.
    apply bind_Undef. unfold init_handle. by rewrite decide_True.
  - intros name f d e. unfold fs_handler_register.
    erewrite bind_Ret by by apply malloc_fail.
    apply bind_Undef. unfold check_not_null. by rewrite decide_True.
Qed.

Lemma register_inv name f d e u s s' :
  register name f d e s = Ret u s' →
  ∃ fm, handler_func_map s = Some fm ∧
        handler_func_map s' =
          Some (<[fs_proc_string_hash name :=
                    {| fs_routine := f; dec_routine := d; enc_routine := e |}]> fm) ∧
        inbox s' = inbox s ∧
        handler_network_class s' = handler_network_class s ∧
        na_addrs s' = na_addrs s.
Proof.
  unfold fs_handler_register. intros H.
  inv_bind H as p1 s2 Hs.
  apply malloc_inv in Hs as [(_ & _ & ->)|(_ & -> & ->)].
  2:{ inv_bind H as u1 s0 Hs. unfold check_not_null in Hs.
      by rewrite decide_True in Hs. }
  inv_bind H as u1 s3 Hs. unfold check_not_null in Hs.
  case_decide; [done|]. injection Hs as _ <-.
  inv_bind H as p2 s4 Hs.
  apply malloc_inv in Hs as [(_ & _ & ->)|(_ & -> & ->)].
  2:{ inv_bind H as u2 s0 Hs. unfold check_not_null in Hs.
      by rewrite decide_True in Hs. }
  inv_bind H as u2 s5 Hs. unfold check_not_null in Hs.
  case_decide; [done|]. injection Hs as _ <-.
  unfold func_map_insert, func_map, bind, modify in H. cbn in H.
  destruct (handler_func_map s) as [fm|]; [|done].
  injection H as _ <-. by exists fm.
Qed.

(** X8.  Registering and dispatching fit together: after
    [fs_handler_register] has returned for a name, a message that is
    delivered with at least four bytes behind the legacy id, and whose
    operation id -- these four bytes -- is the hash of that name, makes
    [fs_handler_receive] call the executor that was registered with the
    name, and succeed. *)
Theorem registered_operation_is_dispatched name f d e s s' r s1 m rest :
  register name f d e s = Ret tt s' →
  inbox s = m :: rest →
  message_op_id decode_uint32
    (na_get_unexpected_size (handler_network_class s))
    iofsl_compat_get_size_id m = Some (fs_proc_string_hash name) →
  receive s' = Ret r s1 →
  r = S_SUCCESS ∧
  ∃ h s2, last (trace s2) = Some (EvExecute f h) ∧
          call_fs_routine f h s2 = Ret tt s1.
Proof.
  intros Hreg Hin Hop H.
  apply register_inv in Hreg as (fm & _ & Hfm' & Hin' & Hnc & _).
  apply receive_inv in H
    as (h & b & q & m' & rest' & fm' & s_mid & Hin'' & Hfm'' & _ & _ & _ &
        _ & _ & _ & _ & _ & _ & H).
  rewrite Hin', Hin in Hin''. injection Hin'' as <- <-.
  rewrite Hfm' in Hfm''. injection Hfm'' as <-.
  cbv zeta in H. destruct H as (_ & _ & _ & _ & _ & _ & _ & H).
  rewrite Hnc in H.
  unfold message_op_id, delivered in Hop. case_decide; [|done].
  injection Hop as Hop. rewrite Hop in H.
  rewrite lookup_insert_eq in H. destruct H as [-> Hcall].
  split; [done|]. eexists h, _. split; [|exact Hcall].
  cbn. by rewrite last_snoc.
Qed.

End Receive.

Section Lifecycle.

Import HandlerUse.

Variable na_get_unexpected_size : ptr → Z.
Variable iofsl_compat_get_size_id : Z.
Variable iofsl_compat_get_size_status : Z.
Variable decode_uint32 : list Z → Z.
Variable sizeof_fs_priv_handle : Z.
Variables input output : ptr.

Local Abbreviation serve_one :=
  (fs_handler_receive na_get_unexpected_size iofsl_compat_get_size_id
     decode_uint32 sizeof_fs_priv_handle
     (take_and_complete na_get_unexpected_size iofsl_compat_get_size_status
        input output)).


End Lifecycle.

(** *** The properties on the server of the examples *)

Import HandlerUse.

Lemma complete_failure_is_atomic_witness :
  ∃ s1, ex_complete 100 600 ex_call_unknown = Ret S_FAIL s1 ∧
        heap s1 = heap ex_call_unknown ∧
        na_addrs s1 = na_addrs ex_call_unknown ∧
        handler_func_map s1 = handler_func_map ex_call_unknown ∧
        sends (trace s1) = sends (trace ex_call_unknown) ∧
        releases (trace s1) = releases (trace ex_call_unknown).
Proof.
  eapply (complete_failure_is_atomic ex_unexpected_size ex_size_status
            100 600 ex_call_unknown _ ∅).
  - discriminate.
  - by vm_compute.
  - reflexivity.
  - left. reflexivity.
Defined.

Lemma complete_releases_what_it_allocates_witness :
  ∃ s1, ex_complete 100 600 ex_call = Ret S_SUCCESS s1 ∧
        heap s1 = delete 100 (heap ex_call) ∧
        na_addrs s1 = na_addrs ex_call ∖ {[77]} ∧
        handler_func_map s1 = handler_func_map ex_call.
Proof.
  eexists. split; [by vm_compute|].
  edestruct (complete_releases_what_it_allocates ex_unexpected_size
               ex_size_status 100 600 ex_call) as (Hh & Ha & Hf);
    [by vm_compute|by vm_compute|].
  split; [exact Hh|]. split; [exact Ha|exact Hf].
Defined.

Lemma complete_leaves_untaken_input_witness :
  ∃ s1, ex_complete 100 600 ex_call_fresh = Ret S_SUCCESS s1 ∧
        heap s1 !! 100 = None ∧
        heap s1 !! 101 = Some (OBuf 4096 [0; 0; 0; 1; 0; 0; 0; 43]) ∧
        heap s1 !! 102 = Some (OProc {| proc_base := 101; proc_off := 4;
                                        proc_len := 4; proc_op := FS_DECODE |}).
Proof.
  eexists. split; [by vm_compute|].
  apply (complete_leaves_untaken_input ex_unexpected_size ex_size_status
           100 600 ex_call_fresh _
           {| id := 43; addr := 77; tag := 5; dec_proc := 102;
              recv_buf := 101; in_struct := NULL |}); by vm_compute.
Defined.

Lemma get_input_releases_only_the_input_witness :
  ∃ s1, fs_handler_get_input 100 500 ex_call_fresh = Ret S_SUCCESS s1 ∧
        heap s1 = <[100 := OHandle {| id := 43; addr := 77; tag := 5;
                                      dec_proc := NULL; recv_buf := NULL;
                                      in_struct := NULL |}]>
                    (delete 101 (delete 102 (heap ex_call_fresh))) ∧
        na_addrs s1 = na_addrs ex_call_fresh ∧
        handler_func_map s1 = handler_func_map ex_call_fresh.
Proof.
  eexists. split; [by vm_compute|].
  apply (get_input_releases_only_the_input 100 500 ex_call_fresh _
           {| id := 43; addr := 77; tag := 5; dec_proc := 102;
              recv_buf := 101; in_struct := NULL |}).
  - by vm_compute.
  - by vm_compute.
  - split; discriminate.
Defined.

Lemma receive_dispatches_on_registry_witness :
  ∃ s1 h s2, ex_receive ex_foo = Ret S_SUCCESS s1 ∧
             fs_handler_get_addr h s2 = Ret 77 s2 ∧
             ex_executor 11 h s2 = Ret tt s1.
Proof.
  eexists.
  assert (∃ fm, handler_func_map ex_foo = Some fm ∧
                fm !! 43 = Some {| fs_routine := 11; dec_routine := 12;
                                   enc_routine := 13 |}) as (fm & Hfm & Hl).
  { eexists. split; by vm_compute. }
  pose proof (receive_dispatches_on_registry ex_unexpected_size ex_size_id
                ex_decode_uint32 48 ex_executor ex_foo S_SUCCESS _ _ _ fm 43
                ltac:(by vm_compute) ltac:(by vm_compute) Hfm
                ltac:(by vm_compute)) as H.
  rewrite Hl in H.
  destruct H as (_ & h & b & q & s2 & _ & _ & _ & _ & Ha & Hc).
  exists h, s2. split; [by vm_compute|]. split; [exact Ha|exact Hc].
Defined.

Lemma unchecked_allocation_is_undefined_witness :
  ex_receive ex_no_memory = Undef ∧
  ex_register "foo" 11 12 13 ex_no_memory = Undef.
Proof.
  destruct (unchecked_allocation_is_undefined ex_unexpected_size ex_size_id
              ex_decode_uint32 48 ex_executor ex_hash 4 24 ex_no_memory)
    as [H1 H2]; [by vm_compute|].
  split; [exact H1|exact (H2 "foo" 11 12 13)].
Defined.

Lemma registered_operation_is_dispatched_witness :
  ∃ s1 h s2, ex_receive ex_foo = Ret S_SUCCESS s1 ∧
             last (trace s2) = Some (EvExecute 11 h) ∧
             ex_executor 11 h s2 = Ret tt s1.
Proof.
  eexists.
  edestruct (registered_operation_is_dispatched ex_unexpected_size ex_size_id
               ex_decode_uint32 48 ex_executor ex_hash 4 24
               "foo" 11 12 13 ex_init ex_foo S_SUCCESS)
    as (_ & h & s2 & Hl & Hc).
  - by vm_compute.
  - by vm_compute.
  - by vm_compute.
  - by vm_compute.
  - exists h, s2. split; [by vm_compute|]. split; [exact Hl|exact Hc].
Defined.


End HandlerExtras.

Module RepliesExtras.
Import Replies RepliesProofs RepliesUse.

Local Open Scope c_scope.

Lemma bind_Hang {St A B} (m : M St A) (k : A → M St B) s s' :
  m s = Hang s' → bind m k s = Hang s'.
Proof. unfold bind. by intros ->. Qed.

Lemma wire_app t1 t2 : wire (t1 ++ t2) = wire t1 ++ wire t2.
Proof. apply List.filter_app. Qed.

Lemma wire_snoc_quiet t e : is_wire e = false → wire (t ++ [e]) = wire t.
Proof. intros H. rewrite wire_app. cbn. rewrite H. apply app_nil_r. Qed.

(** *** Calls that do not touch the wire *)

Lemma quiet_bind {A B} (m : M state A) (k : A → M state B) :
  quiet m → (∀ a, quiet (k a)) → quiet (bind m k).
Proof.
  intros Hm Hk s b s2 H. inv_bind H as a s1 Hs.
  rewrite (Hk _ _ _ _ H). by apply (Hm _ _ _ Hs).
Qed.

Lemma quiet_ret {A} (a : A) : quiet (ret a).
Proof. intros s b s' H. by injection H as _ <-. Qed.

Lemma quiet_gets {A} (f : state → A) : quiet (gets f).
Proof. intros s b s' H. by injection H as _ <-. Qed.

Lemma quiet_emit e : is_wire e = false → quiet (emit e).
Proof. intros He s b s' H. injection H as _ <-. by apply wire_snoc_quiet. Qed.

Lemma quiet_printf fmt args : quiet (printf fmt args).
Proof. by apply quiet_emit. Qed.

Lemma quiet_warnx fmt args : quiet (warnx fmt args).
Proof. by apply quiet_emit. Qed.

Lemma complete_rx_trace s c : trace (complete_rx s c) = trace s.
Proof.
  unfold complete_rx. destruct (descs (pool s) !! rx_slot c) as [d|]; [|done].
  by destruct (completed d).
Qed.

Lemma foldl_complete_rx_trace cs s : trace (foldl complete_rx s cs) = trace s.
Proof.
  revert s. induction cs as [|c cs IH]; intros s; [done|].
  cbn. by rewrite IH, complete_rx_trace.
Qed.

Lemma quiet_ucp_worker_progress : quiet ucp_worker_progress.
Proof.
  intros s r s' H. unfold ucp_worker_progress in H.
  destruct (pop _ _) as [step rest]. injection H as _ <-.
  cbn. rewrite wire_snoc_quiet by done. by rewrite foldl_complete_rx_trace.
Qed.

Lemma quiet_send_wait script : quiet (send_wait script).
Proof.
  induction script as [|x script IH]; [intros s r s' H; discriminate|].
  cbn. apply quiet_bind; [apply quiet_ucp_worker_progress|].
  intros step. destruct (tx_done step); [apply quiet_ret|apply IH].
Qed.

Lemma quiet_close_wait script : quiet (close_wait script).
Proof.
  induction script as [|x script IH]; [intros s r s' H; discriminate|].
  cbn. apply quiet_bind; [apply quiet_ucp_worker_progress|].
  intros step. destruct (close_done step); [apply quiet_ret|apply IH].
Qed.

Lemma ucp_ep_create_inv b r s s' :
  ucp_ep_create b s = Ret r s' → trace s' = trace s ++ [EvEpCreate b r].
Proof.
  unfold ucp_ep_create. destruct (pop _ _). by intros [= <- <-].
Qed.

Lemma ucp_tag_send_nbx_inv ep m len tg r s s' :
  ucp_tag_send_nbx ep m len tg s = Ret r s' →
  trace s' = trace s ++ [EvTagSend ep m len tg r].
Proof.
  unfold ucp_tag_send_nbx. destruct (pop _ _). by intros [= <- <-].
Qed.

Lemma ucp_ep_close_nb_inv ep r s s' :
  ucp_ep_close_nb ep s = Ret r s' → trace s' = trace s ++ [EvEpClose ep r].
Proof.
  unfold ucp_ep_close_nb. destruct (pop _ _). by intros [= <- <-].
Qed.

Lemma load_msg_inv b m s s' :
  load_msg b s = Ret m s' →
  s' = s ∧ ∃ size, heap s !! b = Some {| blk_size := size; blk_msg := Some m |}.
Proof.
  unfold load_msg. destruct (heap s !! b) as [[size [m'|]]|]; try done.
  intros [= <- <-]. eauto.
Qed.

(** *** Calls that leave the pool's buffers alone *)

Lemma steady_bind {A B} (m : M state A) (k : A → M state B) :
  steady m → (∀ a, steady (k a)) → steady (bind m k).
Proof.
  intros Hm Hk s b s2 H. inv_bind H as a s1 Hs.
  destruct (Hk _ _ _ _ H) as [-> ->]. by apply (Hm _ _ _ Hs).
Qed.

Lemma steady_ret {A} (a : A) : steady (ret a).
Proof. intros s b s' H. by injection H as _ <-. Qed.

Lemma steady_undef {A} : steady (@undef state A).
Proof. intros s b s' H. discriminate. Qed.

Lemma steady_gets {A} (f : state → A) : steady (gets f).
Proof. intros s b s' H. by injection H as _ <-. Qed.

Lemma steady_emit e : steady (emit e).
Proof. intros s b s' H. by injection H as _ <-. Qed.

Lemma steady_load_msg b : steady (load_msg b).
Proof. intros s m s' H. by apply load_msg_inv in H as [-> _]. Qed.

Lemma steady_ucp_ep_create b : steady (ucp_ep_create b).
Proof.
  intros s r s' H. unfold ucp_ep_create in H.
  destruct (pop _ _). by injection H as _ <-.
Qed.

Lemma steady_ucp_tag_send_nbx ep m len tg :
  steady (ucp_tag_send_nbx ep m len tg).
Proof.
  intros s r s' H. unfold ucp_tag_send_nbx in H.
  destruct (pop _ _). by injection H as _ <-.
Qed.

Lemma steady_ucp_ep_close_nb ep : steady (ucp_ep_close_nb ep).
Proof.
  intros s r s' H. unfold ucp_ep_close_nb in H.
  destruct (pop _ _). by injection H as _ <-.
Qed.

Lemma fmap_insert_same {A B} (f : A → B) (l : list A) i x y :
  l !! i = Some x → f y = f x → f <$> <[i := y]> l = f <$> l.
Proof.
  intros Hl Hf. rewrite list_fmap_insert. apply list_insert_id.
  by rewrite list_lookup_fmap, Hl, Hf.
Qed.

Lemma complete_rx_steady s c :
  bufs (complete_rx s c) = bufs s ∧
  dom (heap (complete_rx s c)) = dom (heap s).
Proof.
  unfold complete_rx. destruct (descs (pool s) !! rx_slot c) as [d|] eqn:Hd; [|done].
  destruct (completed d); [done|]. unfold bufs. cbn. split.
  - by eapply fmap_insert_same.
  - apply dom_alter_L.
Qed.

Lemma foldl_complete_rx_steady cs s :
  bufs (foldl complete_rx s cs) = bufs s ∧
  dom (heap (foldl complete_rx s cs)) = dom (heap s).
Proof.
  revert s. induction cs as [|c cs IH]; intros s; [done|].
  cbn. destruct (IH (complete_rx s c)) as [-> ->]. apply complete_rx_steady.
Qed.

Lemma steady_ucp_worker_progress : steady ucp_worker_progress.
Proof.
  intros s r s' H. unfold ucp_worker_progress in H.
  destruct (pop _ _) as [step rest]. injection H as _ <-.
  change (bufs (set_trace ?t ?x)) with (bufs x).
  change (heap (set_trace ?t ?x)) with (heap x).
  by destruct (foldl_complete_rx_steady (rx_done step)
    (set_ucx (set_progress_script rest (ucx s)) s)) as [-> ->].
Qed.

Lemma steady_send_wait script : steady (send_wait script).
Proof.
  induction script as [|x script IH]; [intros s r s' H; discriminate|].
  cbn. apply steady_bind; [apply steady_ucp_worker_progress|].
  intros step. destruct (tx_done step); [apply steady_ret|apply IH].
Qed.

Lemma steady_close_wait script : steady (close_wait script).
Proof.
  induction script as [|x script IH]; [intros s r s' H; discriminate|].
  cbn. apply steady_bind; [apply steady_ucp_worker_progress|].
  intros step. destruct (close_done step); [apply steady_ret|apply IH].
Qed.

Lemma steady_ep_close ep : steady (ep_close ep).
Proof.
  unfold ep_close. apply steady_bind; [apply steady_ucp_ep_close_nb|].
  intros [| |]; [apply steady_ret|apply steady_emit|].
  apply steady_bind; [apply steady_gets|]. apply steady_close_wait.
Qed.

Lemma steady_process_rx_msg hdrlen sizeof_wireup_msg tg b len :
  steady (process_rx_msg hdrlen sizeof_wireup_msg tg b len).
Proof.
  unfold process_rx_msg. case_decide; [apply steady_emit|].
  apply steady_bind; [apply steady_load_msg|]. intros msg.
  case_decide; [apply steady_emit|].
  apply steady_bind; [case_decide; [apply steady_emit|apply steady_ret]|].
  intros _. apply steady_bind; [apply steady_ucp_ep_create|]. intros r.
  apply steady_bind.
  { destruct r; [apply steady_ret|].
    apply steady_bind; [apply steady_emit|]. intros _. apply steady_undef. }
  intros ep. apply steady_bind; [apply steady_ucp_tag_send_nbx|]. intros req.
  apply steady_bind; [|intros _; apply steady_ep_close].
  destruct req; [apply steady_emit|apply steady_emit|].
  apply steady_bind; [apply steady_gets|]. intros script.
  apply steady_bind; [apply steady_send_wait|]. intros st.
  apply steady_bind; [case_decide; [apply steady_emit|apply steady_ret]|].
  intros _. apply steady_emit.
Qed.

(** *** Calls that do not end the process *)

Lemma bind_Exit_inv {St A B} (m : M St A) (k : A → M St B) s s' :
  bind m k s = Exit s' →
  m s = Exit s' ∨ ∃ a s1, m s = Ret a s1 ∧ k a s1 = Exit s'.
Proof.
  unfold bind. destruct (m s) as [a s1| |s1|s1]; try discriminate.
  - intros H. right. by exists a, s1.
  - intros H. injection H as ->. by left.
Qed.

Lemma never_exits_bind {A B} (m : M state A) (k : A → M state B) :
  never_exits m → (∀ a, never_exits (k a)) → never_exits (bind m k).
Proof.
  intros Hm Hk s s' H. apply bind_Exit_inv in H as [H|(a & s1 & _ & H)].
  - by apply Hm in H.
  - by apply Hk in H.
Qed.

Lemma never_exits_ret {A} (a : A) : never_exits (ret a).
Proof. intros s s' H. discriminate. Qed.

Lemma never_exits_undef {A} : never_exits (@undef state A).
Proof. intros s s' H. discriminate. Qed.

Lemma never_exits_gets {A} (f : state → A) : never_exits (gets f).
Proof. intros s s' H. discriminate. Qed.

Lemma never_exits_modify f : never_exits (modify (St := state) f).
Proof. intros s s' H. discriminate. Qed.

Lemma never_exits_emit e : never_exits (emit e).
Proof. apply never_exits_modify. Qed.

Lemma never_exits_load_msg b : never_exits (load_msg b).
Proof.
  intros s s' H. unfold load_msg in H.
  by destruct (heap s !! b) as [[? []]|].
Qed.

Lemma never_exits_load_desc i : never_exits (load_desc i).
Proof. intros s s' H. unfold load_desc in H. by destruct (_ !! i). Qed.

Lemma never_exits_free p : never_exits (free p).
Proof.
  intros s s' H. unfold free in H. case_decide; [done|].
  by destruct (heap s !! p).
Qed.

Lemma never_exits_ucp_ep_create b : never_exits (ucp_ep_create b).
Proof. intros s s' H. unfold ucp_ep_create in H. by destruct (pop _ _). Qed.

Lemma never_exits_ucp_tag_send_nbx ep m len tg :
  never_exits (ucp_tag_send_nbx ep m len tg).
Proof. intros s s' H. unfold ucp_tag_send_nbx in H. by destruct (pop _ _). Qed.

Lemma never_exits_ucp_ep_close_nb ep : never_exits (ucp_ep_close_nb ep).
Proof. intros s s' H. unfold ucp_ep_close_nb in H. by destruct (pop _ _). Qed.

Lemma never_exits_ucp_worker_progress : never_exits ucp_worker_progress.
Proof. intros s s' H. unfold ucp_worker_progress in H. by destruct (pop _ _). Qed.

Lemma never_exits_send_wait script : never_exits (send_wait script).
Proof.
  induction script as [|x script IH]; [intros s s' H; discriminate|].
  cbn. apply never_exits_bind; [apply never_exits_ucp_worker_progress|].
  intros step. destruct (tx_done step); [apply never_exits_ret|apply IH].
Qed.

Lemma never_exits_close_wait script : never_exits (close_wait script).
Proof.
  induction script as [|x script IH]; [intros s s' H; discriminate|].
  cbn. apply never_exits_bind; [apply never_exits_ucp_worker_progress|].
  intros step. destruct (close_done step); [apply never_exits_ret|apply IH].
Qed.

Lemma never_exits_ep_close ep : never_exits (ep_close ep).
Proof.
  unfold ep_close. apply never_exits_bind; [apply never_exits_ucp_ep_close_nb|].
  intros [| |]; [apply never_exits_ret|apply never_exits_emit|].
  apply never_exits_bind; [apply never_exits_gets|]. apply never_exits_close_wait.
Qed.

Lemma never_exits_process_rx_msg hdrlen sizeof_wireup_msg tg b len :
  never_exits (process_rx_msg hdrlen sizeof_wireup_msg tg b len).
Proof.
  unfold process_rx_msg. case_decide; [apply never_exits_emit|].
  apply never_exits_bind; [apply never_exits_load_msg|]. intros msg.
  case_decide; [apply never_exits_emit|].
  apply never_exits_bind;
    [case_decide; [apply never_exits_emit|apply never_exits_ret]|].
  intros _. apply never_exits_bind; [apply never_exits_ucp_ep_create|]. intros r.
  apply never_exits_bind.
  { destruct r; [apply never_exits_ret|].
    apply never_exits_bind; [apply never_exits_emit|]. intros _.
    apply never_exits_undef. }
  intros ep. apply never_exits_bind; [apply never_exits_ucp_tag_send_nbx|].
  intros req.
  apply never_exits_bind; [|intros _; apply never_exits_ep_close].
  destruct req; [apply never_exits_emit|apply never_exits_emit|].
  apply never_exits_bind; [apply never_exits_gets|]. intros script.
  apply never_exits_bind; [apply never_exits_send_wait|]. intros st.
  apply never_exits_bind;
    [case_decide; [apply never_exits_emit|apply never_exits_ret]|].
  intros _. apply never_exits_emit.
Qed.

Lemma never_exits_rxdesc_setup b len i : never_exits (rxdesc_setup b len i).
Proof.
  unfold rxdesc_setup. apply never_exits_bind; [apply never_exits_load_desc|].
  intros d. apply never_exits_bind; [apply never_exits_modify|].
  intros _. apply never_exits_bind; [apply never_exits_gets|].
  intros p. apply never_exits_emit.
Qed.

(** *** Waiting for the transport *)

Lemma complete_rx_ucx s c : ucx (complete_rx s c) = ucx s.
Proof.
  unfold complete_rx. destruct (descs (pool s) !! rx_slot c) as [d|]; [|done].
  by destruct (completed d).
Qed.

Lemma foldl_complete_rx_ucx cs s : ucx (foldl complete_rx s cs) = ucx s.
Proof.
  revert s. induction cs as [|c cs IH]; intros s; [done|].
  cbn. by rewrite IH, complete_rx_ucx.
Qed.

(** One call of [ucp_worker_progress] takes the first step of the script. *)
Lemma ucp_worker_progress_step x rest s :
  progress_script (ucx s) = x :: rest →
  ∃ s', ucp_worker_progress s = Ret x s' ∧
        progress_script (ucx s') = rest ∧
        wire (trace s') = wire (trace s).
Proof.
  intros Hs. eexists. split.
  - unfold ucp_worker_progress. rewrite Hs. reflexivity.
  - cbn. rewrite foldl_complete_rx_ucx, foldl_complete_rx_trace. cbn.
    split; [done|]. by apply wire_snoc_quiet.
Qed.

Lemma close_wait_returns script s :
  progress_script (ucx s) = script →
  Exists (λ st, close_done st = true) script →
  ∃ s1, close_wait script s = Ret tt s1.
Proof.
  revert s. induction script as [|x script IH]; intros s Hs Hex.
  { by apply Exists_nil in Hex. }
  destruct (ucp_worker_progress_step x script s Hs) as (s' & Hp & Hs' & _).
  cbn [close_wait]. erewrite bind_Ret by exact Hp.
  destruct (close_done x) eqn:Hx; [by eexists|].
  apply IH; [done|]. apply Exists_cons in Hex as [Hex|Hex]; [congruence|done].
Qed.

Lemma close_wait_hangs script s :
  progress_script (ucx s) = script →
  never_closed script →
  ∃ s1, close_wait script s = Hang s1 ∧ wire (trace s1) = wire (trace s).
Proof.
  revert s. induction script as [|x script IH]; intros s Hs Hall.
  { by exists s. }
  destruct (ucp_worker_progress_step x script s Hs) as (s' & Hp & Hs' & Hw).
  apply Forall_cons in Hall as [Hx Hall].
  destruct (IH s' Hs' Hall) as (s1 & Hh & Hw1).
  exists s1. split; [|congruence].
  cbn [close_wait]. erewrite bind_Ret by exact Hp. by rewrite Hx.
Qed.

Lemma send_wait_hangs script s :
  progress_script (ucx s) = script →
  never_sent script →
  ∃ s1, send_wait script s = Hang s1 ∧ wire (trace s1) = wire (trace s).
Proof.
  revert s. induction script as [|x script IH]; intros s Hs Hall.
  { by exists s. }
  destruct (ucp_worker_progress_step x script s Hs) as (s' & Hp & Hs' & Hw).
  apply Forall_cons in Hall as [Hx Hall].
  destruct (IH s' Hs' Hall) as (s1 & Hh & Hw1).
  exists s1. split; [|congruence].
  cbn [send_wait]. erewrite bind_Ret by exact Hp. by rewrite Hx.
Qed.

(** X11.  [ep_close] has no timeout.  When the transport leaves the
    close pending, [ep_close] returns as soon as a call of
    [ucp_worker_progress] completes it, and it never returns if the
    transport never does. *)
Theorem ep_close_waits_for_the_transport ep r rest s :
  close_results (ucx s) = ReqPtr r :: rest →
  (Exists (λ st, close_done st = true) (progress_script (ucx s)) →
     ∃ s1, ep_close ep s = Ret tt s1) ∧
  (never_closed (progress_script (ucx s)) → ∃ s1, ep_close ep s = Hang s1).
Proof.
  intros Hc. unfold ep_close, ucp_ep_close_nb, bind. rewrite Hc. cbn.
  split; intros Hs.
  - edestruct close_wait_returns as [s1 H1]; [|exact Hs|].
    2:{ exists s1. exact H1. }
    reflexivity.
  - edestruct close_wait_hangs as (s1 & H1 & _); [|exact Hs|].
    2:{ exists s1. exact H1. }
    reflexivity.
Qed.

Lemma ep_close_waits_for_the_transport_witness :
  (∃ s1, ep_close 7 ex_closing = Ret tt s1) ∧
  (∃ s1, ep_close 7 ex_never_closing = Hang s1).
Proof.
  split.
  - apply (ep_close_waits_for_the_transport 7 10 [] ex_closing); [reflexivity|].
    apply Exists_cons_tl, Exists_cons_hd. reflexivity.
  - apply (ep_close_waits_for_the_transport 7 10 [] ex_never_closing);
      [reflexivity|].
    apply Forall_cons. split; [reflexivity|apply Forall_nil].
    constructor.
Defined.

Section Responder.

Variable hdrlen : Z.
Variable sizeof_wireup_msg : Z.

Local Abbreviation process := (process_rx_msg hdrlen sizeof_wireup_msg).

(** X9.  What [process_rx_msg] puts on the wire: its calls of
    [ucp_ep_create], [ucp_tag_send_nbx] and [ucp_ep_close_nb].  (The calls
    of [ucp_worker_progress] that it makes while it waits are not counted
    here.)  Whenever it returns, either the message was shorter than the
    header or its operation was not a request, and then it made none of
    these calls; or the header was complete and the operation a request,
    and then it made exactly one of each, in this order: one endpoint was
    created from the message, one message was sent to it -- the
    acknowledgement, with an empty address, on the tag the request came
    with -- and that endpoint was closed. *)
Theorem process_rx_msg_protocol tg b len s s1 :
  process_rx_msg hdrlen sizeof_wireup_msg tg b len s = Ret tt s1 →
  (wire (trace s1) = wire (trace s) ∧
   (len < hdrlen ∨
    ∃ size m, heap s !! b = Some {| blk_size := size; blk_msg := Some m |} ∧
              op m ≠ OP_REQ)) ∨
  (hdrlen ≤ len ∧
   ∃ size m ep req cl,
     heap s !! b = Some {| blk_size := size; blk_msg := Some m |} ∧
     op m = OP_REQ ∧
     wire (trace s1) =
       wire (trace s) ++
       [EvEpCreate b (EpOk ep);
        EvTagSend ep ex_ack sizeof_wireup_msg tg req;
        EvEpClose ep cl]).
Proof.
  unfold process_rx_msg. intros H.
  case_decide as Hlen.
  { left. injection H as <-. split; [by apply wire_snoc_quiet|by left]. }
  inv_bind H as m s0 Hs. apply load_msg_inv in Hs as (-> & size & Hb).
  case_decide as Hop.
  { left. injection H as <-. split; [by apply wire_snoc_quiet|].
    right. by exists size, m. }
  right. split; [lia|].
  inv_bind H as u1 s2 Hw.
  assert (wire (trace s2) = wire (trace s)) as Hw2.
  { case_decide; [|by injection Hw as _ <-].
    injection Hw as _ <-. by apply wire_snoc_quiet. }
  inv_bind H as r s3 Ht3. apply ucp_ep_create_inv in Ht3.
  inv_bind H as ep s4 Hs.
  destruct r as [ep'|st]; [|by inv_bind Hs as u s' Hs'].
  injection Hs as <- <-.
  inv_bind H as req s5 Ht5. apply ucp_tag_send_nbx_inv in Ht5.
  inv_bind H as u2 s6 Hs.
  assert (wire (trace s6) = wire (trace s5)) as Hw6.
  { destruct req as [|st|rq].
    - injection Hs as _ <-. by apply wire_snoc_quiet.
    - injection Hs as _ <-. by apply wire_snoc_quiet.
    - revert Hs. apply quiet_bind; [apply quiet_gets|]. intros script.
      apply quiet_bind; [apply quiet_send_wait|]. intros st.
      apply quiet_bind; [|intros _; apply quiet_printf].
      destruct (decide (st ≠ UCS_OK)); [apply quiet_printf|apply quiet_ret]. }
  unfold ep_close in H.
  inv_bind H as cl s7 Ht7. apply ucp_ep_close_nb_inv in Ht7.
  assert (wire (trace s1) = wire (trace s7)) as Hw1.
  { destruct cl as [|st|rq].
    - by injection H as <-.
    - injection H as <-. by apply wire_snoc_quiet.
    - revert H. apply quiet_bind; [apply quiet_gets|]. intros script.
      apply quiet_close_wait. }
  exists size, m, ep', req, cl. split; [done|].
  split; [by destruct (decide (op m = OP_REQ)); [|tauto]|].
  rewrite Hw1, Ht7, wire_app, Hw6, Ht5, wire_app, Ht3, wire_app, Hw2.
  cbn. by rewrite <- !app_assoc.
Qed.

(** X10.  A request whose header is complete, when [ucp_ep_create] fails:
    [process_rx_msg] prints a warning and goes on to send on the endpoint
    variable that was never set -- undefined behaviour; no negative
    acknowledgement is sent. *)
Theorem process_rx_msg_endpoint_failure tg b len s size m st rest :
  hdrlen ≤ len →
  heap s !! b = Some {| blk_size := size; blk_msg := Some m |} →
  op m = OP_REQ →
  ep_results (ucx s) = EpErr st :: rest →
  process_rx_msg hdrlen sizeof_wireup_msg tg b len s = Undef.
Proof.
  intros Hlen Hb Hop He. unfold process_rx_msg.
  rewrite decide_False by lia.
  erewrite bind_Ret; last first.
  { unfold load_msg. rewrite Hb. reflexivity. }
  rewrite decide_False by (rewrite Hop; tauto).
  case_decide.
  all: erewrite bind_Ret by reflexivity.
  all: erewrite bind_Ret;
    [|unfold ucp_ep_create; cbn [ucx set_trace]; rewrite He; reflexivity].
  all: by apply bind_Undef.
Qed.

(** X12.  There is no timeout on the reply either.  For a request with a
    complete header whose acknowledgement is still pending after
    [ucp_tag_send_nbx], if the transport never completes the send,
    [process_rx_msg] never returns, and the endpoint it created is never
    closed. *)
Theorem process_rx_msg_waits_for_the_send tg b len s size m ep restE rq restS :
  hdrlen ≤ len →
  heap s !! b = Some {| blk_size := size; blk_msg := Some m |} →
  op m = OP_REQ →
  ep_results (ucx s) = EpOk ep :: restE →
  send_results (ucx s) = ReqPtr rq :: restS →
  never_sent (progress_script (ucx s)) →
  ∃ s1, process_rx_msg hdrlen sizeof_wireup_msg tg b len s = Hang s1 ∧
        wire (trace s1) =
          wire (trace s) ++
          [EvEpCreate b (EpOk ep);
           EvTagSend ep ex_ack sizeof_wireup_msg tg (ReqPtr rq)].
Proof.
  intros Hlen Hb Hop He Hs Hnever. unfold process_rx_msg.
  rewrite decide_False by lia.
  erewrite bind_Ret; last first.
  { unfold load_msg. rewrite Hb. reflexivity. }
  rewrite decide_False by (rewrite Hop; tauto).
  assert (∃ s2, (if decide (len < wrap_size (hdrlen + addrlen m))
                 then warnx "process_rx_msg: dropping %zu-byte message, address truncated"
                        [AInt len]
                 else ret tt) s = Ret tt s2 ∧
                ucx s2 = ucx s ∧ wire (trace s2) = wire (trace s))
    as (s2 & Hw & Hu2 & Hw2).
  { case_decide; eexists; (split; [reflexivity|]); cbn; [|done].
    split; [done|]. by apply wire_snoc_quiet. }
  erewrite bind_Ret by exact Hw.
  erewrite bind_Ret; last first.
  { unfold ucp_ep_create. rewrite Hu2, He. reflexivity. }
  erewrite bind_Ret by reflexivity.
  erewrite bind_Ret; last first.
  { unfold ucp_tag_send_nbx. cbn. rewrite Hs. reflexivity. }
  edestruct (send_wait_hangs (progress_script (ucx s))) as (s1 & Hh & Hw1);
    [|exact Hnever|].
  2:{ exists s1. split.
      - apply bind_Hang. erewrite bind_Ret by reflexivity.
        apply bind_Hang. cbn. exact Hh.
      - rewrite Hw1. cbn. rewrite !wire_app, Hw2. cbn.
        by rewrite <- !app_assoc. }
  reflexivity.
Qed.

Local Abbreviation once := (run_server_once hdrlen sizeof_wireup_msg).
Local Abbreviation loop := (serve hdrlen sizeof_wireup_msg).

(** *** The loop of the server *)

Lemma run_server_once_false_inv s s1 :
  once s = Ret false s1 →
  ∃ i d code,
    list_find (λ d, completed d = true) (descs (pool s)) = Some (i, d) ∧
    status d = UCS_OTHER code ∧
    s1 = set_trace (trace s ++ [EvPrintf "receive error, %s, exiting."
                                  [AStatus (UCS_OTHER code)]]) s.
Proof.
  unfold run_server_once. intros H.
  erewrite bind_Ret in H by apply rxpool_next_Ret.
  destruct (list_find _ _) as [[i d]|] eqn:Hf; [|discriminate].
  cbn [fmap option_fmap option_map fst] in H.
  pose proof Hf as Hf'. apply next_slot in Hf' as [_ Hd].
  erewrite bind_Ret in H by exact Hd.
  inv_bind H as rearm s2 Hs.
  destruct rearm.
  { by apply rearm_inv in H as [? _]. }
  injection H as <-.
  destruct (status d) as [| |code] eqn:Hst.
  - inv_bind Hs as u1 s3 Hs1. inv_bind Hs as u2 s4 Hs2. discriminate.
  - inv_bind Hs as u1 s3 Hs1. inv_bind Hs as u2 s4 Hs2.
    inv_bind Hs as nbuf s5 Hs3. case_decide; [discriminate|].
    inv_bind Hs as u3 s6 Hs4. inv_bind Hs as u4 s7 Hs5. discriminate.
  - inv_bind Hs as u1 s3 Hs1. injection Hs as <-.
    injection Hs1 as <-. by exists i, d, code.
Qed.

(** The one way in which a round ends the process. *)
Lemma run_server_once_Exit_inv s s1 :
  once s = Exit s1 →
  ∃ i d,
    list_find (λ d, completed d = true) (descs (pool s)) = Some (i, d) ∧
    status d = UCS_ERR_MESSAGE_TRUNCATED ∧
    head (malloc_oracle s) = Some false ∧
    last (trace s1) = Some (EvWarnx "run_server_once: malloc" []).
Proof.
  unfold run_server_once. intros H.
  erewrite bind_Ret in H by apply rxpool_next_Ret.
  destruct (list_find _ _) as [[i d]|] eqn:Hf; [|discriminate].
  cbn [fmap option_fmap option_map fst] in H.
  pose proof Hf as Hf'. apply next_slot in Hf' as [_ Hd].
  erewrite bind_Ret in H by exact Hd.
  apply bind_Exit_inv in H as [H|(rearm & s2 & _ & H)].
  2:{ destruct rearm; [|discriminate]. exfalso. revert H.
      apply never_exits_bind; [apply never_exits_load_desc|]. intros d2.
      apply never_exits_bind; [apply never_exits_rxdesc_setup|]. intros _.
      apply never_exits_ret. }
  exists i, d. split; [done|].
  destruct (status d) as [| |code] eqn:Hst.
  - exfalso. revert H.
    apply never_exits_bind; [apply never_exits_emit|]. intros _.
    apply never_exits_bind; [apply never_exits_process_rx_msg|]. intros _.
    apply never_exits_ret.
  - split; [done|].
    apply bind_Exit_inv in H as [H|(u1 & s3 & Hs1 & H)]; [discriminate|].
    apply bind_Exit_inv in H as [H|(u2 & s4 & Hs2 & H)]; [discriminate|].
    injection Hs1 as _ <-. injection Hs2 as _ <-.
    apply bind_Exit_inv in H as [H|(nbuf & s5 & Hm & H)].
    { unfold malloc in H. by repeat case_match. }
    apply rx_malloc_inv in Hm as [(Hn & _ & ->)|[-> Ho]].
    + exfalso. revert H. case_decide; [done|].
      apply never_exits_bind; [apply never_exits_modify|]. intros _.
      apply never_exits_bind; [apply never_exits_free|]. intros _.
      apply never_exits_ret.
    + split; [exact Ho|]. case_decide; [|done].
      injection H as <-. cbn. by rewrite last_snoc.
  - exfalso. revert H.
    apply never_exits_bind; [apply never_exits_emit|]. intros _.
    apply never_exits_ret.
Qed.

(** X13.  The serving loop stops on an error only.  Whenever the loop of
    [run_server] returns, the last thing that happened is that a receive
    error was printed for a slot whose status was neither Ok nor Truncated.
    Whenever the process exits inside the loop, the last thing that
    happened is the [err] of [run_server_once] after a failed allocation.
    (The loop can also stop inside [process_rx_msg], which may be undefined
    or never return; it stops in no other way.) *)
Theorem serve_stops_only_on_error fuel s o :
  serve hdrlen sizeof_wireup_msg fuel s = Some o →
  match o with
  | Ret _ s1 =>
    ∃ code, last (trace s1) =
            Some (EvPrintf "receive error, %s, exiting."
                    [AStatus (UCS_OTHER code)])
  | Exit s1 => last (trace s1) = Some (EvWarnx "run_server_once: malloc" [])
  | Undef | Hang _ => True
  end.
Proof.
  revert s. induction fuel as [|k IH]; intros s H; [discriminate|].
  cbn [serve] in H.
  destruct (once s) as [[] s2| |s2|s2] eqn:Hrun.
  - rewrite ucp_worker_progress_total in H. by eapply IH.
  - injection H as <-.
    apply run_server_once_false_inv in Hrun as (i & d & code & _ & _ & ->).
    exists code. cbn. by rewrite last_snoc.
  - by injection H as <-.
  - injection H as <-.
    by apply run_server_once_Exit_inv in Hrun as (i & d & _ & _ & _ & ?).
  - by injection H as <-.
Qed.

(** X14.  An idle server serves forever: while no slot has completed and
    the transport has nothing more to deliver, the loop of [run_server]
    does not end, whatever fuel it is given. *)
Theorem serve_idles_forever fuel s :
  list_find (λ d, completed d = true) (descs (pool s)) = None →
  progress_script (ucx s) = [] →
  serve hdrlen sizeof_wireup_msg fuel s = None.
Proof.
  revert s. induction fuel as [|k IH]; intros s Hf Hs; [done|].
  cbn [serve].
  assert (once s = Ret true s) as ->.
  { unfold run_server_once. erewrite bind_Ret by apply rxpool_next_Ret.
    by rewrite Hf. }
  unfold ucp_worker_progress. rewrite Hs. cbn.
  apply IH; cbn; done.
Qed.

(** *** The buffers of the pool *)

(** What one round does to the buffers: nothing, unless the slot it takes
    was truncated, and then that slot alone gets a fresh buffer of the
    regrown capacity. *)
Lemma run_server_once_bufs_inv s r s1 :
  once s = Ret r s1 →
  bufs s1 = bufs s ∨
  ∃ i d nbuf,
    list_find (λ d, completed d = true) (descs (pool s)) = Some (i, d) ∧
    status d = UCS_ERR_MESSAGE_TRUNCATED ∧
    nbuf ≠ NULL ∧ heap s !! nbuf = None ∧
    bufs s1 = <[i := (nbuf, nbuflen hdrlen (buflen d))]> (bufs s).
Proof.
  unfold run_server_once. intros H.
  erewrite bind_Ret in H by apply rxpool_next_Ret.
  destruct (list_find _ _) as [[i d]|] eqn:Hf.
  2:{ left. by injection H as _ <-. }
  cbn [fmap option_fmap option_map fst] in H.
  pose proof Hf as Hf'. apply next_slot in Hf' as [_ Hd].
  pose proof Hd as Hdi. apply load_desc_inv in Hdi as [_ Hdi].
  erewrite bind_Ret in H by exact Hd.
  inv_bind H as rearm s2 Hs.
  destruct rearm.
  2:{ left. injection H as _ <-.
      destruct (status d) as [| |code] eqn:Hst.
      - inv_bind Hs as u1 s3 Hs1. inv_bind Hs as u2 s4 Hs2. discriminate.
      - inv_bind Hs as u1 s3 Hs1. inv_bind Hs as u2 s4 Hs2.
        inv_bind Hs as nbuf s5 Hs3. case_decide; [discriminate|].
        inv_bind Hs as u3 s6 Hs4. inv_bind Hs as u4 s7 Hs5. discriminate.
      - inv_bind Hs as u1 s3 Hs1. injection Hs as <-. by injection Hs1 as _ <-. }
  apply rearm_inv in H as (_ & d2 & Hd2 & ->).
  assert (Hre : ∀ s2 d2, descs (pool s2) !! i = Some d2 →
    bufs (set_trace (trace s2 ++ [EvTagRecv (worker (pool s2)) (buf d2)
                                    (buflen d2) (pool_tag (pool s2))
                                    (pool_tag_mask (pool s2))])
            (set_pool (set_descs (<[i := posted (buf d2) (buflen d2) d2]>
                                    (descs (pool s2))) (pool s2)) s2))
    = bufs s2).
  { intros s0 d0 H0. unfold bufs. cbn. by eapply fmap_insert_same. }
  rewrite (Hre _ _ Hd2). clear Hre.
  destruct (status d) as [| |code] eqn:Hst.
  - left. inv_bind Hs as u1 s3 Hs1. inv_bind Hs as u2 s4 Hs2.
    injection Hs as <-. injection Hs1 as _ <-.
    by apply steady_process_rx_msg in Hs2 as [-> _].
  - right. exists i, d. inv_bind Hs as u1 s3 Hs1. inv_bind Hs as u2 s4 Hs2.
    inv_bind Hs as nbuf s5 Hs3. case_decide as Hn; [discriminate|].
    inv_bind Hs as u3 s6 Hs4. inv_bind Hs as u4 s7 Hs5.
    injection Hs as <-. injection Hs1 as _ <-. injection Hs2 as _ <-.
    apply rx_malloc_inv in Hs3 as [(_ & Hfresh & ->)|[-> _]]; [|done].
    injection Hs4 as _ <-. exists nbuf.
    assert (bufs s7 = <[i := (nbuf, nbuflen hdrlen (buflen d))]> (bufs s))
      as ->; [|done].
    unfold bufs. rewrite (rx_free_inv _ _ _ _ Hs5). cbn.
    by rewrite list_fmap_insert.
  - inv_bind Hs as u1 s3 Hs1. discriminate.
Qed.

(** X15.  A round that takes a slot with an Ok message hands the slot
    straight back to the transport: when the round returns, the slot is
    posted again on the very buffer, with the very capacity, the message
    arrived in; no buffer of the pool has changed, and nothing was
    allocated or freed.  The received bytes are therefore not kept beyond
    the round. *)
Theorem ok_round_reposts_the_same_buffer s i d r s1 :
  list_find (λ d, completed d = true) (descs (pool s)) = Some (i, d) →
  status d = UCS_OK →
  run_server_once hdrlen sizeof_wireup_msg s = Ret r s1 →
  r = true ∧
  bufs s1 = bufs s ∧ dom (heap s1) = dom (heap s) ∧
  (∃ d1, descs (pool s1) !! i = Some d1 ∧ completed d1 = false ∧
         buf d1 = buf d ∧ buflen d1 = buflen d) ∧
  ∃ w tg mask,
    last (trace s1) = Some (EvTagRecv w (buf d) (buflen d) tg mask).
Proof.
  intros Hf Hst H. unfold run_server_once in H.
  erewrite bind_Ret in H by apply rxpool_next_Ret.
  rewrite Hf in H. cbn [fmap option_fmap option_map fst] in H.
  pose proof Hf as Hf'. apply next_slot in Hf' as [_ Hd].
  pose proof Hd as Hdi. apply load_desc_inv in Hdi as [_ Hdi].
  erewrite bind_Ret in H by exact Hd. rewrite Hst in H.
  inv_bind H as rearm s2 Hs.
  inv_bind Hs as u1 s3 Hs1. inv_bind Hs as u2 s4 Hs2.
  injection Hs as <- <-. injection Hs1 as _ <-.
  apply rearm_inv in H as (-> & d2 & Hd2 & ->).
  apply steady_process_rx_msg in Hs2 as [Hb Hh].
  change (bufs (set_trace _ s)) with (bufs s) in Hb.
  change (heap (set_trace _ s)) with (heap s) in Hh.
  assert (Hd2' : bufs s4 !! i = Some (buf d2, buflen d2)).
  { unfold bufs. by rewrite list_lookup_fmap, Hd2. }
  rewrite Hb in Hd2'. unfold bufs at 1 in Hd2'.
  rewrite list_lookup_fmap in Hd2'. cbn in Hd2'. rewrite Hdi in Hd2'.
  injection Hd2' as Hbuf Hlen.
  split; [done|]. split; [|split; [|split]].
  - rewrite <- Hb. unfold bufs. cbn. by eapply fmap_insert_same.
  - exact Hh.
  - exists (posted (buf d2) (buflen d2) d2). cbn.
    split; [|done].
    apply list_lookup_insert_eq. by eapply lookup_lt_Some.
  - eexists _, _, _. cbn. rewrite last_snoc. by rewrite Hbuf, Hlen.
Qed.

(** X16.  The capacities stay in range.  When the header is not longer
    than half the maximal size and every slot's capacity lies between the
    header length and the maximal size, the same holds after any run of
    the serving loop that ends, and the pool has kept its number of slots:
    the regrown capacity is computed without wrapping in every round, and
    no slot ever becomes too small for a header. *)
Theorem serve_keeps_capacities_in_range fuel s s1 :
  0 ≤ hdrlen ≤ SIZE_MAX / 2 →
  caps_in_range hdrlen s →
  serve hdrlen sizeof_wireup_msg fuel s = Some (Ret tt s1) →
  caps_in_range hdrlen s1 ∧ length (bufs s1) = length (bufs s).
Proof.
  intros Hh. revert s. induction fuel as [|k IH]; intros s Hc H; [discriminate|].
  cbn [serve] in H.
  destruct (once s) as [r s2| |s2|s2] eqn:Hrun; try discriminate.
  assert (Hstep : caps_in_range hdrlen s2 ∧ length (bufs s2) = length (bufs s)).
  { unfold caps_in_range in *.
    apply run_server_once_bufs_inv in Hrun
      as [->|(i & d & nbuf & Hf & Hst & _ & _ & ->)]; [done|].
    split; [|by rewrite length_insert].
    apply list_find_Some in Hf as (Hdi & _ & _).
    assert (Hin : hdrlen ≤ buflen d ≤ SIZE_MAX).
    { rewrite Forall_lookup in Hc.
      apply (Hc i (buf d, buflen d)). unfold bufs.
      by rewrite list_lookup_fmap, Hdi. }
    apply Forall_insert; [done|]. cbn.
    destruct (nbuflen_no_wrap hdrlen (buflen d)) as [-> _]; [lia..|].
    pose proof SIZE_MAX_eq as E. rewrite E in *.
    change (18446744073709551615 / 2) with 9223372036854775807 in Hh. lia. }
  destruct Hstep as [Hc2 Hl2].
  destruct r.
  - destruct (ucp_worker_progress s2) as [st s3| |s3|s3] eqn:Hp;
      try discriminate.
    apply steady_ucp_worker_progress in Hp as [Hb _].
    destruct (IH s3) as [Hc3 Hl3]; [|done|].
    + unfold caps_in_range. by rewrite Hb.
    + split; [done|]. by rewrite Hl3, Hb.
  - by injection H as <-.
Qed.

End Responder.

Lemma process_rx_msg_protocol_witness :
  (wire (trace (after (ex_process_rx_msg 17 1 24) ex_late))
     = wire (trace ex_late) ∧
   (24 < ex_hdrlen ∨
    ∃ size m, heap ex_late !! 1 = Some {| blk_size := size; blk_msg := Some m |} ∧
              op m ≠ OP_REQ)) ∨
  (ex_hdrlen ≤ 24 ∧
   ∃ size m ep req cl,
     heap ex_late !! 1 = Some {| blk_size := size; blk_msg := Some m |} ∧
     op m = OP_REQ ∧
     wire (trace (after (ex_process_rx_msg 17 1 24) ex_late)) =
       wire (trace ex_late) ++
       [EvEpCreate 1 (EpOk ep);
        EvTagSend ep ex_ack ex_sizeof_wireup_msg 17 req;
        EvEpClose ep cl]).
Proof.
  apply (process_rx_msg_protocol ex_hdrlen ex_sizeof_wireup_msg 17 1 24 ex_late).
  by vm_compute.
Defined.

Lemma process_rx_msg_endpoint_failure_witness :
  ex_process_rx_msg 17 1 24 ex_no_endpoint = Undef.
Proof.
  apply (process_rx_msg_endpoint_failure ex_hdrlen ex_sizeof_wireup_msg
           17 1 24 ex_no_endpoint 117 (ex_req 8) (UCS_OTHER (-6)) []);
    by vm_compute.
Defined.

Lemma process_rx_msg_waits_for_the_send_witness :
  ∃ s1, ex_process_rx_msg 17 1 24 ex_stalled_send = Hang s1 ∧
        wire (trace s1) =
          wire (trace ex_stalled_send) ++
          [EvEpCreate 1 (EpOk 7);
           EvTagSend 7 ex_ack ex_sizeof_wireup_msg 17 (ReqPtr 9)].
Proof.
  apply (process_rx_msg_waits_for_the_send ex_hdrlen ex_sizeof_wireup_msg
           17 1 24 ex_stalled_send 117 (ex_req 8) 7 [] 9 []);
    try (by vm_compute).
  repeat (apply Forall_cons; split; [reflexivity|]). by apply Forall_nil.
Defined.

Lemma serve_stops_only_on_error_witness :
  (∃ code, last (trace ex_served) =
           Some (EvPrintf "receive error, %s, exiting."
                   [AStatus (UCS_OTHER code)])) ∧
  last (trace (after ex_run_server_once ex_truncated_no_memory))
  = Some (EvWarnx "run_server_once: malloc" []).
Proof.
  split.
  - apply (serve_stops_only_on_error ex_hdrlen ex_sizeof_wireup_msg
             5 ex_pool (Ret tt ex_served)).
    by vm_compute.
  - apply (serve_stops_only_on_error ex_hdrlen ex_sizeof_wireup_msg
             5 ex_truncated_no_memory
             (Exit (after ex_run_server_once ex_truncated_no_memory))).
    by vm_compute.
Defined.

Lemma serve_idles_forever_witness : ex_serve 7 ex_idle = None.
Proof.
  apply (serve_idles_forever ex_hdrlen ex_sizeof_wireup_msg 7 ex_idle);
    by vm_compute.
Defined.

Lemma ok_round_reposts_the_same_buffer_witness :
  true = true ∧
  bufs (after ex_run_server_once ex_request) = bufs ex_request ∧
  dom (heap (after ex_run_server_once ex_request)) = dom (heap ex_request) ∧
  (∃ d1, descs (pool (after ex_run_server_once ex_request)) !! 0%nat = Some d1 ∧
         completed d1 = false ∧ buf d1 = 1 ∧ buflen d1 = 117) ∧
  ∃ w tg mask,
    last (trace (after ex_run_server_once ex_request))
    = Some (EvTagRecv w 1 117 tg mask).
Proof.
  apply (ok_round_reposts_the_same_buffer ex_hdrlen ex_sizeof_wireup_msg
           ex_request 0
           {| status := UCS_OK; rxlen := 24; sender_tag := 17; buf := 1;
              buflen := 117; completed := true |});
    by vm_compute.
Defined.

Lemma serve_keeps_capacities_in_range_witness :
  caps_in_range ex_hdrlen ex_served ∧
  length (bufs ex_served) = length (bufs ex_pool).
Proof.
  apply (serve_keeps_capacities_in_range ex_hdrlen ex_sizeof_wireup_msg
           5 ex_pool ex_served).
  - by vm_compute.
  - unfold caps_in_range.
    assert (bufs ex_pool = [(1, 117); (2, 117); (3, 117)]) as ->
      by (by vm_compute).
    repeat (apply Forall_cons; split; [by vm_compute|]). by apply Forall_nil.
  - by vm_compute.
Defined.

End RepliesExtras.

(** ** The client *)

Module ClientProofs.
Import Replies RepliesProofs RepliesUse RepliesExtras Client.

Local Open Scope c_scope.

Lemma net_app t1 t2 : net (t1 ++ t2) = net t1 ++ net t2.
Proof. apply List.filter_app. Qed.

Lemma net_snoc_inert t e : is_net e = false → net (t ++ [e]) = net t.
Proof. intros H. rewrite net_app. cbn. rewrite H. apply app_nil_r. Qed.

Lemma net_snoc t e : is_net e = true → net (t ++ [e]) = net t ++ [e].
Proof. intros H. rewrite net_app. cbn. by rewrite H. Qed.

Lemma inert_bind {A B} (m : M state A) (k : A → M state B) :
  inert m → (∀ a, inert (k a)) → inert (bind m k).
Proof.
  intros Hm Hk s b s2 H. inv_bind H as a s1 Hs.
  destruct (Hk _ _ _ _ H) as (-> & -> & ->). by apply (Hm _ _ _ Hs).
Qed.

Lemma inert_ret {A} (a : A) : inert (ret a).
Proof. intros s b s' H. by injection H as _ <-. Qed.

Lemma inert_gets {A} (f : state → A) : inert (gets f).
Proof. intros s b s' H. by injection H as _ <-. Qed.

Lemma inert_emit e : is_net e = false → inert (emit e).
Proof.
  intros He s b s' H. injection H as _ <-. cbn. by rewrite net_snoc_inert.
Qed.

Lemma inert_load_desc i : inert (load_desc i).
Proof. intros s d s' H. by apply load_desc_inv in H as [-> _]. Qed.

Lemma inert_load_msg b : inert (load_msg b).
Proof. intros s m s' H. by apply load_msg_inv in H as [-> _]. Qed.

Lemma inert_rxpool_next : inert rxpool_next.
Proof. intros s m s' H. rewrite rxpool_next_Ret in H. by injection H as _ <-. Qed.

Lemma inert_c_assert b e : inert (c_assert b e).
Proof. destruct b; [apply inert_ret|]. intros s u s' H. discriminate. Qed.

Lemma inert_store_msg p need m : inert (store_msg p need m).
Proof.
  intros s u s' H. unfold store_msg in H.
  destruct (heap s !! p) as [b|] eqn:Hp; [|discriminate].
  case_decide; [|discriminate]. injection H as _ <-. cbn.
  split; [done|]. split; [done|].
  apply dom_insert_lookup_L. by rewrite Hp.
Qed.

Lemma inert_ucp_worker_progress : inert ucp_worker_progress.
Proof.
  intros s r s' H. split.
  - unfold ucp_worker_progress in H.
    destruct (pop _ _) as [step rest]. injection H as _ <-.
    cbn. rewrite net_snoc_inert by done. by rewrite foldl_complete_rx_trace.
  - by apply steady_ucp_worker_progress in H.
Qed.

Lemma inert_send_wait script : inert (send_wait script).
Proof.
  induction script as [|x script IH]; [intros s r s' H; discriminate|].
  cbn. apply inert_bind; [apply inert_ucp_worker_progress|].
  intros step. destruct (tx_done step); [apply inert_ret|apply IH].
Qed.

Lemma inert_close_wait script : inert (close_wait script).
Proof.
  induction script as [|x script IH]; [intros s r s' H; discriminate|].
  cbn. apply inert_bind; [apply inert_ucp_worker_progress|].
  intros step. destruct (close_done step); [apply inert_ret|apply IH].
Qed.

Lemma inert_reply_wait script : inert (reply_wait script).
Proof.
  induction script as [|x script IH]; cbn.
  - apply inert_bind; [apply inert_rxpool_next|].
    intros [i|]; [apply inert_ret|]. intros s r s' H. discriminate.
  - apply inert_bind; [apply inert_rxpool_next|].
    intros [i|]; [apply inert_ret|].
    apply inert_bind; [apply inert_ucp_worker_progress|]. intros _. apply IH.
Qed.

(** What [ep_close] does when it returns: the one call that closes the
    endpoint. *)
Lemma ep_close_inv ep u s s' :
  ep_close ep s = Ret u s' →
  ∃ cl, net (trace s') = net (trace s) ++ [EvEpClose ep cl] ∧
        bufs s' = bufs s ∧ dom (heap s') = dom (heap s).
Proof.
  unfold ep_close. intros H. inv_bind H as r s1 Hs.
  destruct (steady_ucp_ep_close_nb _ _ _ _ Hs) as [Hb Hd].
  apply ucp_ep_close_nb_inv in Hs. exists r.
  assert (Hi : inert (match r with
                      | ReqOk => ret tt
                      | ReqErr st => warnx "ep_close: ucp_ep_close_nb: %s" [AStatus st]
                      | ReqPtr _ =>
                        script <- gets (λ s, progress_script (ucx s));
                        close_wait script
                      end)).
  { destruct r; [apply inert_ret|by apply inert_emit|].
    apply inert_bind; [apply inert_gets|]. apply inert_close_wait. }
  apply Hi in H as (-> & -> & ->). by rewrite Hs, net_snoc.
Qed.

Lemma client_free_inv p u s s' :
  free p s = Ret u s' → p ≠ NULL →
  net (trace s') = net (trace s) ∧ bufs s' = bufs s ∧
  dom (heap s') = dom (heap s) ∖ {[p]}.
Proof.
  unfold free. intros H Hp. case_decide; [done|].
  destruct (heap s !! p); [|discriminate]. injection H as _ <-. cbn.
  rewrite net_snoc_inert by done. split; [done|]. split; [done|].
  apply dom_delete_L.
Qed.

(** *** The pool of the client *)

Lemma rxpool_post_inv n len s u s' :
  rxpool_post n len s = Ret u s' →
  ∃ new : list ptr,
    length new = n ∧
    bufs s' = bufs s ++ ((λ b, (b, len)) <$> new) ∧
    dom (heap s') = dom (heap s) ∪ list_to_set new ∧
    NoDup new ∧
    Forall (λ b, b ≠ NULL ∧ b ∉ dom (heap s)) new ∧
    net (trace s') =
      net (trace s) ++
      ((λ b, EvTagRecv (worker (pool s)) b len (pool_tag (pool s))
               (pool_tag_mask (pool s))) <$> new).
Proof.
  revert s. induction n as [|n IH]; intros s H.
  { injection H as _ <-. exists []. cbn. rewrite !app_nil_r.
    split; [done|]. split; [done|].
    split; [by rewrite (right_id_L ∅ (∪))|].
    split; [constructor|]. by split. }
  cbn [rxpool_post] in H. inv_bind H as b s1 Hm.
  case_decide as Hb; [discriminate|].
  apply rx_malloc_inv in Hm as [(_ & Hfresh & ->)|[-> _]]; [|done].
  inv_bind H as i s2 Hi. injection Hi as <- <-.
  inv_bind H as u1 s3 Hmod. injection Hmod as _ <-.
  inv_bind H as u2 s4 Hset.
  apply rxdesc_setup_inv in Hset as (d & Hd & ->).
  apply IH in H as (new & Hlen & Hbufs & Hdom & Hnd & Hall & Hnet).
  cbn in Hbufs, Hdom, Hall, Hnet.
  exists (b :: new). split; [by rewrite <- Hlen|].
  assert (Hins : (λ d, (buf d, buflen d)) <$>
                   <[length (descs (pool s)) := posted b len d]>
                     (descs (pool s) ++ [blank_desc])
                 = bufs s ++ [(b, len)]).
  { rewrite insert_app_r_alt by lia. rewrite Nat.sub_diag. cbn.
    unfold bufs. by rewrite fmap_app. }
  split; [|split; [|split; [|split]]].
  - rewrite Hbufs. unfold bufs at 1. cbn. rewrite Hins.
    by rewrite <- app_assoc.
  - rewrite Hdom, dom_insert_L. cbn. apply set_eq. intros x.
    rewrite !elem_of_union. tauto.
  - constructor; [|done]. intros Hin.
    rewrite Forall_forall in Hall. apply Hall in Hin as [_ Hin].
    apply Hin. rewrite dom_insert_L.
    by apply elem_of_union_l, elem_of_singleton.
  - constructor.
    + split; [done|]. by apply not_elem_of_dom.
    + eapply Forall_impl; [exact Hall|]. cbn. intros x [Hx1 Hx2].
      split; [done|]. rewrite dom_insert_L in Hx2.
      intros Hx3. apply Hx2. by apply elem_of_union_r.
  - rewrite Hnet. rewrite net_snoc by done. rewrite net_snoc_inert by done.
    cbn. by rewrite <- app_assoc.
Qed.

Lemma rxpool_init_inv w tg mask len n u s s' :
  rxpool_init w tg mask len n s = Ret u s' →
  ∃ new : list ptr,
    length new = n ∧
    bufs s' = (λ b, (b, len)) <$> new ∧
    dom (heap s') = dom (heap s) ∪ list_to_set new ∧
    NoDup new ∧
    Forall (λ b, b ≠ NULL ∧ b ∉ dom (heap s)) new ∧
    net (trace s') = net (trace s) ++ ((λ b, EvTagRecv w b len tg mask) <$> new).
Proof.
  unfold rxpool_init. intros H. inv_bind H as u1 s1 Hm. injection Hm as _ <-.
  by apply rxpool_post_inv in H.
Qed.

Lemma rxpool_release_inv ds i u s s' :
  rxpool_release i ds s = Ret u s' →
  Forall (λ d, buf d ≠ NULL) ds →
  bufs s' = bufs s ∧
  dom (heap s') = dom (heap s) ∖ list_to_set (buf <$> ds) ∧
  ∃ cancels, net (trace s') = net (trace s) ++ cancels ∧
             Forall (λ e, is_cancel e = true) cancels.
Proof.
  revert i s. induction ds as [|d ds IH]; intros i s H Hall.
  { injection H as _ <-. split; [done|].
    split; [cbn; by rewrite difference_empty_L|].
    exists []. by rewrite app_nil_r. }
  apply Forall_cons in Hall as [Hd Hall].
  cbn [rxpool_release] in H. inv_bind H as u1 s1 Hc. inv_bind H as u2 s2 Hf.
  apply client_free_inv in Hf as (Hn2 & Hb2 & Hd2); [|done].
  apply IH in H as (Hb3 & Hd3 & cancels & Hn3 & Hcs); [|done].
  split; [|split].
  - rewrite Hb3, Hb2. by destruct (completed d); injection Hc as _ <-.
  - rewrite Hd3, Hd2. cbn.
    assert (dom (heap s1) = dom (heap s)) as ->
      by (by destruct (completed d); injection Hc as _ <-).
    apply set_eq. intros x.
    rewrite !elem_of_difference, elem_of_union. tauto.
  - destruct (completed d); injection Hc as _ <-.
    + exists cancels. by rewrite Hn3, Hn2.
    + exists (EvCancel i :: cancels). split; [|by constructor].
      rewrite Hn3, Hn2. cbn. rewrite net_snoc by done.
      by rewrite <- app_assoc.
Qed.

Lemma rxpool_destroy_inv u s s' :
  rxpool_destroy s = Ret u s' →
  Forall (λ c, c.1 ≠ NULL) (bufs s) →
  descs (pool s') = [] ∧
  dom (heap s') = dom (heap s) ∖ list_to_set ((bufs s).*1) ∧
  ∃ cancels, net (trace s') = net (trace s) ++ cancels ∧
             Forall (λ e, is_cancel e = true) cancels.
Proof.
  unfold rxpool_destroy. intros H Hall.
  inv_bind H as ds s1 Hg. injection Hg as <- <-.
  inv_bind H as u1 s2 Hr. injection H as _ <-.
  apply rxpool_release_inv in Hr as (_ & Hd & cancels & Hn & Hc).
  2:{ unfold bufs in Hall. by rewrite Forall_fmap in Hall. }
  split; [done|]. split.
  - cbn. rewrite Hd. unfold bufs. by rewrite <- list_fmap_compose.
  - by exists cancels.
Qed.

Section Client.

Variable hdrlen : Z.
Variable sizeof_wireup_msg : Z.

(** Everything that a returning [run_client] has done, in order. *)
Lemma run_client_inv w request_size local_addr remote_addr u s s1 :
  run_client hdrlen sizeof_wireup_msg w request_size local_addr remote_addr s
  = Ret u s1 →
  ∃ ep new rq cancels cl,
    length new = 3%nat ∧
    net (trace s1) =
      net (trace s) ++
      [EvEpCreate remote_addr (EpOk ep)] ++
      ((λ b, EvTagRecv w b sizeof_wireup_msg START_WIREUP_TAG UINT64_MAX)
         <$> new) ++
      [EvTagSend ep (request_of local_addr)
         (wrap_size (sizeof_wireup_msg + Z.of_nat (length local_addr)))
         START_WIREUP_TAG rq] ++
      cancels ++ [EvEpClose ep cl] ∧
    Forall (λ e, is_cancel e = true) cancels ∧
    descs (pool s1) = [] ∧
    dom (heap s1) = dom (heap s).
Proof.
  unfold run_client. intros H.
  inv_bind H as req s2 Hm. case_decide as Hreq; [discriminate|].
  apply rx_malloc_inv in Hm as [(_ & Hfresh & ->)|[-> _]]; [|done].
  inv_bind H as r s3 He.
  destruct (steady_ucp_ep_create _ _ _ _ He) as [_ Hd3].
  apply ucp_ep_create_inv in He. cbn in He, Hd3.
  destruct r as [ep|st]; [|discriminate].
  inv_bind H as u1 s4 Hinit.
  apply rxpool_init_inv in Hinit as (new & Hlen & Hb4 & Hd4 & Hnd & Hall & Hn4).
  rewrite Hd3 in Hd4, Hall. rewrite He in Hn4.
  rewrite net_snoc in Hn4 by done. rewrite net_snoc_inert in Hn4 by done.
  inv_bind H as u2 s5 Hst. apply inert_store_msg in Hst as (Hn5 & Hb5 & Hd5).
  inv_bind H as rq s6 Hsend.
  destruct (steady_ucp_tag_send_nbx _ _ _ _ _ _ _ Hsend) as [Hb6 Hd6].
  apply ucp_tag_send_nbx_inv in Hsend.
  inv_bind H as u3 s6' Hwait.
  assert (Hi : inert (match rq with
    | ReqOk => printf "send succeeded immediately, exiting." []
    | ReqErr st => warnx "run_client: ucp_tag_send_nbx: %s" [AStatus st]
    | ReqPtr _ =>
      script <- gets (λ s, progress_script (ucx s));
      st <- send_wait script;
      (if decide (st ≠ UCS_OK) then
         printf "send error, %s, exiting." [AStatus st]
       else ret tt);;
      printf "send succeeded, exiting." []
    end)).
  { destruct rq as [|st|p]; [by apply inert_emit|by apply inert_emit|].
    apply inert_bind; [apply inert_gets|]. intros script.
    apply inert_bind; [apply inert_send_wait|]. intros st.
    apply inert_bind; [case_decide; [by apply inert_emit|apply inert_ret]|].
    intros _. by apply inert_emit. }
  apply Hi in Hwait as (Hn6' & Hb6' & Hd6'). clear Hi.
  inv_bind H as u4 s7 Hfree.
  apply client_free_inv in Hfree as (Hn7 & Hb7 & Hd7); [|done].
  inv_bind H as script s8 Hg. injection Hg as <- <-.
  inv_bind H as i s8 Hw. apply inert_reply_wait in Hw as (Hn8 & Hb8 & Hd8).
  inv_bind H as rdesc s9 Hl. apply inert_load_desc in Hl as (Hn9 & Hb9 & Hd9).
  inv_bind H as reply s10 Hl2. apply inert_load_msg in Hl2 as (Hn10 & Hb10 & Hd10).
  inv_bind H as u5 s11 Ha. apply inert_c_assert in Ha as (Hn11 & Hb11 & Hd11).
  inv_bind H as u6 s12 Hdes.
  assert (Hbufs : bufs s11 = (λ b, (b, sizeof_wireup_msg)) <$> new)
    by congruence.
  apply rxpool_destroy_inv in Hdes as (Hp12 & Hd12 & cancels & Hn12 & Hcs).
  2:{ rewrite Hbufs, Forall_fmap. eapply Forall_impl; [exact Hall|].
      by intros x [Hx _]. }
  apply ep_close_inv in H as (cl & Hn13 & Hb13 & Hd13).
  exists ep, new, rq, cancels, cl.
  split; [done|]. split; [|split; [done|split]].
  - rewrite Hn13, Hn12, Hn11, Hn10, Hn9, Hn8, Hn7, Hn6', Hsend.
    rewrite net_snoc by done. rewrite Hn5, Hn4.
    unfold request_of. by rewrite <- !app_assoc.
  - unfold bufs in Hb13. rewrite Hp12 in Hb13.
    by apply fmap_nil_inv in Hb13.
  - rewrite Hd13, Hd12, Hbufs, Hd11, Hd10, Hd9, Hd8, Hd7, Hd6', Hd6, Hd5, Hd4.
    rewrite <- list_fmap_compose. cbn. rewrite list_fmap_id.
    rewrite dom_insert_L.
    assert (req ∉ dom (heap s)) by (by apply not_elem_of_dom).
    assert (∀ x, x ∈ new → x ∉ dom (heap s)).
    { intros x Hx. rewrite Forall_forall in Hall.
      apply Hall in Hx as [_ Hx]. rewrite dom_insert_L in Hx.
      intros Hx'. apply Hx. by apply elem_of_union_r. }
    assert (req ∉ new).
    { intros Hx. rewrite Forall_forall in Hall.
      apply Hall in Hx as [_ Hx]. rewrite dom_insert_L in Hx.
      apply Hx. by apply elem_of_union_l, elem_of_singleton. }
    apply set_eq. intros x.
    rewrite !elem_of_difference, !elem_of_union, elem_of_singleton,
      elem_of_list_to_set.
    split; [tauto|]. intros Hx. split; [split; [by left; right|]|].
    + by intros ->.
    + intros Hn. by apply (H0 x).
Qed.

(** X17.  The order of the client's handshake: its calls that create or
    close an endpoint, send a message, post a receive or cancel one.  (The
    calls of [ucp_worker_progress] that it makes while it waits are not
    counted here.)  Whenever [run_client] returns, these calls were, in
    this order and no others of these kinds: one endpoint to the remote
    address; three receives of [sizeof(wireup_msg_t)] bytes posted on the
    wireup tag with the full mask; then -- only then -- one message, the
    request that carries the client's own address, of
    [sizeof(wireup_msg_t)] plus the address length bytes, on the wireup
    tag; the cancellation of receives; and last the close of the endpoint.
    The receives are posted before the request is sent. *)
Theorem run_client_posts_before_it_asks w request_size local_addr remote_addr
    s s1 :
  run_client hdrlen sizeof_wireup_msg w request_size local_addr remote_addr s
  = Ret tt s1 →
  ∃ ep new rq cancels cl,
    length new = 3%nat ∧
    Forall (λ e, is_cancel e = true) cancels ∧
    net (trace s1) =
      net (trace s) ++
      [EvEpCreate remote_addr (EpOk ep)] ++
      ((λ b, EvTagRecv w b sizeof_wireup_msg START_WIREUP_TAG UINT64_MAX)
         <$> new) ++
      [EvTagSend ep (request_of local_addr)
         (wrap_size (sizeof_wireup_msg + Z.of_nat (length local_addr)))
         START_WIREUP_TAG rq] ++
      cancels ++ [EvEpClose ep cl].
Proof.
  intros H.
  apply run_client_inv in H as (ep & new & rq & cancels & cl & H1 & H2 & H3 & _).
  by exists ep, new, rq, cancels, cl.
Qed.

(** X18.  A client that returns holds nothing: the blocks that are live
    afterwards are those that were live before -- the request and the three
    receive buffers are freed -- and the pool has no slot left. *)
Theorem run_client_releases_what_it_allocates w request_size local_addr
    remote_addr s s1 :
  run_client hdrlen sizeof_wireup_msg w request_size local_addr remote_addr s
  = Ret tt s1 →
  dom (heap s1) = dom (heap s) ∧ descs (pool s1) = [].
Proof.
  intros H.
  by apply run_client_inv in H as (ep & new & rq & cancels & cl & _ & _ & _ & ? & ?).
Qed.

(** X19.  Without an endpoint the client gives up, where the server goes
    on: when [ucp_ep_create] fails, [run_client] ends the process, and it
    has posted no receive and sent nothing. *)
Theorem run_client_gives_up_without_an_endpoint w request_size local_addr
    remote_addr s st rest :
  ep_results (ucx s) = EpErr st :: rest →
  ∃ s1,
    run_client hdrlen sizeof_wireup_msg w request_size local_addr remote_addr s
    = Exit s1 ∧
    (net (trace s1) = net (trace s) ∨
     net (trace s1) = net (trace s) ++ [EvEpCreate remote_addr (EpErr st)]).
Proof.
  intros He.
  assert (Hep : ∀ s0, ep_results (ucx s0) = EpErr st :: rest →
    ∃ s2, ucp_ep_create remote_addr s0 = Ret (EpErr st) s2 ∧
          trace s2 = trace s0 ++ [EvEpCreate remote_addr (EpErr st)]).
  { intros s0 H0. unfold ucp_ep_create. rewrite H0. cbn. by eexists. }
  unfold run_client, bind, malloc.
  destruct (malloc_oracle s) as [|[] o]; cbn.
  - case_decide as Hn; [by apply fresh_ptr_not_null in Hn|].
    edestruct Hep as (s2 & -> & Ht); [exact He|].
    eexists. split; [reflexivity|]. right. cbn. rewrite Ht. cbn.
    rewrite net_snoc_inert by done. rewrite net_snoc by done.
    by rewrite net_snoc_inert by done.
  - case_decide as Hn; [by apply fresh_ptr_not_null in Hn|].
    edestruct Hep as (s2 & -> & Ht); [exact He|].
    eexists. split; [reflexivity|]. right. cbn. rewrite Ht. cbn.
    rewrite net_snoc_inert by done. rewrite net_snoc by done.
    by rewrite net_snoc_inert by done.
  - case_decide; [|done]. eexists. split; [reflexivity|]. left. cbn.
    by rewrite !net_snoc_inert by done.
Qed.

End Client.

Lemma run_client_posts_before_it_asks_witness :
  ∃ ep new rq cancels cl,
    length new = 3%nat ∧
    Forall (λ e, is_cancel e = true) cancels ∧
    net (trace (after ex_run_client ex_answered)) =
      net (trace ex_answered) ++
      [EvEpCreate 40 (EpOk ep)] ++
      ((λ b, EvTagRecv 50 b ex_sizeof_wireup_msg START_WIREUP_TAG UINT64_MAX)
         <$> new) ++
      [EvTagSend ep (request_of [192; 168; 0; 1])
         (wrap_size (ex_sizeof_wireup_msg + Z.of_nat 4))
         START_WIREUP_TAG rq] ++
      cancels ++ [EvEpClose ep cl].
Proof.
  apply (run_client_posts_before_it_asks ex_hdrlen ex_sizeof_wireup_msg
           50 64 [192; 168; 0; 1] 40 ex_answered).
  by vm_compute.
Defined.

Lemma run_client_releases_what_it_allocates_witness :
  dom (heap (after ex_run_client ex_answered)) = dom (heap ex_answered) ∧
  descs (pool (after ex_run_client ex_answered)) = [].
Proof.
  apply (run_client_releases_what_it_allocates ex_hdrlen ex_sizeof_wireup_msg
           50 64 [192; 168; 0; 1] 40 ex_answered).
  by vm_compute.
Defined.

Lemma run_client_gives_up_without_an_endpoint_witness :
  ∃ s1,
    ex_run_client ex_refused = Exit s1 ∧
    (net (trace s1) = net (trace ex_refused) ∨
     net (trace s1) =
       net (trace ex_refused) ++ [EvEpCreate 40 (EpErr (UCS_OTHER (-6)))]).
Proof.
  apply (run_client_gives_up_without_an_endpoint ex_hdrlen ex_sizeof_wireup_msg
           50 64 [192; 168; 0; 1] 40 ex_refused (UCS_OTHER (-6)) []).
  reflexivity.
Defined.

End ClientProofs.

(** ** [main] *)

Module MainProofs.
Import Replies Client Main.

Lemma acquired_print_octets delim octets :
  List.filter acquired (print_octets delim octets) = [].
Proof.
  revert delim. induction octets as [|o rest IH]; intros delim; [done|].
  cbn. apply IH.
Qed.

Lemma released_print_octets delim octets :
  List.filter released (print_octets delim octets) = [].
Proof.
  revert delim. induction octets as [|o rest IH]; intros delim; [done|].
  cbn. apply IH.
Qed.

Local Ltac main_failure Hfail :=
  repeat (case_decide; [done|]);
  destruct Hfail as [Hfail|Hfail]; [done|];
  match goal with H : worker_create _ = UCS_OK |- _ => rewrite H end;
  case_decide; [reflexivity|done].

Local Ltac status_cases :=
  repeat match goal with
  | |- context [decide (?x ≠ UCS_OK)] =>
    let Hok := fresh "Hok" in
    destruct (decide (x ≠ UCS_OK)) as [?|Hok];
    [|apply dec_stable in Hok; rewrite ?Hok];
    cbn [how calls final]
  | |- context [negb (has_request_size ?e)] =>
    destruct (has_request_size e); cbn [negb how calls final]
  end.

Section Main.

Variable hdrlen : Z.
Variable sizeof_wireup_msg : Z.

(** X20.  A transport that cannot give [main] a worker, or the worker's
    address, does not make the process fail.  When the command line is
    accepted and [ucp_config_read], [ucp_init] and [ucp_context_query]
    succeed, but [ucp_worker_create] or [ucp_worker_get_address] fails,
    [main] returns [EXIT_SUCCESS], and this is all it does: in client mode
    it prints the length of the parsed remote address, which lies in a new
    block; it calls [ucp_config_read], [ucp_init], [ucp_config_release],
    [ucp_context_query] and [ucp_worker_create]; if that failed it warns
    and calls [ucp_cleanup]; otherwise it calls [ucp_worker_get_address],
    warns, and calls [ucp_worker_destroy] and [ucp_cleanup].  Neither the
    client nor the server is run, and in client mode the block of the remote
    address is still allocated at the end. *)
Theorem main_succeeds_without_a_worker argc argv1 env fuel s :
  argc ≤ 2 →
  (argc = 2 → is_Some (parsed env)) →
  config_read env = UCS_OK →
  init env = UCS_OK →
  context_query env = UCS_OK →
  has_request_size env = true →
  worker_create env ≠ UCS_OK ∨ get_address env ≠ UCS_OK →
  ∃ c0 s0,
    ((argc = 2 ∧
      ∃ len, parsed env = Some len ∧
             c0 = [CPrintf "parsed %zu-byte remote address" [MInt len]] ∧
             s0 = set_heap (<[fresh_ptr (dom (heap s)) :=
                                {| blk_size := len; blk_msg := None |}]>
                              (heap s)) s) ∨
     (argc ≠ 2 ∧ c0 = [] ∧ s0 = s)) ∧
    main hdrlen sizeof_wireup_msg argc argv1 env fuel s =
    {| how := Returned EXIT_SUCCESS;
       calls :=
         c0 ++
         [CConfigRead UCS_OK; CInit UCS_OK; CConfigRelease;
          CContextQuery UCS_OK] ++
         (if decide (worker_create env ≠ UCS_OK) then
            [CWorkerCreate (worker_create env);
             CWarnx "main: ucp_worker_create"; CCleanup]
          else
            [CWorkerCreate UCS_OK; CWorkerGetAddress (get_address env);
             CWarnx "main: ucp_worker_get_address"; CWorkerDestroy; CCleanup]);
       final := s0 |}.
Proof.
  intros Hargc Hparsed Hcfg Hinit Hq Hrs Hfail. unfold main.
  case_decide; [lia|].
  destruct (decide (argc = 2)) as [Ha|Ha].
  - destruct (Hparsed Ha) as [len Hlen]. rewrite Hlen.
    eexists _, _. split; [left; split; [done|]; by exists len|].
    rewrite Hcfg, Hinit, Hq, Hrs. cbn. main_failure Hfail.
  - eexists _, _. split; [by right|].
    rewrite Hcfg, Hinit, Hq, Hrs. cbn. main_failure Hfail.
Qed.

(** X21.  What [main] has given back when the process ends in [main]
    itself.  Whenever [main] returns, the status is [EXIT_SUCCESS], the
    context had been created, and the calls that give something back are
    exactly the counterparts of the successful calls of [ucp_init],
    [ucp_worker_create] and [ucp_worker_get_address], in the opposite
    order: [ucp_worker_release_address] for the address, then
    [ucp_worker_destroy] for the worker, then [ucp_cleanup] for the
    context, each once and only for what was acquired.  Whenever [main]
    exits, the status is [EXIT_FAILURE] and it has given nothing back, also
    when the context had been created. *)
Theorem main_gives_back_what_it_got argc argv1 env fuel s :
  match how (main hdrlen sizeof_wireup_msg argc argv1 env fuel s) with
  | Returned st =>
    st = EXIT_SUCCESS ∧
    head (List.filter acquired
            (calls (main hdrlen sizeof_wireup_msg argc argv1 env fuel s)))
      = Some (CInit UCS_OK) ∧
    List.filter released
      (calls (main hdrlen sizeof_wireup_msg argc argv1 env fuel s))
    = rev (release_of <$>
           List.filter acquired
             (calls (main hdrlen sizeof_wireup_msg argc argv1 env fuel s)))
  | Exited st =>
    st = EXIT_FAILURE ∧
    List.filter released
      (calls (main hdrlen sizeof_wireup_msg argc argv1 env fuel s)) = []
  | _ => True
  end.
Proof.
  unfold main. case_decide; [done|].
  destruct (decide (argc = 2)) as [Ha|Ha]; [destruct (parsed env) as [len|]|];
    cbn [how calls final]; status_cases.
  all: try match goal with
       | |- context [match ?r with Some _ => _ | None => _ end] =>
         destruct r as [[]|]; cbn [how calls final]; try done
       end.
  all: split; [reflexivity|].
  all: rewrite ?List.filter_app, ?acquired_print_octets, ?released_print_octets.
  all: cbn.
  all: try done.
  all: try (by destruct (worker_create env)).
  all: by destruct (get_address env).
Qed.

End Main.

Lemma main_succeeds_without_a_worker_witness :
  ∃ c0 s0,
    ((2 = 2 ∧
      ∃ len, parsed (ex_env (UCS_OTHER (-3))) = Some len ∧
             c0 = [CPrintf "parsed %zu-byte remote address" [MInt len]] ∧
             s0 = set_heap (<[fresh_ptr (dom (heap ex_answered)) :=
                                {| blk_size := len; blk_msg := None |}]>
                              (heap ex_answered)) ex_answered) ∨
     (2 ≠ 2 ∧ c0 = [] ∧ s0 = ex_answered)) ∧
    ex_main 2 (ex_env (UCS_OTHER (-3))) ex_answered =
    {| how := Returned EXIT_SUCCESS;
       calls :=
         c0 ++
         [CConfigRead UCS_OK; CInit UCS_OK; CConfigRelease;
          CContextQuery UCS_OK] ++
         [CWorkerCreate (UCS_OTHER (-3));
          CWarnx "main: ucp_worker_create"; CCleanup];
       final := s0 |}.
Proof.
  apply (main_succeeds_without_a_worker ex_hdrlen ex_sizeof_wireup_msg 2
           "c0:a8:00:02" (ex_env (UCS_OTHER (-3))) 8 ex_answered).
  - by vm_compute.
  - intros _. by exists 4.
  - reflexivity.
  - reflexivity.
  - reflexivity.
  - reflexivity.
  - left. discriminate.
Defined.

End MainProofs.
